(** * sse-kit: wire codec, typed stream parser, circuit breaker and its
    registry, retry manager, backoff, timeouts, stream orchestrator

    A shallow embedding of the TypeScript sources of sse-kit and the
    properties its specification states about them.

    Conventions of the embedding.
    - In the wire codec ([Utf16], [Wire]) a JavaScript string is the list of
      its UTF-16 code units, and the JSON values, [JSON.stringify] and
      [JSON.parse] are those of the platform, a parameter. Elsewhere a string
      is a [string] of code units below 256 and a JSON value is a [json]:
      integers, such strings, arrays, objects as ordered lists of properties.
    - In the backoff and the retry manager a number is an IEEE 754 double
      ([spec_float], 53 bits of precision); [Math.pow] and [Math.random()] are
      parameters. Counters and clock readings are integers.
    - A callback (onMessage, onError, an observer hook, a logger) is an entry
      of an output trace. The [onMessage] given to [createSSEParser] may
      throw, in the wire codec; the other callbacks are taken to return.
    - [Date.now()] is an argument of the operation that reads it. *)

From Stdlib Require Import List String Ascii Bool Arith ZArith Lia.
From Stdlib Require Import Decimal DecimalFacts DecimalPos DecimalZ DecimalString.
From Stdlib Require Import QArith Qround SpecFloat.
Import ListNotations.

Local Close Scope Q_scope.
Local Open Scope nat_scope.
Local Open Scope string_scope.

(* ================================================================== *)
(** * JavaScript string primitives used by the sources *)
(* ================================================================== *)

Module JsString.

Definition LF : ascii := "010"%char.
Definition DQUOTE : ascii := "034"%char.
Definition BACKSLASH : ascii := "092"%char.

(** The one-character string. *)
Definition str1 (c : ascii) : string := String c EmptyString.

(** ["\n"] and ["\n\n"]. *)
Definition NL : string := str1 LF.
Definition NLNL : string := String LF (String LF EmptyString).

(** [s.startsWith(p)] *)
Definition startsWith (p s : string) : bool := String.prefix p s.

(** [s.slice(n)] for [0 <= n]. *)
Fixpoint slice_from (n : nat) (s : string) : string :=
  match n, s with
  | O, _ => s
  | S _, EmptyString => EmptyString
  | S k, String _ r => slice_from k r
  end.

(** [s.slice(0, n)] for [0 <= n]. *)
Fixpoint slice_to (n : nat) (s : string) : string :=
  match n, s with
  | O, _ => EmptyString
  | S _, EmptyString => EmptyString
  | S k, String c r => String c (slice_to k r)
  end.

(** [s.includes(needle)] *)
Fixpoint includes (needle s : string) : bool :=
  String.prefix needle s ||
  match s with
  | EmptyString => false
  | String _ r => includes needle r
  end.

(** [s.toLowerCase()] on code units below 256: A-Z, and the Latin-1
    capitals 192-222 except the multiplication sign 215. *)
Definition lower_char (c : ascii) : ascii :=
  let n := nat_of_ascii c in
  if (((65 <=? n) && (n <=? 90)) || ((192 <=? n) && (n <=? 222) && negb (n =? 215)))%nat
  then ascii_of_nat (n + 32) else c.

Fixpoint toLowerCase (s : string) : string :=
  match s with
  | EmptyString => EmptyString
  | String c r => String (lower_char c) (toLowerCase r)
  end.

(** White space as [trim] sees it (code units below 256): TAB, LF, VT, FF,
    CR, SPACE and NBSP. *)
Definition is_space (c : ascii) : bool :=
  let n := nat_of_ascii c in
  (((9 <=? n) && (n <=? 13)) || (n =? 32) || (n =? 160))%nat.

Fixpoint trimStart (s : string) : string :=
  match s with
  | EmptyString => EmptyString
  | String c r => if is_space c then trimStart r else s
  end.

Fixpoint trimEnd (s : string) : string :=
  match s with
  | EmptyString => EmptyString
  | String c r =>
      match trimEnd r with
      | EmptyString => if is_space c then EmptyString else str1 c
      | String _ _ as r' => String c r'
      end
  end.

(** [s.trim()] *)
Definition trim (s : string) : string := trimEnd (trimStart s).

(** The first occurrence of [sep] in [s]: the text before it and the text
    after it. *)
Fixpoint cut (sep s : string) : option (string * string) :=
  if String.prefix sep s then Some (EmptyString, slice_from (String.length sep) s)
  else match s with
       | EmptyString => None
       | String c r =>
           match cut sep r with
           | Some (b, a) => Some (String c b, a)
           | None => None
           end
       end.

Fixpoint split_fuel (fuel : nat) (sep s : string) : list string :=
  match fuel with
  | O => [s]
  | S f =>
      match cut sep s with
      | None => [s]
      | Some (b, a) => b :: split_fuel f sep a
      end
  end.

(** [s.split(sep)] for a non-empty separator: the pieces between the
    successive occurrences of [sep], found left to right. Each cut removes at
    least one character, so the length of [s] is fuel enough. *)
Definition split (sep s : string) : list string :=
  split_fuel (String.length s) sep s.

(** [lines.join(sep)] *)
Definition join (sep : string) (ls : list string) : string := String.concat sep ls.

(** [`${n}`] for an integer [n]. *)
Definition show_int (z : Z) : string := NilZero.string_of_int (Z.to_int z).

(** [new TextEncoder().encode(s)]: UTF-8, one byte below 128 and two bytes
    for the code units 128-255. *)
Definition utf8_char (c : ascii) : list ascii :=
  let n := nat_of_ascii c in
  if (n <? 128)%nat then [c]
  else [ascii_of_nat (192 + n / 64); ascii_of_nat (128 + n mod 64)].

Fixpoint encode (s : string) : list ascii :=
  match s with
  | EmptyString => []
  | String c r => utf8_char c ++ encode r
  end.

End JsString.

Import JsString.

(* ================================================================== *)
(** * JSON values, [JSON.stringify] and [JSON.parse] *)
(* ================================================================== *)

Module Json.

(** A JSON-serializable value. Numbers are the integers; an object is the
    list of its properties in enumeration order. *)
#[local] Unset Elimination Schemes.
Inductive json : Type :=
| JNull
| JBool (b : bool)
| JNumber (n : Z)
| JString (s : string)
| JArray (items : list json)
| JObject (props : list (string * json)).
#[local] Set Elimination Schemes.

Definition hex_digit (n : nat) : ascii :=
  if (n <? 10)%nat then ascii_of_nat (48 + n) else ascii_of_nat (87 + n).

(** How [JSON.stringify] writes one character of a string. *)
Definition escape_char (c : ascii) : string :=
  let n := nat_of_ascii c in
  if (c =? DQUOTE)%char then String BACKSLASH (str1 DQUOTE)
  else if (c =? BACKSLASH)%char then String BACKSLASH (str1 BACKSLASH)
  else if (n =? 8)%nat then String BACKSLASH "b"
  else if (n =? 9)%nat then String BACKSLASH "t"
  else if (n =? 10)%nat then String BACKSLASH "n"
  else if (n =? 12)%nat then String BACKSLASH "f"
  else if (n =? 13)%nat then String BACKSLASH "r"
  else if (n <? 32)%nat
       then String BACKSLASH ("u00" ++ String (hex_digit (n / 16)) (str1 (hex_digit (n mod 16))))
  else str1 c.

Fixpoint escape (s : string) : string :=
  match s with
  | EmptyString => EmptyString
  | String c r => escape_char c ++ escape r
  end.

Definition quote (s : string) : string :=
  String DQUOTE (escape s ++ str1 DQUOTE).

(** [JSON.stringify(v)], without indentation. *)
Fixpoint stringify (v : json) : string :=
  match v with
  | JNull => "null"
  | JBool true => "true"
  | JBool false => "false"
  | JNumber n => show_int n
  | JString s => quote s
  | JArray items => "[" ++ join "," (map stringify items) ++ "]"
  | JObject props =>
      "{" ++ join "," (map (fun kv => quote (fst kv) ++ ":" ++ stringify (snd kv)) props) ++ "}"
  end.

(** White space of the JSON grammar: SPACE, TAB, LF, CR. *)
Definition is_json_ws (c : ascii) : bool :=
  let n := nat_of_ascii c in
  ((n =? 32) || (n =? 9) || (n =? 10) || (n =? 13))%nat.

Fixpoint skip_ws (s : string) : string :=
  match s with
  | EmptyString => EmptyString
  | String c r => if is_json_ws c then skip_ws r else s
  end.

Definition hex_value (c : ascii) : option nat :=
  let n := nat_of_ascii c in
  if ((48 <=? n) && (n <=? 57))%nat then Some (n - 48)
  else if ((97 <=? n) && (n <=? 102))%nat then Some (n - 87)
  else if ((65 <=? n) && (n <=? 70))%nat then Some (n - 55)
  else None.

(** The character a one-letter escape stands for. *)
Definition unescape (e : ascii) : option ascii :=
  if (e =? DQUOTE)%char then Some DQUOTE
  else if (e =? BACKSLASH)%char then Some BACKSLASH
  else if (e =? "/")%char then Some "/"%char
  else if (e =? "b")%char then Some "008"%char
  else if (e =? "t")%char then Some "009"%char
  else if (e =? "n")%char then Some "010"%char
  else if (e =? "f")%char then Some "012"%char
  else if (e =? "r")%char then Some "013"%char
  else None.

Definition cons_char (c : ascii) (r : option (string * string)) : option (string * string) :=
  match r with
  | Some (s, rest) => Some (String c s, rest)
  | None => None
  end.

(** The characters of a string literal after its opening quote, up to and
    including the closing quote. An escape above code unit 255 has no
    character in this model and is refused. *)
Fixpoint parse_chars (s : string) : option (string * string) :=
  match s with
  | EmptyString => None
  | String c r =>
      if (c =? DQUOTE)%char then Some (EmptyString, r)
      else if (c =? BACKSLASH)%char then
        match r with
        | EmptyString => None
        | String e r1 =>
            match unescape e with
            | Some d => cons_char d (parse_chars r1)
            | None =>
                if (e =? "u")%char then
                  match r1 with
                  | String h1 (String h2 (String h3 (String h4 r2))) =>
                      match hex_value h1, hex_value h2, hex_value h3, hex_value h4 with
                      | Some 0, Some 0, Some a, Some b =>
                          cons_char (ascii_of_nat (16 * a + b)) (parse_chars r2)
                      | _, _, _, _ => None
                      end
                  | _ => None
                  end
                else None
            end
        end
      else if (nat_of_ascii c <? 32)%nat then None
      else cons_char c (parse_chars r)
  end.

Definition digit_of (c : ascii) : option (uint -> uint) :=
  if (c =? "0")%char then Some D0 else if (c =? "1")%char then Some D1
  else if (c =? "2")%char then Some D2 else if (c =? "3")%char then Some D3
  else if (c =? "4")%char then Some D4 else if (c =? "5")%char then Some D5
  else if (c =? "6")%char then Some D6 else if (c =? "7")%char then Some D7
  else if (c =? "8")%char then Some D8 else if (c =? "9")%char then Some D9
  else None.

(** The longest run of decimal digits at the head of [s]. *)
Fixpoint read_digits (s : string) : uint * string :=
  match s with
  | EmptyString => (Nil, EmptyString)
  | String c r =>
      match digit_of c with
      | Some d => let (u, rest) := read_digits r in (d u, rest)
      | None => (Nil, s)
      end
  end.

(** An integer literal: an optional minus sign, then ["0"] or digits with no
    leading zero. *)
Definition parse_number (s : string) : option (json * string) :=
  let (neg, s1) :=
    match s with
    | String c r => if (c =? "-")%char then (true, r) else (false, s)
    | EmptyString => (false, s)
    end in
  let (u, rest) := read_digits s1 in
  if uint_beq (unorm u) u
  then Some (JNumber (Z.of_int (if neg then Neg u else Pos u)), rest)
  else None.

Definition expect (word s : string) (v : json) : option (json * string) :=
  if String.prefix word s then Some (v, slice_from (String.length word) s) else None.

(** Recursive descent over the JSON grammar; every call spends one unit of
    fuel. *)
Fixpoint parse_value (fuel : nat) (s : string) : option (json * string) :=
  match fuel with
  | O => None
  | S f =>
      match s with
      | EmptyString => None
      | String c r =>
          if (c =? "n")%char then expect "null" s JNull
          else if (c =? "t")%char then expect "true" s (JBool true)
          else if (c =? "f")%char then expect "false" s (JBool false)
          else if (c =? DQUOTE)%char then
            match parse_chars r with
            | Some (str, rest) => Some (JString str, rest)
            | None => None
            end
          else if (c =? "[")%char then
            match skip_ws r with
            | String c1 r1 =>
                if (c1 =? "]")%char then Some (JArray [], r1)
                else match parse_elements f (String c1 r1) with
                     | Some (items, rest) => Some (JArray items, rest)
                     | None => None
                     end
            | EmptyString => None
            end
          else if (c =? "{")%char then
            match skip_ws r with
            | String c1 r1 =>
                if (c1 =? "}")%char then Some (JObject [], r1)
                else match parse_members f (String c1 r1) with
                     | Some (props, rest) => Some (JObject props, rest)
                     | None => None
                     end
            | EmptyString => None
            end
          else parse_number s
      end
  end

with parse_elements (fuel : nat) (s : string) : option (list json * string) :=
  match fuel with
  | O => None
  | S f =>
      match parse_value f s with
      | None => None
      | Some (v, r) =>
          match skip_ws r with
          | String c r1 =>
              if (c =? ",")%char then
                match parse_elements f (skip_ws r1) with
                | Some (vs, rest) => Some (v :: vs, rest)
                | None => None
                end
              else if (c =? "]")%char then Some ([v], r1)
              else None
          | EmptyString => None
          end
      end
  end

with parse_members (fuel : nat) (s : string) : option (list (string * json) * string) :=
  match fuel with
  | O => None
  | S f =>
      match s with
      | EmptyString => None
      | String q r0 =>
          if (q =? DQUOTE)%char then
            match parse_chars r0 with
            | None => None
            | Some (k, r) =>
                match skip_ws r with
                | String c r1 =>
                    if (c =? ":")%char then
                      match parse_value f (skip_ws r1) with
                      | None => None
                      | Some (v, r2) =>
                          match skip_ws r2 with
                          | String c2 r3 =>
                              if (c2 =? ",")%char then
                                match parse_members f (skip_ws r3) with
                                | Some (kvs, rest) => Some ((k, v) :: kvs, rest)
                                | None => None
                                end
                              else if (c2 =? "}")%char then Some ([(k, v)], r3)
                              else None
                          | EmptyString => None
                          end
                      end
                    else None
                | EmptyString => None
                end
            end
          else None
      end
  end.

(** [JSON.parse(s)]: [None] stands for the SyntaxError it throws. The length
    of the text bounds the number of calls of the descent. Numbers being the
    integers here, a literal with a fraction or an exponent is refused. *)
Definition parse (s : string) : option json :=
  match parse_value (S (String.length s)) (skip_ws s) with
  | Some (v, rest) =>
      match skip_ws rest with
      | EmptyString => Some v
      | String _ _ => None
      end
  | None => None
  end.

(** The values the embedding renders as the platform does. A number of the
    platform is a double: an integer is exact, and printed with all its
    digits, below 2^53 in magnitude. An object of the platform has each key
    once, and lists the keys that are array indices first, in ascending
    order: a key made of digits may be one. Such values are left out. *)
Definition all_digits (s : string) : bool :=
  negb (s =? EmptyString)%string
  && forallb (fun c => ((48 <=? nat_of_ascii c) && (nat_of_ascii c <=? 57))%nat)
       (list_ascii_of_string s).

Fixpoint distinct (keys : list string) : bool :=
  match keys with
  | [] => true
  | k :: rest => negb (existsb (String.eqb k) rest) && distinct rest
  end.

Fixpoint plain (v : json) : bool :=
  match v with
  | JNull | JBool _ | JString _ => true
  | JNumber n => (Z.abs n <? 2 ^ 53)%Z
  | JArray items => forallb plain items
  | JObject props =>
      forallb (fun kv => negb (all_digits (fst kv)) && plain (snd kv)) props
      && distinct (map fst props)
  end.

End Json.

Import Json.

(* ================================================================== *)
(** * The wire codec: [formatSSEMessage] and [createSSEParser] *)
(* ================================================================== *)

Module Codec.

(** [SSEMessage<T>]: every field but [data] is optional. [retry] is a number
    of milliseconds. *)
Record SSEMessage : Type := mkSSEMessage {
  id : option string;
  event : option string;
  data : json;
  retry : option Z
}.

(** [lines.push(line)] *)
Definition push (lines : list string) (line : string) : list string :=
  (lines ++ [line])%list.

(** [formatSSEMessage(message)] *)
Definition formatSSEMessage (message : SSEMessage) : string :=
  let lines : list string := [] in
  let lines :=
    match id message with
    | Some i => push lines ("id: " ++ i)
    | None => lines
    end in
  let lines :=
    match retry message with
    | Some r => push lines ("retry: " ++ show_int r)
    | None => lines
    end in
  let lines :=
    match event message with
    | Some e => push lines ("event: " ++ e)
    | None => lines
    end in
  let lines := push lines ("data: " ++ stringify (data message)) in
  join NL lines ++ NLNL.

(** What the parser calls. Every call of [JSON.parse] ends in exactly one of
    the two: [onMessage] with the value, or [onError] with the first 120
    characters of the text that did not parse. *)
Inductive callback : Type :=
| onMessage (data : json)
| onError (rawLine : string).

(** The body of the loop over the lines of one message. *)
Definition parse_line (line : string) : list callback :=
  if startsWith ":" line then []
  else if startsWith "data: " line then
    let payload := slice_from 6 line in
    match Json.parse payload with
    | Some data => [onMessage data]
    | None => [onError (slice_to 120 payload)]
    end
  else [].

(** The body of the loop over the messages. *)
Definition parse_message (message : string) : list callback :=
  let trimmed := trim message in
  match trimmed with
  | EmptyString => []
  | String _ _ => flat_map parse_line (split NL trimmed)
  end.

(** One call of the function [createSSEParser] returns, on the closure's
    [buffer]: the new buffer and the callbacks made, in order. *)
Definition parse (buffer chunk : string) : string * list callback :=
  let buffer := buffer ++ chunk in
  let messages := split NLNL buffer in
  (last messages EmptyString, flat_map parse_message (removelast messages)).

(** A parser fed a sequence of chunks, from the buffer it holds. *)
Fixpoint feed (buffer : string) (chunks : list string) : string * list callback :=
  match chunks with
  | [] => (buffer, [])
  | chunk :: rest =>
      let (buffer1, calls1) := parse buffer chunk in
      let (buffer2, calls2) := feed buffer1 rest in
      (buffer2, (calls1 ++ calls2)%list)
  end.

(** A fresh parser ([let buffer = '']) fed a sequence of chunks. *)
Definition createSSEParser (chunks : list string) : string * list callback :=
  feed EmptyString chunks.

(** The [onMessage] payloads among the callbacks. *)
Fixpoint messages_of (calls : list callback) : list json :=
  match calls with
  | [] => []
  | onMessage d :: rest => d :: messages_of rest
  | onError _ :: rest => messages_of rest
  end.

End Codec.

Import Codec.

(* ================================================================== *)
(** * JavaScript errors and thrown values *)
(* ================================================================== *)

Module Js.

(** An [Error] object, as far as the sources look at it: its [name], its
    [message], and the fields a subclass adds. *)
Record Error : Type := mkError {
  name : string;
  message : string;
  fields : list (string * json)
}.

(** [new Error(message)] *)
Definition new_Error (message : string) : Error := mkError "Error" message [].

(** What a [throw] or a rejected promise carries. *)
Inductive thrown : Type :=
| error (e : Error)      (* [instanceof Error] holds *)
| not_error (v : json).  (* any other value: a string, a number, a plain object *)

(** [error instanceof Error] *)
Definition instanceof_Error (t : thrown) : bool :=
  match t with
  | error _ => true
  | not_error _ => false
  end.

(** [String(v)] for a value that is not an [Error]. *)
Fixpoint String_of (v : json) : string :=
  match v with
  | JNull => "null"
  | JBool true => "true"
  | JBool false => "false"
  | JNumber n => show_int n
  | JString s => s
  | JArray items =>
      join "," (map (fun x => match x with JNull => EmptyString | _ => String_of x end) items)
  | JObject _ => "[object Object]"
  end.

(** How a promise settles. *)
Inductive settled (T : Type) : Type :=
| resolves (result : T)
| rejects (e : thrown).
Arguments resolves {T} result.
Arguments rejects {T} e.

End Js.

(* ================================================================== *)
(** * The circuit breaker: [createCircuitBreaker] *)
(* ================================================================== *)

Module Breaker.

Import Js.
Local Open Scope Z_scope.

(** [new CircuitOpenError(message, resetTimeoutMs, failures)]: an [Error]
    named CircuitOpenError with two fields of its own. *)
Definition CircuitOpenError (message : string) (resetTimeoutMs failures : Z) : Error :=
  mkError "CircuitOpenError" message
    [("resetTimeoutMs", JNumber resetTimeoutMs); ("failures", JNumber failures)].

Inductive CircuitState : Type := closed | open | half_open.

Definition state_eqb (a b : CircuitState) : bool :=
  match a, b with
  | closed, closed | open, open | half_open, half_open => true
  | _, _ => false
  end.

Record CircuitBreakerConfig : Type := mkConfig {
  failureThreshold : Z;
  resetTimeoutMs : Z;
  successThreshold : Z
}.

Definition DEFAULT_CIRCUIT_BREAKER_CONFIG : CircuitBreakerConfig :=
  mkConfig 3 30000 1.

(** The calls made to the hooks of [CircuitBreakerOptions]. *)
Inductive hook : Type :=
| onStateChange (from to : CircuitState)
| onFailure (e : thrown) (failures : Z)
| onSuccess.

(** The variables [createCircuitBreaker] closes over. [resetTimeout] is the
    pending timer, as the time it is due, and [None] when no call-back is
    pending. [calls] lists the hook calls made so far, oldest first. *)
Record Breaker : Type := mkBreaker {
  state : CircuitState;
  failures : Z;
  successes : Z;
  lastFailureTime : Z;
  resetTimeout : option Z;
  calls : list hook
}.

Definition initial : Breaker := mkBreaker closed 0 0 0 None [].

(** [execute] up to [await operation()], at time [now]: either the call is
    refused, or the operation is invoked. *)
Inductive started : Type :=
| refused (e : Error)
| invoked.

Section WithConfig.

Variable config : CircuitBreakerConfig.

(** [options.isFailure], when given. *)
Variable isFailure_option : option (thrown -> bool).

Definition setState (newState : CircuitState) (b : Breaker) : Breaker :=
  if state_eqb (state b) newState then b
  else mkBreaker newState (failures b) (successes b) (lastFailureTime b) (resetTimeout b)
         (calls b ++ [onStateChange (state b) newState]).

(** Called at time [now]: the pending timer, if any, is cleared and a new
    one is due [resetTimeoutMs] later. *)
Definition scheduleHalfOpen (now : Z) (b : Breaker) : Breaker :=
  mkBreaker (state b) (failures b) (successes b) (lastFailureTime b)
    (Some (now + resetTimeoutMs config)) (calls b).

(** The call-back of the timer: [setState('half_open'); successes = 0]. *)
Definition timer_fires (b : Breaker) : Breaker :=
  let b := setState half_open b in
  mkBreaker (state b) (failures b) 0 (lastFailureTime b) None (calls b).

(** [recordFailure(error)], with [now] for [Date.now()]. *)
Definition recordFailure (now : Z) (e : thrown) (b : Breaker) : Breaker :=
  let b := mkBreaker (state b) (failures b + 1) (successes b) now (resetTimeout b)
             (calls b ++ [onFailure e (failures b + 1)]) in
  if failureThreshold config <=? failures b
  then scheduleHalfOpen now (setState open b)
  else b.

Definition reset (b : Breaker) : Breaker :=
  setState closed (mkBreaker (state b) 0 0 0 None (calls b)).

Definition call_onSuccess (b : Breaker) : Breaker :=
  mkBreaker (state b) (failures b) (successes b) (lastFailureTime b) (resetTimeout b)
    (calls b ++ [onSuccess]).

Definition recordSuccess (b : Breaker) : Breaker :=
  match state b with
  | half_open =>
      let b := mkBreaker (state b) (failures b) (successes b + 1) (lastFailureTime b)
                 (resetTimeout b) (calls b) in
      if successThreshold config <=? successes b
      then call_onSuccess (reset b)
      else b
  | closed =>
      call_onSuccess
        (mkBreaker (state b) 0 (successes b) (lastFailureTime b) (resetTimeout b) (calls b))
  | open => b
  end.

(** [forceOpen()], called at time [now]. *)
Definition forceOpen (now : Z) (b : Breaker) : Breaker :=
  let b := mkBreaker (state b) (failureThreshold config) (successes b) (lastFailureTime b)
             (resetTimeout b) (calls b) in
  scheduleHalfOpen now (setState open b).

Definition canPass (b : Breaker) : bool :=
  match state b with
  | closed => true
  | open => false
  | half_open => true
  end.

Definition getState (b : Breaker) : CircuitState := state b.
Definition getFailures (b : Breaker) : Z := failures b.

(** [Math.ceil(ms / 1000)] *)
Definition ceil_seconds (ms : Z) : Z := - ((- ms) / 1000).

(** The error [execute] throws when the breaker does not pass the call. *)
Definition refusal (now : Z) (b : Breaker) : Error :=
  let timeSinceLastFailure := now - lastFailureTime b in
  let remainingTimeout := Z.max 0 (resetTimeoutMs config - timeSinceLastFailure) in
  CircuitOpenError
    ("Circuit breaker is open. Retry in " ++ show_int (ceil_seconds remainingTimeout) ++ "s")
    remainingTimeout
    (failures b).

(** [execute] up to [await operation()], at time [now]. *)
Definition execute_start (now : Z) (b : Breaker) : started :=
  if negb (canPass b) then refused (refusal now b) else invoked.

(** [execute] from the moment the promise of the invoked operation settles,
    at time [now], on the breaker as it is by then: the breaker afterwards
    and the settlement of the promise [execute] returned. *)
Definition execute_settle {T : Type} (now : Z) (outcome : settled T) (b : Breaker)
  : Breaker * settled T :=
  match outcome with
  | resolves result => (recordSuccess b, resolves result)
  | rejects e =>
      let isFailure := match isFailure_option with
                       | Some f => f
                       | None => fun _ => true
                       end in
      let b := if instanceof_Error e && isFailure e then recordFailure now e b else b in
      (b, rejects e)
  end.

(** [execute(operation)] when nothing else runs between the call of the
    operation at time [now] and its settlement at time [later]. The third
    component counts the invocations of the operation. *)
Definition execute {T : Type} (now later : Z) (outcome : settled T) (b : Breaker)
  : Breaker * settled T * nat :=
  match execute_start now b with
  | refused e => (b, rejects (error e), O)
  | invoked => let (b', r) := execute_settle later outcome b in (b', r, 1%nat)
  end.

(** A breaker after a run of recorded failures, each at its own time. *)
Fixpoint record_failures (fs : list (Z * thrown)) (b : Breaker) : Breaker :=
  match fs with
  | [] => b
  | (now, e) :: rest => record_failures rest (recordFailure now e b)
  end.

End WithConfig.

End Breaker.

(* ================================================================== *)
(** * Retry configuration and [calculateBackoffDelay] *)
(* ================================================================== *)

Module Backoff.

(** A number is an IEEE 754 double: a zero, an infinity, NaN, or the finite
    number [(-1)^s * m * 2^e]. *)
Definition number : Type := spec_float.
Definition prec : Z := 53.
Definition emax : Z := 1024.
Definition NaN : number := S754_nan.

(** [a * b], [a + b] and [a / b], rounded to the nearest double, ties to
    even. *)
Definition times : number -> number -> number := SFmul prec emax.
Definition plus : number -> number -> number := SFadd prec emax.
Definition divided : number -> number -> number := SFdiv prec emax.

(** The double of a whole number, exact below 2^53. *)
Definition of_Z (z : Z) : number := binary_normalize prec emax z 0 false.

(** [RetryConfig]. *)
Record RetryConfig : Type := mkRetryConfig {
  maxRetries : Z;
  initialDelayMs : number;
  maxDelayMs : number;
  backoffMultiplier : number;
  jitter : bool;
  jitterFactor : number
}.

(** The literal [0.3] is the double nearest to 3/10. *)
Definition DEFAULT_RETRY_CONFIG : RetryConfig :=
  mkRetryConfig 3 (of_Z 1000) (of_Z 30000) (of_Z 2) true (divided (of_Z 3) (of_Z 10)).

(** [Math.min(a, b)]: NaN when either is NaN, and of the two zeros the
    negative one. *)
Definition Math_min (a b : number) : number :=
  match SFcompare a b with
  | None => NaN
  | Some Lt => a
  | Some Gt => b
  | Some Eq =>
      match a with
      | S754_zero true => a
      | _ => b
      end
  end.

(** The double of the whole number [(-1)^s * z], for [z] below 2^53 in the
    form the doubles have it: a mantissa of 53 bits. *)
Definition whole (s : bool) (z : positive) : number :=
  let digits := Zpos (digits2_pos z) in
  if (digits <? prec)%Z
  then S754_finite s (z * 2 ^ Z.to_pos (prec - digits))%positive (digits - prec)
  else S754_finite s z 0.

(** [Math.floor(x)]: the largest whole number not above [x]; [x] itself when
    it is a zero, an infinity or NaN. *)
Definition Math_floor (x : number) : number :=
  match x with
  | S754_finite s m e =>
      if (0 <=? e)%Z then x
      else
        match ((if s then Zneg m else Zpos m) / Zpos (2 ^ Z.to_pos (- e)))%Z with
        | Z0 => S754_zero false
        | Zpos z => whole false z
        | Zneg z => whole true z
        end
  | _ => x
  end.

(** [calculateBackoffDelay(attempt, config)]. [Math_pow] is the [Math.pow]
    of the platform, whose result ECMAScript leaves to the implementation,
    and [random] is the value [Math.random()] returns. *)
Definition calculateBackoffDelay (Math_pow : number -> number -> number)
    (attempt : number) (config : RetryConfig) (random : number) : number :=
  let exponentialDelay :=
    times (initialDelayMs config) (Math_pow (backoffMultiplier config) attempt) in
  let cappedDelay := Math_min exponentialDelay (maxDelayMs config) in
  if jitter config then
    let jitterAmount := times (times cappedDelay (jitterFactor config)) random in
    Math_floor (plus cappedDelay jitterAmount)
  else cappedDelay.





(** A [Math.pow] for the examples: the power of a whole, non-negative
    exponent by repeated multiplication, NaN otherwise. *)
Definition whole_exponent (y : number) : option nat :=
  match y with
  | S754_zero _ => Some O
  | S754_finite false m e =>
      if (0 <=? e)%Z then Some (Z.to_nat (Zpos m * 2 ^ e))
      else if (Zpos m mod Zpos (2 ^ Z.to_pos (- e)) =? 0)%Z
           then Some (Z.to_nat (Zpos m / Zpos (2 ^ Z.to_pos (- e))))
           else None
  | _ => None
  end.

Fixpoint power (x : number) (n : nat) : number :=
  match n with
  | O => of_Z 1
  | S k => times x (power x k)
  end.

Definition pow_by_multiplication (x y : number) : number :=
  match whole_exponent y with
  | Some n => power x n
  | None => NaN
  end.

End Backoff.

(* ================================================================== *)
(** * The reconnection strategy: [withRetry] and [createReconnectionManager] *)
(* ================================================================== *)

Module Retry.

Import Js Backoff.
Local Open Scope Z_scope.

Definition NETWORK_ERROR_PATTERNS : list string :=
  [ "network"; "failed to fetch"; "load failed"; "err_network_changed"; "networkerror";
    "aborted"; "timeout"; "econnreset"; "econnrefused"; "enetunreach" ].

Definition isNetworkError (e : thrown) : bool :=
  match e with
  | not_error _ => false
  | error err =>
      let message := toLowerCase (message err) in
      existsb (fun pattern => includes pattern message) NETWORK_ERROR_PATTERNS
  end.

Definition isCancellationError (e : thrown) : bool :=
  match e with
  | not_error _ => false
  | error err =>
      let message := toLowerCase (message err) in
      includes "aborted" message || (name err =? "AbortError")%string
  end.

(** [error instanceof Error ? error : new Error(String(error))] *)
Definition as_Error (e : thrown) : Error :=
  match e with
  | error err => err
  | not_error v => new_Error (String_of v)
  end.

(** What the loops see of the world, by the number of the iteration (from
    0): how the promise of the operation settles, whether [signal.aborted]
    holds in the catch block, whether the sleep is cut short by the signal
    (already aborted when the sleep starts, or aborted during it), and what
    [Math.random()] returns; and the [Math.pow] of the platform. With no
    signal given the two answers about it are [false]. *)
Record World (T : Type) : Type := mkWorld {
  operation : Z -> settled T;
  signal_aborted : Z -> bool;
  sleep_aborted : Z -> bool;
  random : Z -> number;
  Math_pow : number -> number -> number
}.
Arguments mkWorld {T} operation signal_aborted sleep_aborted random Math_pow.
Arguments operation {T} w i.
Arguments signal_aborted {T} w i.
Arguments sleep_aborted {T} w i.
Arguments random {T} w i.
Arguments Math_pow {T} w base exponent.

(** What the loops do that can be seen from outside, in order. *)
Inductive effect : Type :=
| invoke_operation
| call_onRetry (attempt : Z) (delayMs : number) (e : Error)
| call_onReconnecting (attempt maxAttempts : Z) (delayMs : number) (e : option Error)
| call_onConnected
| call_onFailed (e : Error)
| sleep (ms : number).

(** [sleep(ms, signal)] rejects with [new Error('Aborted')] when cut short. *)
Definition Aborted : thrown := error (new_Error "Aborted").

Section WithRetry.

Context {T : Type}.
Variable config : RetryConfig.

(** [options.shouldRetry], when given. *)
Variable shouldRetry_option : option (thrown -> bool).
Variable world : World T.

Definition shouldRetryFn : thrown -> bool :=
  match shouldRetry_option with
  | Some f => f
  | None => isNetworkError
  end.

(** The [for] loop of [withRetry] from the test [attempt <= config.maxRetries]
    on; [remaining] is the number of values of [attempt] from the current
    one up to [maxRetries], so the test holds exactly when it is not zero. *)
Fixpoint withRetry_loop (remaining : nat) (attempt : Z) (lastError : option Error)
  : settled T * list effect :=
  match remaining with
  | O =>
      (rejects (error match lastError with
                      | Some e => e
                      | None => new_Error "Max retries exceeded"
                      end), [])
  | S remaining' =>
      match operation world attempt with
      | resolves result => (resolves result, [invoke_operation])
      | rejects e =>
          let lastError := as_Error e in
          if isCancellationError e || signal_aborted world attempt
          then (rejects e, [invoke_operation])
          else if negb (shouldRetryFn e) || (maxRetries config <=? attempt)
          then (rejects e, [invoke_operation])
          else
            let delay :=
              calculateBackoffDelay (Math_pow world) (of_Z attempt) config
                (random world attempt) in
            if sleep_aborted world attempt
            then (rejects Aborted,
                  [invoke_operation; call_onRetry (attempt + 1) delay lastError; sleep delay])
            else
              let (r, effects) := withRetry_loop remaining' (attempt + 1) (Some lastError) in
              (r, invoke_operation :: call_onRetry (attempt + 1) delay lastError
                    :: sleep delay :: effects)
      end
  end.

(** [withRetry(operation, options)] *)
Definition withRetry : settled T * list effect :=
  withRetry_loop (Z.to_nat (maxRetries config + 1)) 0 None.

(** [ReconnectionState] *)
Record ReconnectionState : Type := mkState {
  attempt : Z;
  maxAttempts : Z;
  nextDelayMs : number;
  lastError : option Error
}.

Definition reset : ReconnectionState :=
  mkState 0 (maxRetries config) (initialDelayMs config) None.

Definition shouldRetry (state : ReconnectionState) (e : thrown) : bool :=
  isNetworkError e && (attempt state <? maxRetries config).

(** The [while (true)] loop of the manager's [execute], iteration [i], with
    fuel for the iterations; [None] when the fuel runs out. *)
Fixpoint execute_loop (fuel : nat) (i : Z) (state : ReconnectionState)
  : option (settled T * ReconnectionState * list effect) :=
  match fuel with
  | O => None
  | S fuel' =>
      match operation world i with
      | resolves result => Some (resolves result, reset, [invoke_operation; call_onConnected])
      | rejects e =>
          let state := mkState (attempt state) (maxAttempts state) (nextDelayMs state)
                         (Some (as_Error e)) in
          if isCancellationError e || signal_aborted world i
          then Some (rejects e, state, [invoke_operation])
          else if negb (shouldRetry state e)
          then Some (rejects e, state, [invoke_operation; call_onFailed (as_Error e)])
          else
            (* waitForRetry *)
            let delay :=
              calculateBackoffDelay (Math_pow world) (of_Z (attempt state)) config
                (random world i) in
            let state := mkState (attempt state) (maxAttempts state) delay (lastError state) in
            let reconnecting :=
              call_onReconnecting (attempt state + 1) (maxRetries config) delay
                (lastError state) in
            if sleep_aborted world i
            then Some (rejects Aborted, state, [invoke_operation; reconnecting; sleep delay])
            else
              let state := mkState (attempt state + 1) (maxAttempts state)
                             (nextDelayMs state) (lastError state) in
              match execute_loop fuel' (i + 1) state with
              | Some (r, state', effects) =>
                  Some (r, state', invoke_operation :: reconnecting :: sleep delay :: effects)
              | None => None
              end
      end
  end.

(** The manager's [execute(operation, signal)]: [reset()], then the loop. No
    iteration retries once [state.attempt] has reached [maxRetries], so
    [maxRetries + 1] iterations are all there can be. *)
Definition execute : option (settled T * ReconnectionState * list effect) :=
  execute_loop (S (Z.to_nat (maxRetries config))) 0 reset.

End WithRetry.

End Retry.

(* ================================================================== *)
(** * The stream orchestrator: [StreamOrchestrator] *)
(* ================================================================== *)

Module Orchestrator.

Import Js.
Local Open Scope Z_scope.

(** The sink, a [ReadableStreamDefaultController<Uint8Array>]: [can_enqueue]
    holds while the stream is readable and no close was requested; both
    [enqueue] and [close] throw a TypeError when it does not hold. [chunks]
    lists what was enqueued, oldest first. *)
Record StreamController : Type := mkController {
  can_enqueue : bool;
  chunks : list (list ascii)
}.

Definition already_closed : Error :=
  mkError "TypeError" "Invalid state: Controller is already closed" [].

(** [controller.enqueue(chunk)] *)
Definition enqueue (chunk : list ascii) (c : StreamController) : StreamController + Error :=
  if can_enqueue c then inl (mkController true (chunks c ++ [chunk])) else inr already_closed.

(** [controller.close()] *)
Definition controller_close (c : StreamController) : StreamController + Error :=
  if can_enqueue c then inl (mkController false (chunks c)) else inr already_closed.

(** The consumer cancels the stream: the peer is gone. *)
Definition cancelled (c : StreamController) : StreamController :=
  mkController false (chunks c).

Record HeartbeatConfig : Type := mkHeartbeat {
  intervalMs : Z;
  enabled : bool;
  heartbeat_message : option string
}.

Definition DEFAULT_HEARTBEAT_CONFIG : HeartbeatConfig :=
  mkHeartbeat 5000 true (Some "heartbeat").

(** [StreamOrchestratorConfig] once merged with the defaults. [signal] is
    [Some aborted] when a signal was given, [aborted] telling whether it had
    fired when the orchestrator was made. *)
Record Config : Type := mkConfig {
  heartbeat : HeartbeatConfig;
  completePhase : string;
  errorPhase : string;
  signal : option bool
}.

Definition DEFAULT_CONFIG : Config :=
  mkConfig DEFAULT_HEARTBEAT_CONFIG "complete" "error" None.

(** An update object, as the list of its properties in order; [phase] is the
    value of the property of that name. *)
Definition Update : Type := list (string * json).

Fixpoint phase (update : Update) : option json :=
  match update with
  | [] => None
  | (k, v) :: rest => if (k =? "phase")%string then Some v else phase rest
  end.

(** The calls made to the observer and to the logger. *)
Inductive observed : Type :=
| onStreamStart
| onStreamEnd (durationMs : Z) (success : bool) (e : option Error)
| onUpdateSent (phase : option json) (bytesSent : nat)
| onHeartbeat
| onError (e : Error)
| onAbort (reason : string)
| logger (message : string).

(** The fields of a [StreamOrchestrator]. [heartbeatInterval] and
    [abortHandler] tell whether the interval is set and the listener
    attached. [calls] lists the calls made to the observer and the logger,
    oldest first. *)
Record StreamOrchestrator : Type := mkOrchestrator {
  controller : StreamController;
  isClosed : bool;
  isAborted : bool;
  heartbeatInterval : bool;
  startTime : Z;
  bytesSent : nat;
  lastError : option Error;
  abortHandler : bool;
  calls : list observed
}.

Definition set_controller (c : StreamController) (o : StreamOrchestrator) :=
  mkOrchestrator c (isClosed o) (isAborted o) (heartbeatInterval o) (startTime o)
    (bytesSent o) (lastError o) (abortHandler o) (calls o).
Definition set_isClosed (v : bool) (o : StreamOrchestrator) :=
  mkOrchestrator (controller o) v (isAborted o) (heartbeatInterval o) (startTime o)
    (bytesSent o) (lastError o) (abortHandler o) (calls o).
Definition set_isAborted (v : bool) (o : StreamOrchestrator) :=
  mkOrchestrator (controller o) (isClosed o) v (heartbeatInterval o) (startTime o)
    (bytesSent o) (lastError o) (abortHandler o) (calls o).
Definition set_heartbeatInterval (v : bool) (o : StreamOrchestrator) :=
  mkOrchestrator (controller o) (isClosed o) (isAborted o) v (startTime o)
    (bytesSent o) (lastError o) (abortHandler o) (calls o).
Definition set_bytesSent (v : nat) (o : StreamOrchestrator) :=
  mkOrchestrator (controller o) (isClosed o) (isAborted o) (heartbeatInterval o) (startTime o)
    v (lastError o) (abortHandler o) (calls o).
Definition set_lastError (v : option Error) (o : StreamOrchestrator) :=
  mkOrchestrator (controller o) (isClosed o) (isAborted o) (heartbeatInterval o) (startTime o)
    (bytesSent o) v (abortHandler o) (calls o).
Definition set_abortHandler (v : bool) (o : StreamOrchestrator) :=
  mkOrchestrator (controller o) (isClosed o) (isAborted o) (heartbeatInterval o) (startTime o)
    (bytesSent o) (lastError o) v (calls o).
Definition call (c : observed) (o : StreamOrchestrator) :=
  mkOrchestrator (controller o) (isClosed o) (isAborted o) (heartbeatInterval o) (startTime o)
    (bytesSent o) (lastError o) (abortHandler o) (calls o ++ [c]).

Section WithConfig.

Variable config : Config.

Definition stopHeartbeat (o : StreamOrchestrator) : StreamOrchestrator :=
  if heartbeatInterval o then set_heartbeatInterval false o else o.

Definition cleanupAbortListener (o : StreamOrchestrator) : StreamOrchestrator :=
  match signal config with
  | Some _ => if abortHandler o then set_abortHandler false o else o
  | None => o
  end.

(** [handleAbort(reason)], with [now] for [Date.now()]. *)
Definition handleAbort (reason : string) (now : Z) (o : StreamOrchestrator)
  : StreamOrchestrator :=
  if isClosed o then o
  else
    let o := set_isAborted true o in
    let o := set_lastError (Some (new_Error reason)) o in
    let o := stopHeartbeat o in
    let o := set_isClosed true o in
    let o := call (onAbort reason) o in
    let durationMs := now - startTime o in
    let o := call (onStreamEnd durationMs false (lastError o)) o in
    let o := match controller_close (controller o) with
             | inl c => set_controller c o
             | inr _ => o
             end in
    cleanupAbortListener o.

(** [new StreamOrchestrator(controller, config)], at time [now]. *)
Definition new (c : StreamController) (now : Z) : StreamOrchestrator :=
  let o := mkOrchestrator c false false false now 0 None false [] in
  let o := match signal config with
           | Some true => handleAbort "Stream aborted" now o
           | Some false => set_abortHandler true o
           | None => o
           end in
  call onStreamStart o.

(** The listener of the signal, when the signal fires at time [now]. *)
Definition signal_fires (now : Z) (o : StreamOrchestrator) : StreamOrchestrator :=
  if abortHandler o then handleAbort "Stream aborted" now o else o.

Definition show_phase (update : Update) : string :=
  match phase update with
  | Some v => String_of v
  | None => "undefined"
  end.

(** [sendUpdate(update)] *)
Definition sendUpdate (update : Update) (o : StreamOrchestrator) : StreamOrchestrator :=
  if isClosed o
  then call (logger ("[stream-orchestrator] Stream closed, skipping update: "
                     ++ show_phase update)) o
  else
    let data := "data: " ++ stringify (JObject update) ++ NLNL in
    let encoded := encode data in
    match enqueue encoded (controller o) with
    | inl c =>
        let o := set_controller c o in
        let o := set_bytesSent (bytesSent o + List.length encoded) o in
        call (onUpdateSent (phase update) (List.length encoded)) o
    | inr e =>
        let o := set_isClosed true o in
        let o := set_lastError (Some e) o in
        let o := call (onError e) o in
        if includes "Controller is already closed" (message e)
        then call (logger ("[stream-orchestrator] Stream closed by client, skipping update: "
                           ++ show_phase update)) o
        else call (logger "[stream-orchestrator] Unexpected stream error:") o
    end.

Definition optional (key : string) (value : option string) : Update :=
  match value with
  | Some s => [(key, JString s)]
  | None => []
  end.

(** [sendProgress(phase, message?)] *)
Definition sendProgress (p : string) (message : option string) :=
  sendUpdate ((("phase", JString p) :: optional "message" message)%list).

(** [sendResult(result)] *)
Definition sendResult (result : json) :=
  sendUpdate [("phase", JString (completePhase config)); ("result", result)].

(** [sendError(error, extra?)]; a property of [extra] named phase or error
    takes the place and keeps the position of the one before it, as object
    spread does. *)
Fixpoint assign (o : Update) (k : string) (v : json) : Update :=
  match o with
  | [] => [(k, v)]
  | (k', v') :: rest =>
      if (k' =? k)%string then (k', v) :: rest else (k', v') :: assign rest k v
  end.

Definition sendError (e : string) (extra : Update) :=
  sendUpdate
    (fold_left (fun o kv => assign o (fst kv) (snd kv)) extra
       [("phase", JString (errorPhase config)); ("error", JString e)]).

(** [sendWithMetadata(phase, metadata, message?)] *)
Definition sendWithMetadata (p : string) (metadata : Update) (message : option string) :=
  sendUpdate
    ((("phase", JString p) :: optional "message" message ++ [("metadata", JObject metadata)])%list).

(** [sendEvent(eventType, data)] *)
Definition sendEvent (eventType : string) (data : json) (o : StreamOrchestrator)
  : StreamOrchestrator :=
  if isClosed o then o
  else
    let payload := "event: " ++ eventType ++ NL ++ "data: " ++ stringify data ++ NLNL in
    match enqueue (encode payload) (controller o) with
    | inl c => set_controller c o
    | inr e =>
        let o := set_isClosed true o in
        call (logger "[stream-orchestrator] Error sending event:") o
    end.

(** [startHeartbeat()] *)
Definition startHeartbeat (o : StreamOrchestrator) : StreamOrchestrator :=
  if negb (enabled (heartbeat config)) || heartbeatInterval o then o
  else set_heartbeatInterval true o.

(** The call-back of the interval, run only while the interval is set. *)
Definition heartbeat_tick (o : StreamOrchestrator) : StreamOrchestrator :=
  if negb (heartbeatInterval o) then o
  else if isClosed o then stopHeartbeat o
  else
    let message := match heartbeat_message (heartbeat config) with
                   | Some m => m
                   | None => "heartbeat"
                   end in
    let text := ": [" ++ message ++ "]" ++ NLNL in
    let encoded := encode text in
    match enqueue encoded (controller o) with
    | inl c =>
        let o := set_controller c o in
        let o := set_bytesSent (bytesSent o + List.length encoded) o in
        call onHeartbeat o
    | inr e =>
        let o := set_isClosed true o in
        let o := stopHeartbeat o in
        let o := set_lastError (Some e) o in
        let o := call (onError e) o in
        if negb (includes "Controller is already closed" (Js.message e))
        then call (logger "[stream-orchestrator:heartbeat] Unexpected error:") o
        else o
    end.

(** [close()], with [now] for [Date.now()]. *)
Definition close (now : Z) (o : StreamOrchestrator) : StreamOrchestrator :=
  if negb (isClosed o) then
    let o := stopHeartbeat o in
    let o := cleanupAbortListener o in
    match controller_close (controller o) with
    | inl c =>
        let o := set_controller c o in
        let o := set_isClosed true o in
        let durationMs := now - startTime o in
        let success := match lastError o with None => true | Some _ => false end in
        call (onStreamEnd durationMs success (lastError o)) o
    | inr e => call (logger "[stream-orchestrator] Error closing stream:") o
    end
  else o.

(** [abort(reason?)] *)
Definition abort (reason : option string) (now : Z) (o : StreamOrchestrator)
  : StreamOrchestrator :=
  handleAbort (match reason with Some r => r | None => "Stream aborted" end) now o.

(** The peer goes away: the consumer cancels the stream under the
    orchestrator. *)
Definition peer_cancels (o : StreamOrchestrator) : StreamOrchestrator :=
  set_controller (cancelled (controller o)) o.

Record Metrics : Type := mkMetrics {
  durationMs : Z;
  metrics_bytesSent : nat;
  closed : bool;
  aborted : bool
}.

(** [getMetrics()] *)
Definition getMetrics (now : Z) (o : StreamOrchestrator) : Metrics :=
  mkMetrics (now - startTime o) (bytesSent o) (isClosed o) (isAborted o).

End WithConfig.

End Orchestrator.

(* ================================================================== *)
(** * The emit helpers of the server: [sseStart], [sseDelta], ... *)
(* ================================================================== *)

Module Helpers.

Import Js.

(** [SSEMessageOptions] *)
Record SSEMessageOptions : Type := mkOptions {
  opt_id : option string;
  opt_retry : option Z
}.

(** [options] left out. *)
Definition no_options : SSEMessageOptions := mkOptions None None.

(** [{ ...o, ...extra }]: a property of [extra] takes the place, and keeps
    the position, of the property of [o] of the same name; a new one goes to
    the end. *)
Definition spread (o extra : list (string * json)) : list (string * json) :=
  fold_left (fun o kv => Orchestrator.assign o (fst kv) (snd kv)) extra o.

(** [ctrl.enqueue(enc.encode(text))]: the controller afterwards, or the
    TypeError a controller that cannot take a chunk throws. *)
Definition emit (text : string) (ctrl : Orchestrator.StreamController)
  : Orchestrator.StreamController + Error :=
  Orchestrator.enqueue (encode text) ctrl.

(** The text of [formatSSEMessage({ event, data, ...options })]. *)
Definition frame (event : option string) (data : json) (options : SSEMessageOptions)
  : string :=
  formatSSEMessage (mkSSEMessage (opt_id options) event data (opt_retry options)).

(** [sseStart(ctrl, enc, metadata?, options?)] *)
Definition start_text (metadata : option (list (string * json)))
  (options : SSEMessageOptions) : string :=
  let data := match metadata with Some m => JObject m | None => JObject [] end in
  frame (Some "start") data options.
Definition sseStart metadata options := emit (start_text metadata options).

(** [sseDelta(ctrl, enc, text, options?)] *)
Definition delta_text (text : string) (options : SSEMessageOptions) : string :=
  frame (Some "delta") (JObject [("text", JString text)]) options.
Definition sseDelta text options := emit (delta_text text options).

(** [sseDone(ctrl, enc, payload, options?)] *)
Definition done_text (payload : json) (options : SSEMessageOptions) : string :=
  frame (Some "done") payload options.
Definition sseDone payload options := emit (done_text payload options).

(** [sseError(ctrl, enc, error, extra?, options?)]; [error] is the message of
    the [Error], or the string, that is passed. *)
Definition error_payload (error : string) (extra : list (string * json)) : json :=
  JObject (spread [("error", JString error)] extra).
Definition error_text (error : string) (extra : list (string * json))
  (options : SSEMessageOptions) : string :=
  frame (Some "error") (error_payload error extra) options.
Definition sseError error extra options := emit (error_text error extra options).

(** [sseProgress(ctrl, enc, phase, message?, options?)] *)
Definition progress_payload (phase : string) (message : option string) : json :=
  JObject (("phase", JString phase)
           :: match message with Some m => [("message", JString m)] | None => [] end).
Definition progress_text (phase : string) (message : option string)
  (options : SSEMessageOptions) : string :=
  frame (Some "progress") (progress_payload phase message) options.
Definition sseProgress phase message options := emit (progress_text phase message options).

(** [sseHeartbeat(ctrl, enc, message = 'heartbeat')] *)
Definition heartbeat_text (message : option string) : string :=
  ": [" ++ match message with Some m => m | None => "heartbeat" end ++ "]" ++ NLNL.
Definition sseHeartbeat message := emit (heartbeat_text message).

(** [sseData(ctrl, enc, data, options?)] *)
Definition data_text (data : json) (options : SSEMessageOptions) : string :=
  frame None data options.
Definition sseData data options := emit (data_text data options).

(** [sseEvent(ctrl, enc, eventType, data, options?)] *)
Definition event_text (eventType : string) (data : json) (options : SSEMessageOptions)
  : string :=
  frame (Some eventType) data options.
Definition sseEvent eventType data options := emit (event_text eventType data options).

(** [sseRetry(ctrl, enc, retryMs)] *)
Definition retry_text (retryMs : Z) : string := "retry: " ++ show_int retryMs ++ NLNL.
Definition sseRetry retryMs := emit (retry_text retryMs).

(** [new TextDecoder().decode(bytes)] on what [encode] writes: one byte
    below 128, and the two-byte forms of the code units 128-255. Any other
    byte is outside this model and is kept as it is. *)
Fixpoint decode (bytes : list ascii) : string :=
  match bytes with
  | [] => EmptyString
  | b :: rest =>
      let n := nat_of_ascii b in
      if ((n =? 194) || (n =? 195))%nat then
        match rest with
        | b2 :: rest2 =>
            let m := nat_of_ascii b2 in
            if ((128 <=? m) && (m <? 192))%nat
            then String (ascii_of_nat ((n - 192) * 64 + (m - 128))) (decode rest2)
            else String b (decode rest)
        | [] => String b EmptyString
        end
      else String b (decode rest)
  end.

End Helpers.

(* ================================================================== *)
(** * The typed stream parser of the client: [parseSSEStream] *)
(* ================================================================== *)

Module StreamParser.

Import Js.

(** Reading a property of a parsed value: reading from [null] throws a
    TypeError; a value that is not an object has none of the properties the
    parser reads; of two properties of one name [JSON.parse] keeps the last. *)
Inductive read : Type :=
| type_error
| undefined
| defined (v : json).

Fixpoint last_prop (k : string) (props : list (string * json)) : option json :=
  match props with
  | [] => None
  | (k', v) :: rest =>
      match last_prop k rest with
      | Some x => Some x
      | None => if (k' =? k)%string then Some v else None
      end
  end.

Definition get (k : string) (v : json) : read :=
  match v with
  | JNull => type_error
  | JObject props =>
      match last_prop k props with
      | Some x => defined x
      | None => undefined
      end
  | _ => undefined
  end.

(** Whether a value counts as true in a condition. *)
Definition truthy (v : json) : bool :=
  match v with
  | JNull => false
  | JBool b => b
  | JNumber n => negb (n =? 0)%Z
  | JString s => negb (s =? EmptyString)%string
  | JArray _ | JObject _ => true
  end.

(** The calls made to the handlers of [SSEEventHandlers]. *)
Inductive handler_call : Type :=
| onStart (data : json)
| onDelta (text : json)
| onDone (data : json)
| onError (error : json)
| onProgress (phase : json) (message : option json).

Definition own (k : string) (payload : json) : list (string * json) :=
  match get k payload with
  | defined v => [(k, v)]
  | _ => []
  end.

(** [new SSEStreamError(message, payload)] *)
Definition SSEStreamError (message : json) (payload : json) : Error :=
  mkError "SSEStreamError" (String_of message)
    (("payload", payload) :: own "code" payload ++ own "retryable" payload)%list.

(** The variables of the read loop. [finalData] starts as [null]. *)
Record state : Type := mkState {
  buffer : string;
  currentEvent : string;
  finalData : json
}.

Definition initial : state := mkState EmptyString EmptyString JNull.

Definition set_event (e : string) (st : state) : state :=
  mkState (buffer st) e (finalData st).

(** The body of the loop over the lines: the state afterwards, the calls
    made, and the [SSEStreamError] thrown, if one is. A TypeError or a
    SyntaxError raised inside the [try] is caught and dropped, and leaves the
    state as it was. *)
Definition process_line (line : string) (st : state)
  : state * list handler_call * option Error :=
  if startsWith "event: " line then (set_event (trim (slice_from 7 line)) st, [], None)
  else if startsWith ":" line then (st, [], None)
  else if negb (startsWith "data: " line) then (st, [], None)
  else
    let data := slice_from 6 line in
    match trim data with
    | EmptyString => (st, [], None)
    | String _ _ =>
        match Json.parse data with
        | None => (st, [], None)
        | Some parsed =>
            if (currentEvent st =? "start")%string then
              (set_event EmptyString st, [onStart parsed], None)
            else if (currentEvent st =? "delta")%string then
              match get "text" parsed with
              | type_error => (st, [], None)
              | undefined => (set_event EmptyString st, [], None)
              | defined text =>
                  (set_event EmptyString st, if truthy text then [onDelta text] else [], None)
              end
            else if (currentEvent st =? "done")%string then
              (mkState (buffer st) EmptyString parsed, [onDone parsed], None)
            else if (currentEvent st =? "error")%string then
              match get "error" parsed with
              | type_error => (st, [], None)
              | r =>
                  let errorMessage :=
                    match r with
                    | defined v => if truthy v then v else JString "Unknown error"
                    | _ => JString "Unknown error"
                    end in
                  (st, [onError errorMessage], Some (SSEStreamError errorMessage parsed))
              end
            else
              match get "phase" parsed with
              | type_error => (st, [], None)
              | undefined => (set_event EmptyString st, [], None)
              | defined phase =>
                  (set_event EmptyString st,
                   if truthy phase
                   then [onProgress phase
                           match get "message" parsed with
                           | defined m => Some m
                           | _ => None
                           end]
                   else [],
                   None)
              end
        end
    end.

(** The loop over the lines of one read; it ends at the first throw. *)
Fixpoint process_lines (lines : list string) (st : state)
  : state * list handler_call * option Error :=
  match lines with
  | [] => (st, [], None)
  | line :: rest =>
      match process_line line st with
      | (st1, calls1, Some e) => (st1, calls1, Some e)
      | (st1, calls1, None) =>
          match process_lines rest st1 with
          | (st2, calls2, thrown) => (st2, (calls1 ++ calls2)%list, thrown)
          end
      end
  end.

(** One turn of the read loop, on the text of the chunk read. *)
Definition read_chunk (chunk : string) (st : state)
  : state * list handler_call * option Error :=
  let buffer := buffer st ++ chunk in
  let lines := split NL buffer in
  let st := mkState (last lines EmptyString) (currentEvent st) (finalData st) in
  process_lines (removelast lines) st.

(** The read loop over the chunks of the body, until the body is done or a
    throw ends it. *)
Fixpoint read_loop (chunks : list string) (st : state)
  : state * list handler_call * option Error :=
  match chunks with
  | [] => (st, [], None)
  | chunk :: rest =>
      match read_chunk chunk st with
      | (st1, calls1, Some e) => (st1, calls1, Some e)
      | (st1, calls1, None) =>
          match read_loop rest st1 with
          | (st2, calls2, thrown) => (st2, (calls1 ++ calls2)%list, thrown)
          end
      end
  end.

(** [parseSSEStream(response, handlers)] on a response whose body delivers
    [chunks]: the calls made to the handlers, and how the promise settles. *)
Definition parseSSEStream (chunks : list string) : list handler_call * settled json :=
  match read_loop chunks initial with
  | (st, calls, None) => (calls, resolves (finalData st))
  | (_, calls, Some e) => (calls, rejects (error e))
  end.

End StreamParser.

(* ================================================================== *)
(** * The registry of shared circuit breakers *)
(* ================================================================== *)

Module Registry.

Import Breaker.
Local Open Scope Z_scope.

Definition DEFAULT_BREAKER_TTL_MS : Z := 5 * 60 * 1000.

(** A breaker object: the configuration it was made with and its variables.
    The objects made so far are kept in a list; a breaker is known to its
    holders by its position there, which stands for the identity of the
    object. *)
Definition breaker_object : Type := (CircuitBreakerConfig * Breaker)%type.

(** [BreakerEntry]; [cleanupTimeout] is the time the pending timer is due. *)
Record BreakerEntry : Type := mkEntry {
  breaker : nat;
  lastAccess : Z;
  cleanupTimeout : option Z
}.

(** The [Map] of the module, in insertion order. *)
Definition Map : Type := list (string * BreakerEntry).

Fixpoint Map_get (name : string) (m : Map) : option BreakerEntry :=
  match m with
  | [] => None
  | (k, e) :: rest => if (k =? name)%string then Some e else Map_get name rest
  end.

Fixpoint Map_set (name : string) (e : BreakerEntry) (m : Map) : Map :=
  match m with
  | [] => [(name, e)]
  | (k, e') :: rest =>
      if (k =? name)%string then (k, e) :: rest else (k, e') :: Map_set name e rest
  end.

Fixpoint Map_delete (name : string) (m : Map) : Map :=
  match m with
  | [] => []
  | (k, e) :: rest =>
      if (k =? name)%string then rest else (k, e) :: Map_delete name rest
  end.

Record registry : Type := mkRegistry {
  objects : list breaker_object;
  globalBreakers : Map
}.

Definition empty : registry := mkRegistry [] [].

(** [scheduleCleanup(name, ttlMs)], called at time [now]. *)
Definition scheduleCleanup (ttlMs now : Z) : option Z := Some (now + ttlMs).

(** [getSharedCircuitBreaker(name, options)], called at time [now]:
    [options] as the configuration [createCircuitBreaker] would make of
    them, [ttlMs] as given or not. The breaker returned, and the registry
    afterwards. *)
Definition getSharedCircuitBreaker (name : string) (options : CircuitBreakerConfig)
  (ttlMs : option Z) (now : Z) (r : registry) : nat * registry :=
  let ttlMs := match ttlMs with Some t => t | None => DEFAULT_BREAKER_TTL_MS end in
  match Map_get name (globalBreakers r) with
  | Some entry =>
      (breaker entry,
       mkRegistry (objects r)
         (Map_set name (mkEntry (breaker entry) now (scheduleCleanup ttlMs now))
            (globalBreakers r)))
  | None =>
      let b := List.length (objects r) in
      (b,
       mkRegistry (objects r ++ [(options, initial)])
         (Map_set name (mkEntry b now (scheduleCleanup ttlMs now)) (globalBreakers r)))
  end.

(** The call-back of the cleanup timer of [name], run at time [now]: it
    runs only while the timer is pending, and not before it is due. *)
Definition cleanup_fires (name : string) (now : Z) (r : registry) : registry :=
  match Map_get name (globalBreakers r) with
  | Some entry =>
      match cleanupTimeout entry with
      | Some due =>
          if due <=? now then mkRegistry (objects r) (Map_delete name (globalBreakers r))
          else r
      | None => r
      end
  | None => r
  end.

(** An operation of a holder on the breaker it holds. *)
Fixpoint on_object (b : nat) (f : Breaker -> Breaker) (os : list breaker_object)
  : list breaker_object :=
  match os, b with
  | [], _ => []
  | (c, x) :: rest, O => (c, f x) :: rest
  | o :: rest, S b' => o :: on_object b' f rest
  end.

(** [resetSharedCircuitBreaker(name)] *)
Definition resetSharedCircuitBreaker (name : string) (r : registry) : registry :=
  match Map_get name (globalBreakers r) with
  | Some entry => mkRegistry (on_object (breaker entry) reset (objects r)) (globalBreakers r)
  | None => r
  end.

(** [removeSharedCircuitBreaker(name)] *)
Definition removeSharedCircuitBreaker (name : string) (r : registry) : registry :=
  mkRegistry (objects r) (Map_delete name (globalBreakers r)).

(** [getSharedCircuitBreakerCount()] *)
Definition getSharedCircuitBreakerCount (r : registry) : nat :=
  List.length (globalBreakers r).

(** [clearAllSharedCircuitBreakers()] *)
Definition clearAllSharedCircuitBreakers (r : registry) : registry :=
  mkRegistry (objects r) [].

End Registry.

(* ================================================================== *)
(** * The timeout error *)
(* ================================================================== *)

Module Timeout.

Import Js.

Inductive TimeoutType : Type := request | idle.

Definition show_type (type : TimeoutType) : string :=
  match type with
  | request => "request"
  | idle => "idle"
  end.

(** [new TimeoutError(type, timeoutMs)], for a whole number of milliseconds. *)
Definition TimeoutError (type : TimeoutType) (timeoutMs : Z) : Error :=
  let message :=
    match type with
    | request => "Request timeout after " ++ show_int timeoutMs ++ "ms"
    | idle => "Idle timeout: no data received for " ++ show_int timeoutMs ++ "ms"
    end in
  mkError "TimeoutError" message
    [("type", JString (show_type type)); ("timeoutMs", JNumber timeoutMs)].

End Timeout.

(* ================================================================== *)
(** * JavaScript strings as sequences of UTF-16 code units *)
(* ================================================================== *)

Module Utf16.

Local Open Scope list_scope.

(** A code unit is a number below 65536; a string is the list of its code
    units, whatever they are. *)
Definition code_unit : Type := N.
Abbreviation text := (list code_unit).

(** The string of an ASCII literal of the sources. *)
Definition lit (s : string) : text := map N_of_ascii (list_ascii_of_string s).

Definition LF : code_unit := 10%N.

(** ["\n"] and ["\n\n"]. *)
Definition NL : text := [LF].
Definition NLNL : text := [LF; LF].

(** [s.startsWith(p)] *)
Fixpoint startsWith (p s : text) : bool :=
  match p, s with
  | [], _ => true
  | _ :: _, [] => false
  | a :: p', b :: s' => (a =? b)%N && startsWith p' s'
  end.

(** [s.slice(n)] and [s.slice(0, n)] for [0 <= n]. *)
Definition slice_from (n : nat) (s : text) : text := skipn n s.
Definition slice_to (n : nat) (s : text) : text := firstn n s.

(** [s.includes(needle)] *)
Fixpoint includes (needle s : text) : bool :=
  startsWith needle s ||
  match s with
  | [] => false
  | _ :: r => includes needle r
  end.

(** The white space and the line terminators of ECMAScript, which [trim]
    removes: TAB, LF, VT, FF, CR, SPACE, NBSP, U+1680, U+2000 to U+200A,
    U+2028, U+2029, U+202F, U+205F, U+3000 and U+FEFF. *)
Definition is_space (c : code_unit) : bool :=
  ((9 <=? c) && (c <=? 13) || (c =? 32) || (c =? 160) || (c =? 5760)
   || (8192 <=? c) && (c <=? 8202) || (c =? 8232) || (c =? 8233)
   || (c =? 8239) || (c =? 8287) || (c =? 12288) || (c =? 65279))%N.

Fixpoint trimStart (s : text) : text :=
  match s with
  | [] => []
  | c :: r => if is_space c then trimStart r else s
  end.

Fixpoint trimEnd (s : text) : text :=
  match s with
  | [] => []
  | c :: r =>
      match trimEnd r with
      | [] => if is_space c then [] else [c]
      | (_ :: _) as r' => c :: r'
      end
  end.

(** [s.trim()] *)
Definition trim (s : text) : text := trimEnd (trimStart s).

(** The first occurrence of [sep] in [s]: the text before it and the text
    after it. *)
Fixpoint cut (sep s : text) : option (text * text) :=
  if startsWith sep s then Some ([], slice_from (List.length sep) s)
  else match s with
       | [] => None
       | c :: r =>
           match cut sep r with
           | Some (b, a) => Some (c :: b, a)
           | None => None
           end
       end.

Fixpoint split_fuel (fuel : nat) (sep s : text) : list text :=
  match fuel with
  | O => [s]
  | S f =>
      match cut sep s with
      | None => [s]
      | Some (b, a) => b :: split_fuel f sep a
      end
  end.

(** [s.split(sep)] for a non-empty separator: the pieces between the
    successive occurrences of [sep], found left to right. Each cut removes at
    least one code unit, so the length of [s] is fuel enough. *)
Definition split (sep s : text) : list text :=
  split_fuel (List.length s) sep s.

(** [lines.join(sep)] *)
Fixpoint join (sep : text) (ls : list text) : text :=
  match ls with
  | [] => []
  | [l] => l
  | l :: (_ :: _) as rest => l ++ sep ++ join sep rest
  end.

(** No line feed anywhere in [s]: [!s.includes("\n")]. *)
Fixpoint lf_free (s : text) : bool :=
  match s with
  | [] => true
  | c :: r => negb (c =? LF)%N && lf_free r
  end.

(** [s] is not empty and its last code unit is not white space. *)
Fixpoint last_solid (s : text) : bool :=
  match s with
  | [] => false
  | [c] => negb (is_space c)
  | _ :: (_ :: _) as r => last_solid r
  end.

(** A line that is not empty, starts with a code unit [trim] keeps, and
    holds no line feed. *)
Definition good_line (l : text) : Prop :=
  exists c r, l = c :: r /\ is_space c = false /\ lf_free l = true.

(** A string of code units below 256, as a list of code units and back. *)
Definition widen (s : string) : text := lit s.

Fixpoint narrow (t : text) : option string :=
  match t with
  | [] => Some EmptyString
  | c :: r =>
      if (c <? 256)%N
      then match narrow r with
           | Some s => Some (String (ascii_of_N c) s)
           | None => None
           end
      else None
  end.

End Utf16.

(* ================================================================== *)
(** * The wire codec over the JSON of the platform *)
(* ================================================================== *)

Module Wire.

Import Utf16.
Local Open Scope list_scope.

(** What a call [JSON.stringify(value)] does. *)
Inductive stringified : Type :=
| json_text (t : text)          (* it returns the JSON text of the value *)
| json_undefined                (* it returns [undefined]: the value is [undefined], a function, a symbol *)
| json_throws (e : Js.Error).   (* it throws a [TypeError]: a cycle, a BigInt *)

(** [SSEMessage<T>]: every field but [data] is optional; [retry] is a
    number. *)
Record SSEMessage (T number : Type) : Type := mkSSEMessage {
  id : option text;
  event : option text;
  data : T;
  retry : option number
}.
Arguments mkSSEMessage {T number} id event data retry.
Arguments id {T number} s.
Arguments event {T number} s.
Arguments data {T number} s.
Arguments retry {T number} s.

(** What the parser calls: [onMessage(data)] and [onError(error, rawLine)]. *)
Inductive callback (T : Type) : Type :=
| onMessage (data : T)
| onError (error : Js.Error) (rawLine : text).
Arguments onMessage {T} data.
Arguments onError {T} error rawLine.

(** The [onMessage] payloads among the callbacks. *)
Fixpoint messages_of {T : Type} (calls : list (callback T)) : list T :=
  match calls with
  | [] => []
  | onMessage d :: rest => d :: messages_of rest
  | onError _ _ :: rest => messages_of rest
  end.

(** What a server puts on the wire: a frame of [formatSSEMessage], a
    heartbeat comment of [sseHeartbeat], or a data line written by other
    means, whatever its payload. *)
Inductive wire_item (T number : Type) : Type :=
| data_frame (m : SSEMessage T number)
| heartbeat_frame (message : option text)
| data_line_frame (payload : text).
Arguments data_frame {T number} m.
Arguments heartbeat_frame {T number} message.
Arguments data_line_frame {T number} payload.

(** What the codec takes from the platform: the values a frame can carry,
    compared as data, not as references; the numbers; [JSON.stringify(value)];
    [JSON.parse(text)], which returns a value or throws a [SyntaxError]; and
    the text of a number in a template literal. *)
Class Platform : Type := {
  value : Type;
  number : Type;
  JSON_stringify : value -> stringified;
  JSON_parse : text -> value + Js.Error;
  Number_toString : number -> text
}.

Section WithPlatform.

Context {platform : Platform}.

(** How the [onMessage] given to the parser ends when called with a value:
    it returns ([None]) or it throws. *)
Variable onMessage_throws : value -> option Js.thrown.

(** [lines.push(line)] *)
Definition push (lines : list text) (line : text) : list text := lines ++ [line].

(** The lines [formatSSEMessage] joins, given the text the template literal
    of the data line holds after ["data: "]. *)
Definition lines_of (message : SSEMessage value number) (json_line : text) : list text :=
  let lines : list text := [] in
  let lines :=
    match id message with
    | Some i => push lines (lit "id: " ++ i)
    | None => lines
    end in
  let lines :=
    match retry message with
    | Some r => push lines (lit "retry: " ++ Number_toString r)
    | None => lines
    end in
  let lines :=
    match event message with
    | Some e => push lines (lit "event: " ++ e)
    | None => lines
    end in
  push lines (lit "data: " ++ json_line).

(** [formatSSEMessage(message)]: the text, or the error [JSON.stringify]
    throws. *)
Definition formatSSEMessage (message : SSEMessage value number) : text + Js.Error :=
  match JSON_stringify (data message) with
  | json_text t => inl (join NL (lines_of message t) ++ NLNL)
  | json_undefined => inl (join NL (lines_of message (lit "undefined")) ++ NLNL)
  | json_throws e => inr e
  end.

(** [err instanceof Error ? err : new Error('JSON parse error')] *)
Definition caught (err : Js.thrown) : Js.Error :=
  match err with
  | Js.error e => e
  | Js.not_error _ => Js.new_Error "JSON parse error"
  end.

(** The body of the loop over the lines of one message. The [catch] block
    takes what [JSON.parse] throws and what [onMessage] throws alike; what
    [onError] does is its own business. *)
Definition parse_line (line : text) : list (callback value) :=
  if startsWith (lit ":") line then []
  else if startsWith (lit "data: ") line then
    let payload := slice_from 6 line in
    match JSON_parse payload with
    | inl data =>
        onMessage data ::
        match onMessage_throws data with
        | None => []
        | Some err => [onError (caught err) (slice_to 120 payload)]
        end
    | inr err => [onError err (slice_to 120 payload)]
    end
  else [].

(** The body of the loop over the messages. *)
Definition parse_message (message : text) : list (callback value) :=
  let trimmed := trim message in
  match trimmed with
  | [] => []
  | _ :: _ => flat_map parse_line (split NL trimmed)
  end.

(** One call of the function [createSSEParser] returns, on the closure's
    [buffer]: the new buffer and the callbacks made, in order. *)
Definition parse (buffer chunk : text) : text * list (callback value) :=
  let buffer := buffer ++ chunk in
  let messages := split NLNL buffer in
  (last messages [], flat_map parse_message (removelast messages)).

(** A parser fed a sequence of chunks, from the buffer it holds. *)
Fixpoint feed (buffer : text) (chunks : list text) : text * list (callback value) :=
  match chunks with
  | [] => (buffer, [])
  | chunk :: rest =>
      let (buffer1, calls1) := parse buffer chunk in
      let (buffer2, calls2) := feed buffer1 rest in
      (buffer2, calls1 ++ calls2)
  end.

(** A fresh parser ([let buffer = '']) fed a sequence of chunks. *)
Definition createSSEParser (chunks : list text) : text * list (callback value) :=
  feed [] chunks.

(** [sseHeartbeat(ctrl, enc, message = 'heartbeat')]: the text it encodes. *)
Definition heartbeat_text (message : option text) : text :=
  lit ": [" ++ match message with Some m => m | None => lit "heartbeat" end
  ++ lit "]" ++ NLNL.

End WithPlatform.

(** The JSON of the embedding as a platform: its values are the JSON values
    built from integers and from strings of code units below 256, and the
    numbers are the integers. *)
Definition SyntaxError : Js.Error := Js.mkError "SyntaxError" "Unexpected token" [].

Definition small_platform : Platform := {|
  value := json;
  number := Z;
  JSON_stringify v := json_text (widen (stringify v));
  JSON_parse t :=
    match narrow t with
    | Some s =>
        match Json.parse s with
        | Some v => inl v
        | None => inr SyntaxError
        end
    | None => inr SyntaxError
    end;
  Number_toString z := widen (show_int z)
|}.

End Wire.

(* ================================================================== *)
(** * The primitives at work *)
(* ================================================================== *)

Example stringify_ex1 :
  stringify (JObject [("phase", JString "test"); ("n", JArray [JNumber 1; JNumber (-20); JNull])])
  = "{" ++ quote "phase" ++ ":" ++ quote "test" ++ "," ++ quote "n" ++ ":[1,-20,null]}".
Proof. reflexivity. Qed.

Example parse_ex1 :
  Json.parse (stringify (JObject [("a b", JString ("x" ++ NL ++ str1 DQUOTE)); ("n", JArray [JNumber 1; JBool true; JArray []])]))
  = Some (JObject [("a b", JString ("x" ++ NL ++ str1 DQUOTE)); ("n", JArray [JNumber 1; JBool true; JArray []])]).
Proof. reflexivity. Qed.

Example parse_ex2 : Json.parse " [ 1 , 02 ]" = None.
Proof. reflexivity. Qed.

Example parse_ex3 : Json.parse " { } " = Some (JObject []).
Proof. reflexivity. Qed.

Example format_ex1 :
  formatSSEMessage (mkSSEMessage (Some "42") (Some "delta") (JObject [("text", JString "Hello")]) (Some 3000%Z))
  = "id: 42" ++ NL ++ "retry: 3000" ++ NL ++ "event: delta" ++ NL
    ++ "data: {" ++ quote "text" ++ ":" ++ quote "Hello" ++ "}" ++ NLNL.
Proof. reflexivity. Qed.

Example parser_ex1 :
  createSSEParser [formatSSEMessage (mkSSEMessage (Some "42") (Some "delta") (JObject [("text", JString "Hello")]) (Some 3000%Z))]
  = (EmptyString, [onMessage (JObject [("text", JString "Hello")])]).
Proof. vm_compute. reflexivity. Qed.

Example parser_ex2 :
  createSSEParser ["data: {" ++ quote "a" ++ ":1"; "}" ++ NL; NL ++ ": [heartbeat]" ++ NLNL ++ "data: oops" ++ NLNL ++ "da"]
  = ("da", [onMessage (JObject [("a", JNumber 1)]); onError "oops"]).
Proof. vm_compute. reflexivity. Qed.

Example parser_ex3 :
  createSSEParser [formatSSEMessage (mkSSEMessage (Some ("x" ++ NL ++ "data: 1")) None JNull None)]
  = (EmptyString, [onMessage (JNumber 1); onMessage JNull]).
Proof. vm_compute. reflexivity. Qed.

(* ================================================================== *)
(** * Facts about the string primitives *)
(* ================================================================== *)

Section StringFacts.

Lemma append_nil_r (s : string) : s ++ EmptyString = s.
Proof. induction s as [|c r IH]; simpl; [reflexivity | now rewrite IH]. Qed.

Lemma append_assoc (a b c : string) : (a ++ b) ++ c = a ++ (b ++ c).
Proof. induction a as [|x r IH]; simpl; [reflexivity | now rewrite IH]. Qed.

Lemma length_append (a b : string) :
  String.length (a ++ b) = String.length a + String.length b.
Proof. induction a as [|x r IH]; simpl; [reflexivity | now rewrite IH]. Qed.

Lemma prefix_append (p r : string) : String.prefix p (p ++ r) = true.
Proof.
  induction p as [|c p IH]; simpl.
  - now destruct r.
  - destruct (ascii_dec c c) as [_|ne]; [exact IH | now elim ne].
Qed.

Lemma slice_from_append (p r : string) : slice_from (String.length p) (p ++ r) = r.
Proof. induction p as [|c p IH]; simpl; [reflexivity | exact IH]. Qed.

Lemma prefix_length (p s : string) :
  String.prefix p s = true -> String.length p <= String.length s.
Proof.
  revert p; induction s as [|c s IH]; intros [|d p]; simpl; try lia; try discriminate.
  destruct (ascii_dec d c); [|discriminate]. intros H. apply IH in H. lia.
Qed.

(** A prefix of [x ++ y] no longer than [x] is a prefix of [x], and conversely. *)
Lemma prefix_append_l (p x y : string) :
  String.length p <= String.length x ->
  String.prefix p (x ++ y) = String.prefix p x.
Proof.
  revert p; induction x as [|c x IH]; intros [|d p]; simpl; intros L; try lia.
  - now destruct y.
  - destruct (ascii_dec d c); [apply IH; lia | reflexivity].
Qed.

Lemma slice_from_append_l (n : nat) (x y : string) :
  n <= String.length x -> slice_from n (x ++ y) = slice_from n x ++ y.
Proof.
  revert x; induction n as [|n IH]; intros [|c x]; simpl; intros L; try lia; try reflexivity.
  apply IH; lia.
Qed.

Lemma slice_to_from (n : nat) (s : string) : slice_to n s ++ slice_from n s = s.
Proof.
  revert s; induction n as [|n IH]; intros [|c s]; simpl; try reflexivity.
  now rewrite IH.
Qed.

(** ** [cut] and [split] *)

Lemma cut_length (sep s b a : string) :
  cut sep s = Some (b, a) ->
  String.length s = String.length b + String.length sep + String.length a.
Proof.
  revert b a; induction s as [|c s IH]; intros b a.
  - destruct sep; simpl; [intros [= <- <-]; reflexivity | discriminate].
  - cbn [cut]. destruct (String.prefix sep (String c s)) eqn:P.
    + intros [= <- <-]. pose proof (prefix_length _ _ P) as L.
      assert (E : forall n t, n <= String.length t ->
                  String.length t = n + String.length (slice_from n t)).
      { clear. induction n as [|n IHn]; intros [|x t]; simpl; intros; try lia.
        rewrite <- IHn; lia. }
      rewrite (E _ _ L) at 1. simpl. lia.
    + destruct (cut sep s) as [[b' a']|] eqn:C; [|discriminate].
      intros [= <- <-]. specialize (IH _ _ eq_refl). simpl. lia.
Qed.

Lemma cut_append (sep x y b a : string) :
  cut sep x = Some (b, a) -> cut sep (x ++ y) = Some (b, a ++ y).
Proof.
  revert b a; induction x as [|c x IH]; intros b a.
  - destruct sep; simpl; [intros [= <- <-] | discriminate].
    destruct y; reflexivity.
  - intros C. pose proof (cut_length _ _ _ _ C) as L. revert C.
    cbn [cut append].
    change (String c (x ++ y)) with (String c x ++ y).
    rewrite (prefix_append_l sep (String c x) y) by lia.
    destruct (String.prefix sep (String c x)) eqn:P.
    + intros [= <- <-]. f_equal. f_equal. apply slice_from_append_l.
      now apply prefix_length.
    + destruct (cut sep x) as [[b' a']|] eqn:C; [|discriminate].
      intros [= <- <-]. simpl. now rewrite (IH _ _ eq_refl).
Qed.

Lemma split_fuel_enough (sep : string) :
  sep <> EmptyString ->
  forall fuel s, String.length s <= fuel -> split_fuel fuel sep s = split sep s.
Proof.
  intros Hsep. unfold split.
  assert (G : forall f1 f2 s, String.length s <= f1 -> String.length s <= f2 ->
              split_fuel f1 sep s = split_fuel f2 sep s).
  { induction f1 as [|f1 IH]; intros f2 s L1 L2.
    - destruct s; [|simpl in L1; lia].
      destruct f2; simpl; [reflexivity|].
      destruct sep; [now elim Hsep | reflexivity].
    - destruct f2 as [|f2].
      + destruct s; [|simpl in L2; lia]. simpl.
        destruct sep; [now elim Hsep | reflexivity].
      + simpl. destruct (cut sep s) as [[b a]|] eqn:C; [|reflexivity].
        pose proof (cut_length _ _ _ _ C) as L.
        assert (0 < String.length sep) by (destruct sep; [now elim Hsep | simpl; lia]).
        f_equal. apply IH; lia. }
  intros fuel s L. apply G; lia.
Qed.

Lemma split_none (sep s : string) : cut sep s = None -> split sep s = [s].
Proof.
  unfold split. intros C. destruct (String.length s); simpl; [reflexivity|].
  now rewrite C.
Qed.

Lemma split_some (sep s b a : string) :
  sep <> EmptyString ->
  cut sep s = Some (b, a) -> split sep s = b :: split sep a.
Proof.
  intros Hsep C. pose proof (cut_length _ _ _ _ C) as L.
  assert (0 < String.length sep) by (destruct sep; [now elim Hsep | simpl; lia]).
  unfold split at 1. destruct (String.length s) as [|n] eqn:E; [lia|].
  simpl. rewrite C. f_equal. apply split_fuel_enough; [assumption | lia].
Qed.

Lemma split_nonempty (sep s : string) : split sep s <> [].
Proof.
  unfold split. destruct (String.length s); simpl; [discriminate|].
  destruct (cut sep s) as [[b a]|]; discriminate.
Qed.

(** Splitting a text that arrives in two pieces: the pieces closed inside the
    first part stay as they are, and the open piece is continued by the
    second part. *)
Lemma split_append (sep : string) :
  sep <> EmptyString ->
  forall x y,
    split sep (x ++ y)
    = (removelast (split sep x) ++ split sep (last (split sep x) EmptyString ++ y))%list.
Proof.
  intros Hsep x.
  remember (String.length x) as n eqn:En.
  revert x En. induction n as [n IH] using lt_wf_ind. intros x En y.
  destruct (cut sep x) as [[b a]|] eqn:C.
  - pose proof (cut_length _ _ _ _ C) as L.
    assert (0 < String.length sep) by (destruct sep; [now elim Hsep | simpl; lia]).
    rewrite (split_some sep (x ++ y) b (a ++ y) Hsep (cut_append _ _ _ _ _ C)).
    rewrite (split_some sep x b a Hsep C).
    rewrite (IH (String.length a)) with (x := a) by (try reflexivity; lia).
    pose proof (split_nonempty sep a) as NE.
    destruct (split sep a) as [|m ms] eqn:S; [now elim NE|].
    reflexivity.
  - rewrite (split_none _ _ C). reflexivity.
Qed.

End StringFacts.

(* ================================================================== *)
(** * [JSON.parse] inverts [JSON.stringify] *)
(* ================================================================== *)

Section JsonFacts.

(** Induction on a JSON value, with the hypothesis for every item of an array
    and every property value of an object. *)
Lemma json_nested_ind (P : json -> Prop)
  (Hnull : P JNull)
  (Hbool : forall b, P (JBool b))
  (Hnum : forall n, P (JNumber n))
  (Hstr : forall s, P (JString s))
  (Harr : forall items, Forall P items -> P (JArray items))
  (Hobj : forall props, Forall (fun kv => P (snd kv)) props -> P (JObject props)) :
  forall v, P v.
Proof.
  fix rec 1. intros [| b | n | s | items | props].
  - exact Hnull.
  - apply Hbool.
  - apply Hnum.
  - apply Hstr.
  - apply Harr. induction items as [|x xs IHxs]; constructor; [apply rec | exact IHxs].
  - apply Hobj. induction props as [|[k x] xs IHxs]; constructor; [apply rec | exact IHxs].
Qed.

(** The number of calls the descent makes on the text of a value. *)
Fixpoint size (v : json) : nat :=
  match v with
  | JArray items => S (fold_right (fun x n => S (size x + n)) 0 items)
  | JObject props => S (fold_right (fun kv n => S (size (snd kv) + n)) 0 props)
  | _ => 1
  end.

(** The characters a JSON value can start with. *)
Definition value_head (c : ascii) : bool :=
  ((c =? "n") || (c =? "t") || (c =? "f") || (c =? DQUOTE) || (c =? "[") || (c =? "{")
   || (c =? "-") || match digit_of c with Some _ => true | None => false end)%char.

(** The characters an integer literal can start with. *)
Definition number_head (c : ascii) : bool :=
  ((c =? "-")%char || match digit_of c with Some _ => true | None => false end).

(** What may follow a number: anything but a digit. *)
Definition delimited (rest : string) : Prop :=
  match rest with
  | EmptyString => True
  | String c _ => digit_of c = None
  end.

(** *** Strings *)

Lemma parse_chars_escape_char (c : ascii) (t : string) :
  parse_chars (escape_char c ++ t) = cons_char c (parse_chars t).
Proof. destruct c as [[] [] [] [] [] [] [] []]; reflexivity. Qed.

Lemma parse_chars_escape (s rest : string) :
  parse_chars (escape s ++ String DQUOTE rest) = Some (s, rest).
Proof.
  induction s as [|c s IH]; [reflexivity|].
  cbn [escape]. rewrite append_assoc, parse_chars_escape_char, IH. reflexivity.
Qed.

Lemma quote_append (s rest : string) :
  quote s ++ rest = String DQUOTE (escape s ++ String DQUOTE rest).
Proof. unfold quote. cbn [append]. now rewrite append_assoc. Qed.

(** *** Numbers *)

Lemma read_digits_string_of_uint (u : uint) (rest : string) :
  delimited rest ->
  read_digits (NilEmpty.string_of_uint u ++ rest) = (u, rest).
Proof.
  intros D. induction u; cbn [NilEmpty.string_of_uint append read_digits];
    try (cbn [digit_of Ascii.eqb Bool.eqb]; rewrite IHu; reflexivity).
  destruct rest as [|c r]; [reflexivity|]. cbn in D. cbn [read_digits]. now rewrite D.
Qed.

Lemma uint_beq_refl (u : uint) : uint_beq u u = true.
Proof. induction u; simpl; auto. Qed.

Lemma unorm_to_uint (p : positive) : unorm (Pos.to_uint p) = Pos.to_uint p.
Proof.
  rewrite <- (DecimalPos.Unsigned.to_of (Pos.to_uint p)).
  now rewrite DecimalPos.Unsigned.of_to.
Qed.

Lemma string_of_uint_head (u : uint) (rest : string) :
  u <> Nil ->
  exists c r, NilEmpty.string_of_uint u ++ rest = String c r
              /\ (c =? "-")%char = false /\ number_head c = true.
Proof.
  intros NN. destruct u; [now elim NN | ..]; cbn [NilEmpty.string_of_uint append];
    eexists _, _; (split; [reflexivity | split; reflexivity]).
Qed.

Lemma parse_number_uint (u : uint) (rest : string) :
  u <> Nil -> unorm u = u -> delimited rest ->
  parse_number (NilEmpty.string_of_uint u ++ rest) = Some (JNumber (Z.of_int (Pos u)), rest)
  /\ parse_number (String "-" (NilEmpty.string_of_uint u ++ rest))
     = Some (JNumber (Z.of_int (Neg u)), rest).
Proof.
  intros NN N D. split.
  - destruct (string_of_uint_head u rest NN) as (c & r & E & M & _).
    unfold parse_number. rewrite E, M, <- E.
    rewrite (read_digits_string_of_uint u rest D), N, uint_beq_refl. reflexivity.
  - unfold parse_number. cbn [Ascii.eqb Bool.eqb].
    rewrite (read_digits_string_of_uint u rest D), N, uint_beq_refl. reflexivity.
Qed.

Lemma parse_number_show_int (n : Z) (rest : string) :
  delimited rest ->
  parse_number (show_int n ++ rest) = Some (JNumber n, rest).
Proof.
  intros D. unfold show_int.
  destruct n as [|p|p]; cbn [Z.to_int NilZero.string_of_int].
  - destruct (parse_number_uint (D0 Nil) rest) as [E _]; try easy.
  - assert (NN := DecimalPos.Unsigned.to_uint_nonnil p).
    replace (NilZero.string_of_uint (Pos.to_uint p))
      with (NilEmpty.string_of_uint (Pos.to_uint p))
      by (unfold NilZero.string_of_uint; destruct (Pos.to_uint p); congruence).
    destruct (parse_number_uint _ rest NN (unorm_to_uint p) D) as [E _].
    rewrite E. f_equal. f_equal. f_equal. exact (DecimalZ.of_to (Zpos p)).
  - assert (NN := DecimalPos.Unsigned.to_uint_nonnil p).
    replace (NilZero.string_of_uint (Pos.to_uint p))
      with (NilEmpty.string_of_uint (Pos.to_uint p))
      by (unfold NilZero.string_of_uint; destruct (Pos.to_uint p); congruence).
    destruct (parse_number_uint _ rest NN (unorm_to_uint p) D) as [_ E].
    cbn [append]. rewrite E. f_equal. f_equal. f_equal. exact (DecimalZ.of_to (Zneg p)).
Qed.

Lemma show_int_head (n : Z) (rest : string) :
  exists c r, show_int n ++ rest = String c r /\ number_head c = true.
Proof.
  unfold show_int. destruct n as [|p|p]; cbn [Z.to_int NilZero.string_of_int].
  - now eexists _, _.
  - assert (NN := DecimalPos.Unsigned.to_uint_nonnil p).
    replace (NilZero.string_of_uint (Pos.to_uint p))
      with (NilEmpty.string_of_uint (Pos.to_uint p))
      by (unfold NilZero.string_of_uint; destruct (Pos.to_uint p); congruence).
    destruct (string_of_uint_head _ rest NN) as (c & r & E & _ & H). now exists c, r.
  - now eexists _, _.
Qed.

(** *** Values *)

Lemma number_head_value_head (c : ascii) : number_head c = true -> value_head c = true.
Proof. destruct c as [[] [] [] [] [] [] [] []]; try discriminate; reflexivity. Qed.

Lemma value_head_facts (c : ascii) :
  value_head c = true ->
  is_json_ws c = false /\ (c =? "]")%char = false /\ (c =? "}")%char = false
  /\ is_space c = false.
Proof.
  destruct c as [[] [] [] [] [] [] [] []]; try discriminate; intros _; repeat split.
Qed.

Lemma expect_append (word rest : string) (v : json) :
  expect word (word ++ rest) v = Some (v, rest).
Proof. unfold expect. now rewrite prefix_append, slice_from_append. Qed.

Lemma parse_value_number (f : nat) (c : ascii) (r : string) :
  number_head c = true -> parse_value (S f) (String c r) = parse_number (String c r).
Proof. destruct c as [[] [] [] [] [] [] [] []]; try discriminate; reflexivity. Qed.

Lemma parse_value_quote (f : nat) (x : string) :
  parse_value (S f) (String DQUOTE x)
  = match parse_chars x with
    | Some (str, rest) => Some (JString str, rest)
    | None => None
    end.
Proof. reflexivity. Qed.

Lemma parse_value_array (f : nat) (r : string) :
  parse_value (S f) (String "[" r)
  = match skip_ws r with
    | String c1 r1 =>
        if (c1 =? "]")%char then Some (JArray [], r1)
        else match parse_elements f (String c1 r1) with
             | Some (items, rest) => Some (JArray items, rest)
             | None => None
             end
    | EmptyString => None
    end.
Proof. reflexivity. Qed.

Lemma parse_value_object (f : nat) (r : string) :
  parse_value (S f) (String "{" r)
  = match skip_ws r with
    | String c1 r1 =>
        if (c1 =? "}")%char then Some (JObject [], r1)
        else match parse_members f (String c1 r1) with
             | Some (props, rest) => Some (JObject props, rest)
             | None => None
             end
    | EmptyString => None
    end.
Proof. reflexivity. Qed.

Lemma stringify_head (v : json) (rest : string) :
  exists c r, stringify v ++ rest = String c r /\ value_head c = true.
Proof.
  destruct v as [| [] | n | s | items | props]; try (now eexists _, _).
  destruct (show_int_head n rest) as (c & r & E & H).
  exists c, r. split; [exact E | now apply number_head_value_head].
Qed.

Lemma skip_ws_head (c : ascii) (r : string) :
  is_json_ws c = false -> skip_ws (String c r) = String c r.
Proof. intros H. simpl. now rewrite H. Qed.

Lemma skip_ws_stringify (v : json) (rest : string) :
  skip_ws (stringify v ++ rest) = stringify v ++ rest.
Proof.
  destruct (stringify_head v rest) as (c & r & E & H).
  rewrite E. apply skip_ws_head. now apply value_head_facts.
Qed.

Lemma join_cons (sep a : string) (l : list string) :
  exists t, join sep (a :: l) = a ++ t.
Proof.
  destruct l as [|b l]; [exists EmptyString | exists (sep ++ join sep (b :: l))].
  - simpl. now rewrite append_nil_r.
  - reflexivity.
Qed.

(** The descent reads back the text of a value, given the fuel [size] counts. *)
Definition reads_back (v : json) : Prop :=
  forall fuel rest, size v <= fuel -> delimited rest ->
    parse_value fuel (stringify v ++ rest) = Some (v, rest).

Lemma parse_elements_comma (f : nat) (s r1 : string) (v : json) :
  parse_value f s = Some (v, String "," r1) ->
  parse_elements (S f) s
  = match parse_elements f (skip_ws r1) with
    | Some (vs, rest) => Some (v :: vs, rest)
    | None => None
    end.
Proof. intros H. cbn [parse_elements]. rewrite H. reflexivity. Qed.

Lemma parse_elements_close (f : nat) (s r1 : string) (v : json) :
  parse_value f s = Some (v, String "]" r1) ->
  parse_elements (S f) s = Some ([v], r1).
Proof. intros H. cbn [parse_elements]. rewrite H. reflexivity. Qed.

Lemma parse_members_comma (f : nat) (r0 r1 r3 k : string) (v : json) :
  parse_chars r0 = Some (k, String ":" r1) ->
  parse_value f (skip_ws r1) = Some (v, String "," r3) ->
  parse_members (S f) (String DQUOTE r0)
  = match parse_members f (skip_ws r3) with
    | Some (kvs, rest) => Some ((k, v) :: kvs, rest)
    | None => None
    end.
Proof.
  intros H1 H2. cbn [parse_members]. change (DQUOTE =? DQUOTE)%char with true.
  cbv iota. rewrite H1. rewrite (skip_ws_head ":" r1 eq_refl).
  change (":" =? ":")%char with true. cbv iota. rewrite H2. reflexivity.
Qed.

Lemma parse_members_close (f : nat) (r0 r1 r3 k : string) (v : json) :
  parse_chars r0 = Some (k, String ":" r1) ->
  parse_value f (skip_ws r1) = Some (v, String "}" r3) ->
  parse_members (S f) (String DQUOTE r0) = Some ([(k, v)], r3).
Proof.
  intros H1 H2. cbn [parse_members]. change (DQUOTE =? DQUOTE)%char with true.
  cbv iota. rewrite H1. rewrite (skip_ws_head ":" r1 eq_refl).
  change (":" =? ":")%char with true. cbv iota. rewrite H2. reflexivity.
Qed.

Lemma parse_elements_join (items : list json) :
  items <> [] -> Forall reads_back items ->
  forall fuel rest,
    fold_right (fun x n => S (size x + n)) 0 items <= fuel ->
    parse_elements fuel (join "," (map stringify items) ++ String "]" rest)
    = Some (items, rest).
Proof.
  induction items as [|x xs IH]; [easy|]. intros _ F fuel rest L.
  inversion F as [|? ? Hx Hxs]; subst. cbn [fold_right] in L.
  destruct fuel as [|f]; [lia|]. destruct xs as [|y ys].
  - cbn [map join String.concat].
    apply parse_elements_close, Hx; [lia | reflexivity].
  - change (join "," (map stringify (x :: y :: ys)))
      with (stringify x ++ String "," (join "," (map stringify (y :: ys)))).
    rewrite append_assoc. cbn [append].
    erewrite parse_elements_comma by (apply Hx; [lia | reflexivity]).
    replace (skip_ws (join "," (map stringify (y :: ys)) ++ String "]" rest))
      with (join "," (map stringify (y :: ys)) ++ String "]" rest).
    + rewrite IH; [reflexivity | discriminate | assumption | lia].
    + cbn [map]. destruct (join_cons "," (stringify y) (map stringify ys)) as [t ->].
      rewrite append_assoc. symmetry. apply skip_ws_stringify.
Qed.

Definition member (kv : string * json) : string :=
  quote (fst kv) ++ ":" ++ stringify (snd kv).

Lemma parse_members_join (props : list (string * json)) :
  props <> [] -> Forall (fun kv => reads_back (snd kv)) props ->
  forall fuel rest,
    fold_right (fun kv n => S (size (snd kv) + n)) 0 props <= fuel ->
    parse_members fuel (join "," (map member props) ++ String "}" rest)
    = Some (props, rest).
Proof.
  induction props as [|[k x] xs IH]; [easy|]. intros _ F fuel rest L.
  inversion F as [|? ? Hx Hxs]; subst. cbn [fold_right snd] in L, Hx.
  destruct fuel as [|f]; [lia|]. destruct xs as [|y ys].
  - cbn [map join String.concat]. unfold member at 1. cbn [fst snd].
    rewrite append_assoc, quote_append.
    eapply parse_members_close.
    + rewrite append_assoc. apply parse_chars_escape.
    + rewrite skip_ws_stringify. apply Hx; [lia | reflexivity].
  - change (join "," (map member ((k, x) :: y :: ys)))
      with ((quote k ++ ":" ++ stringify x) ++ String "," (join "," (map member (y :: ys)))).
    set (J := join "," (map member (y :: ys))) in *.
    rewrite !append_assoc, quote_append.
    rewrite (parse_members_comma f _ (stringify x ++ String "," (J ++ String "}" rest))
               (J ++ String "}" rest) k x).
    + replace (skip_ws (J ++ String "}" rest)) with (J ++ String "}" rest).
      * rewrite IH; [reflexivity | discriminate | assumption | lia].
      * subst J. cbn [map].
        destruct (join_cons "," (member y) (map member ys)) as [t ->].
        unfold member. rewrite !append_assoc, !quote_append. reflexivity.
    + apply parse_chars_escape.
    + rewrite skip_ws_stringify. apply Hx; [lia | reflexivity].
Qed.

Lemma parse_value_stringify (v : json) : reads_back v.
Proof.
  induction v as [| b | n | s | items IH | props IH] using json_nested_ind;
    intros fuel rest L D; cbn [size] in L; (destruct fuel as [|f]; [lia|]).
  - exact (expect_append "null" rest JNull).
  - destruct b.
    + exact (expect_append "true" rest (JBool true)).
    + exact (expect_append "false" rest (JBool false)).
  - destruct (show_int_head n rest) as (c & r & E & H).
    cbn [stringify]. rewrite E, (parse_value_number f c r H), <- E.
    now apply parse_number_show_int.
  - cbn [stringify]. rewrite quote_append, parse_value_quote, parse_chars_escape.
    reflexivity.
  - cbn [stringify]. rewrite !append_assoc. cbn [append]. rewrite parse_value_array.
    destruct items as [|x xs]; [reflexivity|].
    destruct (join_cons "," (stringify x) (map stringify xs)) as [t Et].
    destruct (stringify_head x (t ++ String "]" rest)) as (c & r & E & H).
    assert (E' : join "," (map stringify (x :: xs)) ++ String "]" rest = String c r).
    { cbn [map]. now rewrite Et, append_assoc. }
    destruct (value_head_facts c H) as (W & B & _).
    rewrite E', (skip_ws_head c r W), B, <- E'.
    rewrite parse_elements_join; [reflexivity | discriminate | assumption | lia].
  - change (stringify (JObject props)) with ("{" ++ join "," (map member props) ++ "}").
    rewrite !append_assoc. cbn [append]. rewrite parse_value_object.
    destruct props as [|x xs]; [reflexivity|].
    destruct (join_cons "," (member x) (map member xs)) as [t Et].
    assert (E' : exists r, join "," (map member (x :: xs)) ++ String "}" rest
                           = String DQUOTE r).
    { cbn [map]. rewrite Et. unfold member at 1. rewrite !append_assoc, quote_append.
      now eexists. }
    destruct E' as [r E'].
    rewrite E', (skip_ws_head DQUOTE r eq_refl).
    change (DQUOTE =? "}")%char with false. cbv iota. rewrite <- E'.
    rewrite parse_members_join; [reflexivity | discriminate | assumption | lia].
Qed.

Lemma join_size {A : Type} (f : A -> string) (g : A -> nat) (l : list A) :
  Forall (fun a => g a <= String.length (f a)) l ->
  fold_right (fun a n => S (g a + n)) 0 l <= String.length (join "," (map f l)) + 1.
Proof.
  induction 1 as [|a l Ha Hl IH]; [simpl; lia|].
  destruct l as [|b l].
  - simpl. lia.
  - change (join "," (map f (a :: b :: l))) with (f a ++ String "," (join "," (map f (b :: l)))).
    rewrite length_append. cbn [fold_right String.length] in *. lia.
Qed.

Lemma size_le_length (v : json) : size v <= String.length (stringify v).
Proof.
  induction v as [| b | n | s | items IH | props IH] using json_nested_ind.
  - simpl; lia.
  - destruct b; simpl; lia.
  - destruct (show_int_head n EmptyString) as (c & r & E & _).
    rewrite append_nil_r in E. cbn [stringify size]. rewrite E. simpl. lia.
  - simpl. lia.
  - pose proof (join_size stringify size items IH) as J.
    cbn [stringify size]. rewrite length_append. cbn [append String.length].
    rewrite length_append. simpl. lia.
  - change (stringify (JObject props)) with ("{" ++ join "," (map member props) ++ "}").
    assert (F : Forall (fun kv => size (snd kv) <= String.length (member kv)) props).
    { eapply Forall_impl; [|exact IH]. intros [k x] Hx. unfold member.
      rewrite !length_append. cbn [snd] in *. lia. }
    pose proof (join_size member (fun kv => size (snd kv)) props F) as J.
    cbn [size]. cbn [append String.length]. rewrite length_append. simpl. lia.
Qed.

(** [JSON.parse(JSON.stringify(v))] is [v]. *)
Lemma parse_stringify (v : json) : Json.parse (stringify v) = Some v.
Proof.
  unfold Json.parse.
  pose proof (skip_ws_stringify v EmptyString) as W. rewrite append_nil_r in W.
  rewrite W.
  pose proof (parse_value_stringify v (S (String.length (stringify v))) EmptyString) as R.
  rewrite append_nil_r in R. rewrite R; [reflexivity | | exact I].
  pose proof (size_le_length v). lia.
Qed.

End JsonFacts.

(* ================================================================== *)
(** * The shape of the text [JSON.stringify] writes *)
(* ================================================================== *)

Section TextShape.

(** No line feed anywhere in [s]. *)
Fixpoint lf_free (s : string) : bool :=
  match s with
  | EmptyString => true
  | String c r => negb (c =? LF)%char && lf_free r
  end.

(** [s] is not empty and its last character is not white space. *)
Fixpoint last_solid (s : string) : bool :=
  match s with
  | EmptyString => false
  | String c EmptyString => negb (is_space c)
  | String _ (String _ _ as r) => last_solid r
  end.

Lemma lf_free_append (a b : string) : lf_free (a ++ b) = lf_free a && lf_free b.
Proof.
  induction a as [|c a IH]; [reflexivity|]. simpl. rewrite IH. now rewrite andb_assoc.
Qed.

(** [!s.includes("\n")] says the same. *)
Lemma includes_NL_lf_free (s : string) : includes NL s = negb (lf_free s).
Proof.
  induction s as [|c s IH]; [reflexivity|].
  cbn [includes lf_free]. rewrite IH.
  assert (P : String.prefix NL (String c s) = (c =? LF)%char).
  { unfold NL, str1. cbn [String.prefix].
    destruct (ascii_dec LF c) as [<-|ne].
    - now destruct s.
    - symmetry. apply Ascii.eqb_neq. congruence. }
  rewrite P. now destruct (c =? LF)%char, (lf_free s).
Qed.

Lemma last_solid_append (a b : string) :
  b <> EmptyString -> last_solid (a ++ b) = last_solid b.
Proof.
  intros NE. induction a as [|c a IH]; [reflexivity|].
  cbn [append]. destruct (a ++ b) as [|d t] eqn:E.
  - destruct a; [now elim NE | discriminate].
  - exact IH.
Qed.

Lemma trimEnd_last_solid (s : string) : last_solid s = true -> trimEnd s = s.
Proof.
  induction s as [|c s IH]; [discriminate|].
  destruct s as [|d t].
  - simpl. intros H. apply negb_true_iff in H. now rewrite H.
  - intros H. change (last_solid (String d t) = true) in H.
    assert (E : trimEnd (String c (String d t))
                = match trimEnd (String d t) with
                  | EmptyString => if is_space c then EmptyString else str1 c
                  | String _ _ as r' => String c r'
                  end) by reflexivity.
    rewrite E, (IH H). reflexivity.
Qed.

Lemma lf_free_escape_char (c : ascii) : lf_free (escape_char c) = true.
Proof. destruct c as [[] [] [] [] [] [] [] []]; reflexivity. Qed.

Lemma lf_free_quote (s : string) : lf_free (quote s) = true.
Proof.
  unfold quote. cbn [lf_free]. rewrite lf_free_append.
  replace (lf_free (escape s)) with true; [reflexivity|].
  induction s as [|c s IH]; [reflexivity|].
  cbn [escape]. now rewrite lf_free_append, lf_free_escape_char, <- IH.
Qed.

Lemma lf_free_uint (u : uint) : lf_free (NilEmpty.string_of_uint u) = true.
Proof. induction u; simpl; auto. Qed.

Lemma last_solid_uint (u : uint) :
  u <> Nil -> last_solid (NilEmpty.string_of_uint u) = true.
Proof.
  induction u; intros NN; [easy | ..];
    (destruct u; [reflexivity | apply IHu; discriminate ..]).
Qed.

Lemma show_int_shape (n : Z) :
  lf_free (show_int n) = true /\ last_solid (show_int n) = true.
Proof.
  unfold show_int.
  destruct n as [|p|p]; cbn [Z.to_int NilZero.string_of_int]; [now split | ..];
    assert (NN := DecimalPos.Unsigned.to_uint_nonnil p);
    replace (NilZero.string_of_uint (Pos.to_uint p))
      with (NilEmpty.string_of_uint (Pos.to_uint p))
      by (unfold NilZero.string_of_uint; destruct (Pos.to_uint p); congruence).
  - split; [apply lf_free_uint | now apply last_solid_uint].
  - split; [cbn [lf_free]; now rewrite lf_free_uint|].
    change (String "-" ?x) with ("-" ++ x). rewrite last_solid_append.
    + now apply last_solid_uint.
    + destruct (Pos.to_uint p); [now elim NN | discriminate ..].
Qed.

Lemma lf_free_join (sep : string) (l : list string) :
  lf_free sep = true -> Forall (fun s => lf_free s = true) l ->
  lf_free (join sep l) = true.
Proof.
  intros Hs. induction 1 as [|a l Ha Hl IH]; [reflexivity|].
  destruct l as [|b l]; [exact Ha|].
  change (join sep (a :: b :: l)) with (a ++ sep ++ join sep (b :: l)).
  now rewrite !lf_free_append, Ha, Hs, IH.
Qed.

Lemma lf_free_stringify (v : json) : lf_free (stringify v) = true.
Proof.
  induction v as [| b | n | s | items IH | props IH] using json_nested_ind.
  - reflexivity.
  - now destruct b.
  - apply show_int_shape.
  - apply lf_free_quote.
  - cbn [stringify]. rewrite !lf_free_append, lf_free_join; [reflexivity | reflexivity |].
    now apply Forall_map.
  - change (stringify (JObject props)) with ("{" ++ join "," (map member props) ++ "}").
    rewrite !lf_free_append, lf_free_join; [reflexivity | reflexivity |].
    apply Forall_map. eapply Forall_impl; [|exact IH].
    intros [k x] Hx. unfold member. cbn [fst snd] in *.
    now rewrite !lf_free_append, lf_free_quote, Hx.
Qed.

Lemma last_solid_stringify (v : json) : last_solid (stringify v) = true.
Proof.
  destruct v as [| [] | n | s | items | props]; try reflexivity.
  - apply show_int_shape.
  - unfold stringify, quote. change (String DQUOTE ?x) with (str1 DQUOTE ++ x).
    rewrite <- append_assoc. now rewrite last_solid_append.
  - cbn [stringify]. rewrite <- append_assoc. now rewrite last_solid_append.
  - cbn [stringify]. rewrite <- append_assoc. now rewrite last_solid_append.
Qed.

End TextShape.

(* ================================================================== *)
(** * The codec: one frame in, one message out *)
(* ================================================================== *)

Section CodecFacts.

(** A line that is not empty, starts with a character [trim] keeps, and
    holds no line feed. *)
Definition good_line (l : string) : Prop :=
  exists c r, l = String c r /\ is_space c = false /\ lf_free l = true.

Lemma not_space_not_LF (c : ascii) : is_space c = false -> (c =? LF)%char = false.
Proof. destruct c as [[] [] [] [] [] [] [] []]; try discriminate; reflexivity. Qed.

Lemma prefix_LF_other (sep' : string) (c : ascii) (r : string) :
  (c =? LF)%char = false -> String.prefix (String LF sep') (String c r) = false.
Proof.
  intros H. cbn [String.prefix]. destruct (ascii_dec LF c) as [<-|ne]; [|reflexivity].
  now rewrite Ascii.eqb_refl in H.
Qed.

(** A separator that starts with a line feed is not found inside a text
    without line feeds. *)
Lemma cut_lf_free (sep' l t : string) :
  lf_free l = true ->
  cut (String LF sep') (l ++ t)
  = match cut (String LF sep') t with
    | Some (b, a) => Some (l ++ b, a)
    | None => None
    end.
Proof.
  induction l as [|c l IH]; intros H.
  - cbn [append]. now destruct (cut (String LF sep') t) as [[b a]|].
  - cbn [lf_free] in H. apply andb_true_iff in H as [Hc Hl].
    apply negb_true_iff in Hc.
    cbn [append cut]. rewrite (prefix_LF_other sep' c _ Hc), (IH Hl).
    now destruct (cut (String LF sep') t) as [[b a]|].
Qed.

Lemma cut_NLNL_NL (c : ascii) (r : string) :
  (c =? LF)%char = false ->
  cut NLNL (String LF (String c r))
  = match cut NLNL (String c r) with
    | Some (b, a) => Some (String LF b, a)
    | None => None
    end.
Proof.
  intros H. unfold NLNL.
  assert (P : String.prefix (String LF (String LF EmptyString)) (String LF (String c r)) = false).
  { cbn [String.prefix]. destruct (ascii_dec LF LF); [|reflexivity].
    destruct (ascii_dec LF c) as [<-|ne]; [|reflexivity].
    now rewrite Ascii.eqb_refl in H. }
  change (cut (String LF (String LF EmptyString)) (String LF (String c r)))
    with (if String.prefix (String LF (String LF EmptyString)) (String LF (String c r))
          then Some (EmptyString, slice_from 2 (String LF (String c r)))
          else match cut (String LF (String LF EmptyString)) (String c r) with
               | Some (b, a) => Some (String LF b, a)
               | None => None
               end).
  now rewrite P.
Qed.

Lemma cut_sep_itself (sep : string) : cut sep sep = Some (EmptyString, EmptyString).
Proof.
  pose proof (prefix_append sep EmptyString) as P. rewrite append_nil_r in P.
  pose proof (slice_from_append sep EmptyString) as S. rewrite append_nil_r in S.
  destruct sep; cbn [cut]; rewrite P; [reflexivity | now rewrite S].
Qed.

Lemma good_line_join_head (l : string) (ls : list string) (t : string) :
  good_line l ->
  exists c r, join NL (l :: ls) ++ t = String c r /\ is_space c = false.
Proof.
  intros (c & r & -> & Hc & _). destruct (join_cons NL (String c r) ls) as [u ->].
  now exists c, ((r ++ u) ++ t).
Qed.

(** The only double line feed of a frame of good lines is its terminator. *)
Lemma frame_cut (lines : list string) :
  lines <> [] -> Forall good_line lines ->
  cut NLNL (join NL lines ++ NLNL) = Some (join NL lines, EmptyString).
Proof.
  induction lines as [|l ls IH]; [easy|]. intros _ F.
  inversion F as [|? ? Hl Hls]; subst.
  assert (Lf : lf_free l = true) by now destruct Hl as (? & ? & _ & _ & ?).
  destruct ls as [|l2 ls].
  - cbn [join String.concat]. unfold NLNL at 1. rewrite (cut_lf_free _ l NLNL Lf).
    fold NLNL. now rewrite cut_sep_itself, append_nil_r.
  - change (join NL (l :: l2 :: ls)) with (l ++ NL ++ join NL (l2 :: ls)).
    rewrite !append_assoc. unfold NLNL at 1. rewrite (cut_lf_free _ l _ Lf). fold NLNL.
    inversion Hls as [|? ? Hl2 _]; subst.
    destruct (good_line_join_head l2 ls NLNL Hl2) as (c & r & E & Hc).
    unfold NL at 1, str1. cbn [append]. rewrite E.
    rewrite (cut_NLNL_NL c r (not_space_not_LF c Hc)), <- E.
    rewrite IH; [reflexivity | discriminate | assumption].
Qed.

(** Splitting the joined lines at the line feeds gives the lines back. *)
Lemma split_join_lines (lines : list string) :
  lines <> [] -> Forall (fun l => lf_free l = true) lines ->
  split NL (join NL lines) = lines.
Proof.
  assert (Hsep : NL <> EmptyString) by discriminate.
  induction lines as [|l ls IH]; [easy|]. intros _ F.
  inversion F as [|? ? Hl Hls]; subst. destruct ls as [|l2 ls].
  - cbn [join String.concat]. apply split_none.
    pose proof (cut_lf_free EmptyString l EmptyString Hl) as C.
    rewrite append_nil_r in C. exact C.
  - change (join NL (l :: l2 :: ls)) with (l ++ NL ++ join NL (l2 :: ls)).
    rewrite (split_some NL _ l (join NL (l2 :: ls)) Hsep).
    + f_equal. apply IH; [discriminate | assumption].
    + unfold NL at 1, str1. rewrite (cut_lf_free EmptyString l _ Hl). fold (str1 LF). fold NL.
      pose proof (cut_append NL NL (join NL (l2 :: ls)) _ _ (cut_sep_itself NL)) as C.
      cbn [append] in C |- *. rewrite C. now rewrite append_nil_r.
Qed.

Lemma last_app_nonempty {A : Type} (l l' : list A) (d : A) :
  l' <> [] -> last (l ++ l') d = last l' d.
Proof.
  intros NE. induction l as [|a l IH]; [reflexivity|].
  cbn [List.app]. destruct (l ++ l')%list as [|b t] eqn:E.
  - apply app_eq_nil in E as [_ ->]. now elim NE.
  - change (last (a :: b :: t) d) with (last (b :: t) d). exact IH.
Qed.

(** Feeding a text in two pieces makes the calls of feeding it whole, and
    leaves the same buffer. *)
Lemma feed_two (buffer p q : string) : feed buffer [p; q] = feed buffer [p ++ q].
Proof.
  assert (Hsep : NLNL <> EmptyString) by discriminate.
  cbn [feed]. unfold parse.
  rewrite <- (append_assoc buffer p q), (split_append NLNL Hsep (buffer ++ p) q).
  rewrite (last_app_nonempty _ _ _ (split_nonempty _ _)).
  rewrite (removelast_app _ (split_nonempty _ _)), flat_map_app.
  now rewrite !List.app_nil_r.
Qed.

(** Until a double line feed has arrived nothing is parsed and nothing is
    called: the text stays in the buffer. *)
Lemma parse_waits (buffer chunk : string) :
  cut NLNL (buffer ++ chunk) = None -> parse buffer chunk = (buffer ++ chunk, []).
Proof. intros C. unfold parse. now rewrite (split_none _ _ C). Qed.

Lemma cut_none_includes (sep s : string) : cut sep s = None <-> includes sep s = false.
Proof.
  induction s as [|c s IH]; cbn [cut includes].
  - destruct (String.prefix sep EmptyString); simpl; split; congruence.
  - destruct (String.prefix sep (String c s)); simpl; [split; congruence|].
    rewrite <- IH. destruct (cut sep s) as [[b a]|]; split; congruence.
Qed.

(** An optional field ([id], [event]) that holds no line feed:
    [field === undefined || !field.includes("\n")]. *)
Definition no_line_feed (field : option string) : Prop :=
  match field with
  | Some s => includes NL s = false
  | None => True
  end.

(** The lines [formatSSEMessage] pushes before the data line. *)
Definition header_lines (m : SSEMessage) : list string :=
  (match id m with Some i => [("id: " ++ i)%string] | None => [] end
   ++ match retry m with Some r => [("retry: " ++ show_int r)%string] | None => [] end
   ++ match event m with Some e => [("event: " ++ e)%string] | None => [] end)%list.

Definition data_line (m : SSEMessage) : string := "data: " ++ stringify (data m).

Lemma formatSSEMessage_lines (m : SSEMessage) :
  formatSSEMessage m = join NL (header_lines m ++ [data_line m])%list ++ NLNL.
Proof.
  unfold formatSSEMessage, header_lines, data_line, push.
  destruct (id m), (retry m), (event m); reflexivity.
Qed.

(** A header line is skipped by the parser. *)
Definition header_line (l : string) : Prop := good_line l /\ parse_line l = [].

Lemma header_lines_ok (m : SSEMessage) :
  no_line_feed (id m) -> no_line_feed (event m) -> Forall header_line (header_lines m).
Proof.
  intros Hi He. unfold header_lines.
  apply Forall_app; split; [|apply Forall_app; split].
  - destruct (id m) as [i|]; constructor; [|constructor].
    cbn in Hi. rewrite includes_NL_lf_free in Hi. apply negb_false_iff in Hi.
    split; [|reflexivity]. now eexists _, _.
  - destruct (retry m) as [r|]; constructor; [|constructor].
    split; [|reflexivity]. eexists _, _. repeat split.
    cbn [append lf_free]. now destruct (show_int_shape r) as [-> _].
  - destruct (event m) as [e|]; constructor; [|constructor].
    cbn in He. rewrite includes_NL_lf_free in He. apply negb_false_iff in He.
    split; [|reflexivity]. now eexists _, _.
Qed.

Lemma flat_map_header (ls : list string) :
  Forall header_line ls -> flat_map parse_line ls = [].
Proof.
  induction 1 as [|l ls [_ Hl] _ IH]; [reflexivity|].
  cbn [flat_map]. now rewrite Hl, IH.
Qed.

Lemma data_line_ok (m : SSEMessage) :
  good_line (data_line m) /\ last_solid (data_line m) = true
  /\ parse_line (data_line m) = [onMessage (data m)].
Proof.
  unfold data_line. repeat split.
  - eexists _, _. repeat split. cbn [append lf_free]. now rewrite lf_free_stringify.
  - rewrite last_solid_append; [apply last_solid_stringify|].
    destruct (stringify_head (data m) EmptyString) as (c & r & E & _).
    rewrite append_nil_r in E. now rewrite E.
  - unfold parse_line, startsWith. rewrite prefix_append.
    change (String.prefix ":" ("data: " ++ stringify (data m))) with false.
    change (slice_from 6 ("data: " ++ stringify (data m))) with (stringify (data m)).
    cbv iota. now rewrite parse_stringify.
Qed.

Lemma join_snoc (sep : string) (ls : list string) (d : string) :
  exists pre, join sep (ls ++ [d])%list = pre ++ d.
Proof.
  induction ls as [|a ls [pre IH]]; [now exists EmptyString|].
  exists (a ++ sep ++ pre). cbn [List.app].
  destruct (ls ++ [d])%list as [|b t] eqn:E; [now destruct ls|].
  change (join sep (a :: b :: t)) with (a ++ sep ++ join sep (b :: t)).
  now rewrite IH, !append_assoc.
Qed.

(** A frame whose [id] and [event] hold no line feed, read by a parser with
    an empty buffer: one [onMessage] call with the data, nothing else, and
    the buffer is empty again. *)
Lemma format_parse_once (m : SSEMessage) :
  no_line_feed (id m) -> no_line_feed (event m) ->
  parse EmptyString (formatSSEMessage m) = (EmptyString, [onMessage (data m)]).
Proof.
  intros Hi He.
  pose proof (header_lines_ok m Hi He) as Hh.
  destruct (data_line_ok m) as (Dg & Ds & Dp).
  rewrite formatSSEMessage_lines.
  set (lines := (header_lines m ++ [data_line m])%list).
  assert (NE : lines <> []) by (subst lines; now destruct (header_lines m)).
  assert (G : Forall good_line lines).
  { apply Forall_app. split; [|now constructor].
    eapply Forall_impl; [|exact Hh]. now intros l [H _]. }
  assert (Hsep : NLNL <> EmptyString) by discriminate.
  unfold parse. cbn [append].
  rewrite (split_some NLNL _ _ _ Hsep (frame_cut lines NE G)).
  rewrite (split_none NLNL EmptyString eq_refl).
  cbn [last removelast flat_map]. rewrite List.app_nil_r. f_equal.
  (* the one message *)
  unfold parse_message.
  assert (T : trim (join NL lines) = join NL lines).
  { unfold trim.
    assert (S : trimStart (join NL lines) = join NL lines).
    { destruct lines as [|l ls]; [easy|]. inversion G as [|? ? Hl _]; subst.
      destruct (good_line_join_head l ls EmptyString Hl) as (c & r & E & Hc).
      rewrite append_nil_r in E. rewrite E. cbn [trimStart]. now rewrite Hc. }
    rewrite S. apply trimEnd_last_solid. subst lines.
    destruct (join_snoc NL (header_lines m) (data_line m)) as [pre ->].
    rewrite last_solid_append; [exact Ds|].
    now destruct Dg as (? & ? & -> & _). }
  rewrite T.
  destruct (join NL lines) as [|c r] eqn:E.
  { destruct lines as [|l ls]; [easy|]. inversion G as [|? ? Hl _]; subst.
    destruct (good_line_join_head l ls EmptyString Hl) as (c & r & E' & _).
    rewrite append_nil_r in E'. congruence. }
  rewrite <- E, split_join_lines; [|exact NE|].
  - subst lines. rewrite flat_map_app. cbn [flat_map]. rewrite Dp, List.app_nil_r.
    now rewrite (flat_map_header _ Hh).
  - eapply Forall_impl; [|exact G]. now intros l (? & ? & _ & _ & ?).
Qed.

End CodecFacts.

(* ================================================================== *)
(** * Facts about strings of code units *)
(* ================================================================== *)

Section Utf16Facts.

Import Utf16.
Local Open Scope list_scope.

Lemma text_startsWith_app (p r : text) : startsWith p (p ++ r) = true.
Proof. induction p as [|c p IH]; simpl; [reflexivity | now rewrite N.eqb_refl]. Qed.

Lemma text_startsWith_length (p s : text) :
  startsWith p s = true -> List.length p <= List.length s.
Proof.
  revert s; induction p as [|c p IH]; intros [|d s]; simpl; try lia; try discriminate.
  intros H. apply andb_true_iff in H as [_ H]. apply IH in H. lia.
Qed.

(** A prefix of [x ++ y] no longer than [x] is a prefix of [x], and conversely. *)
Lemma text_startsWith_app_l (p x y : text) :
  List.length p <= List.length x -> startsWith p (x ++ y) = startsWith p x.
Proof.
  revert x; induction p as [|c p IH]; intros [|d x]; simpl; intros L; try lia; try reflexivity.
  now rewrite IH by lia.
Qed.

Lemma text_slice_from_app (p r : text) : slice_from (List.length p) (p ++ r) = r.
Proof. unfold slice_from. induction p as [|c p IH]; simpl; [reflexivity | exact IH]. Qed.

Lemma text_slice_from_app_l (n : nat) (x y : text) :
  n <= List.length x -> slice_from n (x ++ y) = slice_from n x ++ y.
Proof.
  unfold slice_from.
  revert x; induction n as [|n IH]; intros [|c x]; simpl; intros L; try lia; try reflexivity.
  apply IH; lia.
Qed.

Lemma text_slice_from_length (n : nat) (s : text) :
  n <= List.length s -> List.length s = n + List.length (slice_from n s).
Proof.
  unfold slice_from.
  revert s; induction n as [|n IH]; intros [|c s]; simpl; intros L; try lia.
  rewrite <- IH; lia.
Qed.

Lemma text_slice_to_from (n : nat) (s : text) : slice_to n s ++ slice_from n s = s.
Proof. apply firstn_skipn. Qed.

(** ** [cut] and [split] *)

Lemma text_cut_length (sep s b a : text) :
  cut sep s = Some (b, a) ->
  List.length s = List.length b + List.length sep + List.length a.
Proof.
  revert b a; induction s as [|c s IH]; intros b a.
  - destruct sep; simpl; [intros [= <- <-]; reflexivity | discriminate].
  - cbn [cut]. destruct (startsWith sep (c :: s)) eqn:P.
    + intros [= <- <-]. pose proof (text_startsWith_length _ _ P) as L.
      rewrite (text_slice_from_length _ _ L) at 1. simpl. lia.
    + destruct (cut sep s) as [[b' a']|] eqn:C; [|discriminate].
      intros [= <- <-]. specialize (IH _ _ eq_refl). simpl. lia.
Qed.

Lemma text_cut_app (sep x y b a : text) :
  cut sep x = Some (b, a) -> cut sep (x ++ y) = Some (b, a ++ y).
Proof.
  revert b a; induction x as [|c x IH]; intros b a.
  - destruct sep; simpl; [intros [= <- <-] | discriminate].
    destruct y; reflexivity.
  - intros C. pose proof (text_cut_length _ _ _ _ C) as L. revert C.
    cbn [cut List.app].
    change (c :: x ++ y) with ((c :: x) ++ y).
    rewrite (text_startsWith_app_l sep (c :: x) y) by lia.
    destruct (startsWith sep (c :: x)) eqn:P.
    + intros [= <- <-]. f_equal. f_equal. apply text_slice_from_app_l.
      now apply text_startsWith_length.
    + destruct (cut sep x) as [[b' a']|] eqn:C; [|discriminate].
      intros [= <- <-]. simpl. now rewrite (IH _ _ eq_refl).
Qed.

Lemma text_split_fuel_enough (sep : text) :
  sep <> [] ->
  forall fuel s, List.length s <= fuel -> split_fuel fuel sep s = split sep s.
Proof.
  intros Hsep. unfold split.
  assert (G : forall f1 f2 s, List.length s <= f1 -> List.length s <= f2 ->
              split_fuel f1 sep s = split_fuel f2 sep s).
  { induction f1 as [|f1 IH]; intros f2 s L1 L2.
    - destruct s; [|simpl in L1; lia].
      destruct f2; simpl; [reflexivity|].
      destruct sep; [now elim Hsep | reflexivity].
    - destruct f2 as [|f2].
      + destruct s; [|simpl in L2; lia]. simpl.
        destruct sep; [now elim Hsep | reflexivity].
      + simpl. destruct (cut sep s) as [[b a]|] eqn:C; [|reflexivity].
        pose proof (text_cut_length _ _ _ _ C) as L.
        assert (0 < List.length sep) by (destruct sep; [now elim Hsep | simpl; lia]).
        f_equal. apply IH; lia. }
  intros fuel s L. apply G; lia.
Qed.

Lemma text_split_none (sep s : text) : cut sep s = None -> split sep s = [s].
Proof.
  unfold split. intros C. destruct (List.length s); simpl; [reflexivity|].
  now rewrite C.
Qed.

Lemma text_split_some (sep s b a : text) :
  sep <> [] ->
  cut sep s = Some (b, a) -> split sep s = b :: split sep a.
Proof.
  intros Hsep C. pose proof (text_cut_length _ _ _ _ C) as L.
  assert (0 < List.length sep) by (destruct sep; [now elim Hsep | simpl; lia]).
  unfold split at 1. destruct (List.length s) as [|n] eqn:E; [lia|].
  simpl. rewrite C. f_equal. apply text_split_fuel_enough; [assumption | lia].
Qed.

Lemma text_split_nonempty (sep s : text) : split sep s <> [].
Proof.
  unfold split. destruct (List.length s); simpl; [discriminate|].
  destruct (cut sep s) as [[b a]|]; discriminate.
Qed.

(** Splitting a text that arrives in two pieces: the pieces closed inside the
    first part stay as they are, and the open piece is continued by the
    second part. *)
Lemma text_split_app (sep : text) :
  sep <> [] ->
  forall x y,
    split sep (x ++ y)
    = removelast (split sep x) ++ split sep (last (split sep x) [] ++ y).
Proof.
  intros Hsep x.
  remember (List.length x) as n eqn:En.
  revert x En. induction n as [n IH] using lt_wf_ind. intros x En y.
  destruct (cut sep x) as [[b a]|] eqn:C.
  - pose proof (text_cut_length _ _ _ _ C) as L.
    assert (0 < List.length sep) by (destruct sep; [now elim Hsep | simpl; lia]).
    rewrite (text_split_some sep (x ++ y) b (a ++ y) Hsep (text_cut_app _ _ _ _ _ C)).
    rewrite (text_split_some sep x b a Hsep C).
    rewrite (IH (List.length a)) with (x := a) by (try reflexivity; lia).
    pose proof (text_split_nonempty sep a) as NE.
    destruct (split sep a) as [|m ms] eqn:Sp; [now elim NE|].
    reflexivity.
  - rewrite (text_split_none _ _ C). reflexivity.
Qed.

Lemma text_cut_none_includes (sep s : text) : cut sep s = None <-> includes sep s = false.
Proof.
  induction s as [|c s IH]; cbn [cut includes].
  - destruct (startsWith sep []); simpl; split; congruence.
  - destruct (startsWith sep (c :: s)); simpl; [split; congruence|].
    rewrite <- IH. destruct (cut sep s) as [[b a]|]; split; congruence.
Qed.

Lemma text_cut_sep_itself (sep : text) : cut sep sep = Some ([], []).
Proof.
  pose proof (text_startsWith_app sep []) as P. rewrite List.app_nil_r in P.
  pose proof (text_slice_from_app sep []) as Sl. rewrite List.app_nil_r in Sl.
  destruct sep; cbn [cut]; rewrite P; [reflexivity | now rewrite Sl].
Qed.

(** ** Texts without line feed, and texts [trim] leaves alone *)

Lemma text_lf_free_app (a b : text) : lf_free (a ++ b) = lf_free a && lf_free b.
Proof.
  induction a as [|c a IH]; [reflexivity|]. simpl. rewrite IH. now rewrite andb_assoc.
Qed.

Lemma text_includes_NL_lf_free (s : text) : includes NL s = negb (lf_free s).
Proof.
  induction s as [|c s IH]; [reflexivity|].
  cbn [includes lf_free]. rewrite IH.
  assert (P : startsWith NL (c :: s) = (c =? LF)%N).
  { unfold NL. cbn [startsWith]. rewrite N.eqb_sym. now rewrite andb_true_r. }
  rewrite P. now destruct (c =? LF)%N, (lf_free s).
Qed.

Lemma text_last_solid_app (a b : text) : b <> [] -> last_solid (a ++ b) = last_solid b.
Proof.
  intros NE. induction a as [|c a IH]; [reflexivity|].
  cbn [List.app]. destruct (a ++ b) as [|d t] eqn:E.
  - destruct a; [now elim NE | discriminate].
  - exact IH.
Qed.

Lemma text_trimEnd_last_solid (s : text) : last_solid s = true -> trimEnd s = s.
Proof.
  induction s as [|c s IH]; [discriminate|].
  destruct s as [|d t].
  - simpl. intros H. apply negb_true_iff in H. now rewrite H.
  - intros H. change (last_solid (d :: t) = true) in H.
    assert (E : trimEnd (c :: d :: t)
                = match trimEnd (d :: t) with
                  | [] => if is_space c then [] else [c]
                  | (_ :: _) as r' => c :: r'
                  end) by reflexivity.
    rewrite E, (IH H). reflexivity.
Qed.

Lemma text_not_space_not_LF (c : code_unit) : is_space c = false -> (c =? LF)%N = false.
Proof.
  intros H. destruct (c =? LF)%N eqn:E; [|reflexivity].
  apply N.eqb_eq in E. subst c. discriminate H.
Qed.

Lemma text_startsWith_LF_other (sep' : text) (c : code_unit) (r : text) :
  (c =? LF)%N = false -> startsWith (LF :: sep') (c :: r) = false.
Proof. intros H. cbn [startsWith]. now rewrite N.eqb_sym, H. Qed.

(** A separator that starts with a line feed is not found inside a text
    without line feeds. *)
Lemma text_cut_lf_free (sep' l t : text) :
  lf_free l = true ->
  cut (LF :: sep') (l ++ t)
  = match cut (LF :: sep') t with
    | Some (b, a) => Some (l ++ b, a)
    | None => None
    end.
Proof.
  induction l as [|c l IH]; intros H.
  - cbn [List.app]. now destruct (cut (LF :: sep') t) as [[b a]|].
  - cbn [lf_free] in H. apply andb_true_iff in H as [Hc Hl].
    apply negb_true_iff in Hc.
    cbn [List.app cut]. rewrite (text_startsWith_LF_other sep' c _ Hc), (IH Hl).
    now destruct (cut (LF :: sep') t) as [[b a]|].
Qed.

Lemma text_cut_NLNL_NL (c : code_unit) (r : text) :
  (c =? LF)%N = false ->
  cut NLNL (LF :: c :: r)
  = match cut NLNL (c :: r) with
    | Some (b, a) => Some (LF :: b, a)
    | None => None
    end.
Proof.
  intros H. unfold NLNL.
  assert (P : startsWith [LF; LF] (LF :: c :: r) = false).
  { cbn [startsWith]. now rewrite (N.eqb_sym LF c), H, andb_false_r. }
  change (cut [LF; LF] (LF :: c :: r))
    with (if startsWith [LF; LF] (LF :: c :: r)
          then Some ([], slice_from 2 (LF :: c :: r))
          else match cut [LF; LF] (c :: r) with
               | Some (b, a) => Some (LF :: b, a)
               | None => None
               end).
  now rewrite P.
Qed.

Lemma text_join_cons (sep l : text) (ls : list text) : exists u, join sep (l :: ls) = l ++ u.
Proof.
  destruct ls as [|l2 ls]; [exists []; cbn; now rewrite List.app_nil_r|].
  now exists (sep ++ join sep (l2 :: ls)).
Qed.

Lemma text_join_snoc (sep : text) (ls : list text) (d : text) :
  exists pre, join sep (ls ++ [d]) = pre ++ d.
Proof.
  induction ls as [|a ls [pre IH]]; [now exists []|].
  exists (a ++ sep ++ pre). cbn [List.app].
  destruct (ls ++ [d]) as [|b t] eqn:E; [now destruct ls|].
  change (join sep (a :: b :: t)) with (a ++ sep ++ join sep (b :: t)).
  now rewrite IH, <- !List.app_assoc.
Qed.

Lemma text_good_line_join_head (l : text) (ls : list text) (t : text) :
  good_line l ->
  exists c r, join NL (l :: ls) ++ t = c :: r /\ is_space c = false.
Proof.
  intros (c & r & -> & Hc & _). destruct (text_join_cons NL (c :: r) ls) as [u ->].
  now exists c, ((r ++ u) ++ t).
Qed.

(** The only double line feed of a frame of good lines is its terminator. *)
Lemma text_frame_cut (lines : list text) :
  lines <> [] -> Forall good_line lines ->
  cut NLNL (join NL lines ++ NLNL) = Some (join NL lines, []).
Proof.
  induction lines as [|l ls IH]; [easy|]. intros _ F.
  inversion F as [|? ? Hl Hls]; subst.
  assert (Lf : lf_free l = true) by now destruct Hl as (? & ? & _ & _ & ?).
  destruct ls as [|l2 ls].
  - cbn [join]. unfold NLNL at 1. rewrite (text_cut_lf_free _ l NLNL Lf).
    fold NLNL. now rewrite text_cut_sep_itself, List.app_nil_r.
  - change (join NL (l :: l2 :: ls)) with (l ++ NL ++ join NL (l2 :: ls)).
    rewrite <- !List.app_assoc. unfold NLNL at 1. rewrite (text_cut_lf_free _ l _ Lf). fold NLNL.
    inversion Hls as [|? ? Hl2 _]; subst.
    destruct (text_good_line_join_head l2 ls NLNL Hl2) as (c & r & E & Hc).
    unfold NL at 1. cbn [List.app]. rewrite E.
    rewrite (text_cut_NLNL_NL c r (text_not_space_not_LF c Hc)), <- E.
    rewrite IH; [reflexivity | discriminate | assumption].
Qed.

(** Splitting the joined lines at the line feeds gives the lines back. *)
Lemma text_split_join_lines (lines : list text) :
  lines <> [] -> Forall (fun l => lf_free l = true) lines ->
  split NL (join NL lines) = lines.
Proof.
  assert (Hsep : NL <> []) by discriminate.
  induction lines as [|l ls IH]; [easy|]. intros _ F.
  inversion F as [|? ? Hl Hls]; subst. destruct ls as [|l2 ls].
  - cbn [join]. apply text_split_none.
    pose proof (text_cut_lf_free [] l [] Hl) as C.
    rewrite List.app_nil_r in C. exact C.
  - change (join NL (l :: l2 :: ls)) with (l ++ NL ++ join NL (l2 :: ls)).
    rewrite (text_split_some NL _ l (join NL (l2 :: ls)) Hsep).
    + f_equal. apply IH; [discriminate | assumption].
    + unfold NL at 1. rewrite (text_cut_lf_free [] l _ Hl). fold NL.
      pose proof (text_cut_app NL NL (join NL (l2 :: ls)) _ _ (text_cut_sep_itself NL)) as C.
      cbn [List.app] in C |- *. rewrite C. now rewrite List.app_nil_r.
Qed.

End Utf16Facts.

(* ================================================================== *)
(** * The codec: one frame in, one message out *)
(* ================================================================== *)

Section WireFacts.

Import Utf16 Wire.
Local Open Scope list_scope.

Context {platform : Platform}.
Variable onMessage_throws : value -> option Js.thrown.

(** The texts of the platform as ECMAScript has them: [JSON.stringify],
    called without indentation, writes no line feed (inside a string it is
    written as a backslash and an n) and ends its text with a brace, a
    bracket, a quote, a digit or a letter; and the text of a number holds no
    line feed. *)
Definition ecmascript_texts : Prop :=
  (forall (v : value) (t : text),
     JSON_stringify v = json_text t -> lf_free t = true /\ last_solid t = true)
  /\ (forall n : number, lf_free (Number_toString n) = true).

(** Feeding a text in two pieces makes the calls of feeding it whole, and
    leaves the same buffer. *)
Lemma feed_pieces (buffer p q : text) :
  feed onMessage_throws buffer [p; q] = feed onMessage_throws buffer [p ++ q].
Proof.
  assert (Hsep : NLNL <> []) by discriminate.
  cbn [feed]. unfold parse.
  rewrite (List.app_assoc buffer p q), (text_split_app NLNL Hsep (buffer ++ p) q).
  rewrite (last_app_nonempty _ _ _ (text_split_nonempty _ _)).
  rewrite (removelast_app _ (text_split_nonempty _ _)), flat_map_app.
  now rewrite !List.app_nil_r.
Qed.

(** Until a double line feed has arrived nothing is parsed and nothing is
    called: the text stays in the buffer. *)
Lemma parse_holds_back (buffer chunk : text) :
  cut NLNL (buffer ++ chunk) = None ->
  parse onMessage_throws buffer chunk = (buffer ++ chunk, []).
Proof. intros C. unfold parse. now rewrite (text_split_none _ _ C). Qed.

(** An optional field ([id], [event]) that holds no line feed:
    [field === undefined || !field.includes("\n")]. *)
Definition without_line_feed (field : option text) : Prop :=
  match field with
  | Some s => includes NL s = false
  | None => True
  end.

(** What the parser calls for a data line whose payload parses as [v]. *)
Definition delivery (v : value) (payload : text) : list (callback value) :=
  onMessage v ::
  match onMessage_throws v with
  | None => []
  | Some err => [onError (caught err) (slice_to 120 payload)]
  end.

(** A line the parser skips. *)
Definition skipped_line (l : text) : Prop :=
  good_line l /\ parse_line onMessage_throws l = [].

Lemma lines_of_split (m : SSEMessage value number) (t : text) :
  exists header,
    lines_of m t = header ++ [lit "data: " ++ t]
    /\ (ecmascript_texts -> without_line_feed (id m) -> without_line_feed (event m) ->
        Forall skipped_line header).
Proof.
  unfold lines_of, push.
  exists (match id m with Some i => [lit "id: " ++ i] | None => [] end
          ++ match retry m with Some r => [lit "retry: " ++ Number_toString r] | None => [] end
          ++ match event m with Some e => [lit "event: " ++ e] | None => [] end).
  split; [destruct (id m), (retry m), (event m); reflexivity|].
  intros [_ Hn] Hi He.
  apply Forall_app; split; [|apply Forall_app; split].
  - destruct (id m) as [i|]; constructor; [|constructor].
    cbn in Hi. rewrite text_includes_NL_lf_free in Hi. apply negb_false_iff in Hi.
    split; [|reflexivity]. eexists _, _. repeat split.
    change (lit "id: " ++ i) with (lit "id: " ++ i). now rewrite text_lf_free_app, Hi.
  - destruct (retry m) as [r|]; constructor; [|constructor].
    split; [|reflexivity]. eexists _, _. repeat split.
    now rewrite text_lf_free_app, Hn.
  - destruct (event m) as [e|]; constructor; [|constructor].
    cbn in He. rewrite text_includes_NL_lf_free in He. apply negb_false_iff in He.
    split; [|reflexivity]. eexists _, _. repeat split.
    now rewrite text_lf_free_app, He.
Qed.

Lemma flat_map_skipped (ls : list text) :
  Forall skipped_line ls -> flat_map (parse_line onMessage_throws) ls = [].
Proof.
  induction 1 as [|l ls [_ Hl] _ IH]; [reflexivity|].
  cbn [flat_map]. now rewrite Hl, IH.
Qed.

Lemma data_line_read (v : value) (t : text) :
  JSON_parse t = inl v ->
  parse_line onMessage_throws (lit "data: " ++ t) = delivery v t.
Proof.
  intros P. unfold parse_line.
  change (startsWith (lit ":") (lit "data: " ++ t)) with false.
  rewrite text_startsWith_app. cbv iota.
  change (slice_from 6 (lit "data: " ++ t)) with t.
  now rewrite P.
Qed.

(** A frame of skipped lines and one last line that ends on a code unit
    [trim] keeps, read by a parser with an empty buffer: the calls are those
    of the last line, and the buffer is empty again. *)
Lemma frame_read (header : list text) (l : text) :
  Forall skipped_line header -> good_line l -> last_solid l = true ->
  parse onMessage_throws [] (join NL (header ++ [l]) ++ NLNL)
  = ([], parse_line onMessage_throws l).
Proof.
  intros Hh Dg Ds.
  set (lines := header ++ [l]).
  assert (NE : lines <> []) by (subst lines; now destruct header).
  assert (G : Forall good_line lines).
  { apply Forall_app. split; [|now constructor].
    eapply Forall_impl; [|exact Hh]. now intros x [H _]. }
  assert (Hsep : NLNL <> []) by discriminate.
  unfold parse. cbn [List.app].
  rewrite (text_split_some NLNL _ _ _ Hsep (text_frame_cut lines NE G)).
  rewrite (text_split_none NLNL [] eq_refl).
  cbn [last removelast flat_map]. rewrite List.app_nil_r. f_equal.
  unfold parse_message.
  assert (T : trim (join NL lines) = join NL lines).
  { unfold trim.
    assert (St : trimStart (join NL lines) = join NL lines).
    { destruct lines as [|x ls]; [easy|]. inversion G as [|? ? Hx _]; subst.
      destruct (text_good_line_join_head x ls [] Hx) as (c & r & E & Hc).
      rewrite List.app_nil_r in E. rewrite E. cbn [trimStart]. now rewrite Hc. }
    rewrite St. apply text_trimEnd_last_solid. subst lines.
    destruct (text_join_snoc NL header l) as [pre ->].
    rewrite text_last_solid_app; [exact Ds|].
    now destruct Dg as (? & ? & -> & _). }
  rewrite T.
  destruct (join NL lines) as [|c r] eqn:E.
  { destruct lines as [|x ls]; [easy|]. inversion G as [|? ? Hx _]; subst.
    destruct (text_good_line_join_head x ls [] Hx) as (c & r & E' & _).
    rewrite List.app_nil_r in E'. congruence. }
  rewrite <- E, text_split_join_lines; [|exact NE|].
  - subst lines. rewrite flat_map_app. cbn [flat_map]. rewrite List.app_nil_r.
    now rewrite (flat_map_skipped _ Hh).
  - eapply Forall_impl; [|exact G]. now intros x (? & ? & _ & _ & ?).
Qed.

(** A frame whose [id] and [event] hold no line feed and whose data the
    JSON of the platform writes and reads back, read by a parser with an
    empty buffer. *)
Lemma format_parse_frame (m : SSEMessage value number) (t : text) :
  ecmascript_texts ->
  without_line_feed (id m) -> without_line_feed (event m) ->
  JSON_stringify (data m) = json_text t -> JSON_parse t = inl (data m) ->
  exists wire,
    formatSSEMessage m = inl wire
    /\ parse onMessage_throws [] wire = ([], delivery (data m) t).
Proof.
  intros Hp Hi He Hs Hr. unfold formatSSEMessage. rewrite Hs.
  eexists. split; [reflexivity|].
  destruct (lines_of_split m t) as (header & -> & Hh).
  destruct (proj1 Hp _ _ Hs) as [Lf Ls].
  rewrite frame_read.
  - now rewrite (data_line_read _ _ Hr).
  - now apply Hh.
  - eexists _, _. repeat split. now rewrite text_lf_free_app, Lf.
  - rewrite text_last_solid_app; [exact Ls|]. now destruct t.
Qed.


(** ** Streams of frames *)

Lemma feed_chunks_app (buffer : text) (cs1 cs2 : list text) :
  feed onMessage_throws buffer (cs1 ++ cs2)
  = let (b1, calls1) := feed onMessage_throws buffer cs1 in
    let (b2, calls2) := feed onMessage_throws b1 cs2 in
    (b2, calls1 ++ calls2).
Proof.
  revert buffer. induction cs1 as [|c cs1 IH]; intros buffer.
  - cbn [List.app feed]. now destruct (feed onMessage_throws buffer cs2).
  - cbn [List.app feed]. destruct (parse onMessage_throws buffer c) as [b0 calls0].
    rewrite IH.
    destruct (feed onMessage_throws b0 cs1) as [b1 calls1].
    destruct (feed onMessage_throws b1 cs2) as [b2 calls2].
    now rewrite List.app_assoc.
Qed.

Lemma feed_chunks_concat (buffer c : text) (cs : list text) :
  feed onMessage_throws buffer (c :: cs) = feed onMessage_throws buffer [c ++ List.concat cs].
Proof.
  revert c. induction cs as [|c' cs IH]; intros c.
  - cbn [List.concat]. now rewrite List.app_nil_r.
  - change (c :: c' :: cs) with ([c; c'] ++ cs).
    rewrite feed_chunks_app, feed_pieces, <- feed_chunks_app.
    cbn [List.app List.concat]. now rewrite IH, List.app_assoc.
Qed.

(** A fresh parser fed a text in chunks makes the calls of a fresh parser
    fed the text whole. *)
Lemma createSSEParser_concat (chunks : list text) :
  createSSEParser onMessage_throws chunks
  = createSSEParser onMessage_throws [List.concat chunks].
Proof.
  unfold createSSEParser. destruct chunks as [|c cs]; [reflexivity|].
  now rewrite feed_chunks_concat.
Qed.

Lemma trimEnd_app (a b : text) :
  trimEnd (a ++ b) = match trimEnd b with [] => trimEnd a | _ :: _ => a ++ trimEnd b end.
Proof.
  induction a as [|c a IH]; [cbn [List.app]; now destruct (trimEnd b)|].
  cbn [List.app trimEnd]. rewrite IH.
  destruct (trimEnd b) as [|x r]; [reflexivity|].
  now destruct (a ++ x :: r) eqn:E; [destruct a; discriminate|].
Qed.

Lemma lf_free_trimEnd (s : text) : lf_free s = true -> lf_free (trimEnd s) = true.
Proof.
  induction s as [|c s IH]; [reflexivity|].
  cbn [lf_free trimEnd]. intros H. apply andb_true_iff in H as [Hc Hs].
  specialize (IH Hs). destruct (trimEnd s) as [|x r].
  - destruct (is_space c); [reflexivity|]. cbn [lf_free]. now rewrite Hc.
  - cbn [lf_free] in IH |- *. now rewrite Hc, IH.
Qed.

Lemma text_includes_false_lf_free (s : text) : includes NL s = false -> lf_free s = true.
Proof. rewrite text_includes_NL_lf_free. now destruct (lf_free s). Qed.

(** The text of an item on the wire. *)
Definition written (i : wire_item value number) (wire : text) : Prop :=
  match i with
  | data_frame m => formatSSEMessage m = inl wire
  | heartbeat_frame message => wire = heartbeat_text message
  | data_line_frame payload => wire = lit "data: " ++ payload ++ NLNL
  end.

(** The calls the parser is to make for an item. The payload of a data line
    reaches [JSON.parse] without its trailing white space, and not at all
    when nothing else is in it. *)
Definition wire_calls (i : wire_item value number) : list (callback value) :=
  match i with
  | data_frame m => delivery (data m) match JSON_stringify (data m) with
                                      | json_text t => t
                                      | _ => []
                                      end
  | heartbeat_frame _ => []
  | data_line_frame payload =>
      match trimEnd payload with
      | [] => []
      | (_ :: _) as p =>
          match JSON_parse p with
          | inl v => delivery v p
          | inr err => [onError err (slice_to 120 p)]
          end
      end
  end.

(** No line feed in the texts that are written verbatim, and frames whose
    data JSON writes and reads back. *)
Definition well_formed (i : wire_item value number) : Prop :=
  match i with
  | data_frame m =>
      without_line_feed (id m) /\ without_line_feed (event m)
      /\ exists t, JSON_stringify (data m) = json_text t /\ JSON_parse t = inl (data m)
  | heartbeat_frame message => without_line_feed message
  | data_line_frame payload => includes NL payload = false
  end.

(** A message made of good lines, the last ending in a code unit [trim]
    keeps, is read line by line. *)
Lemma message_lines (lines : list text) :
  Forall good_line lines ->
  (exists pre d, lines = pre ++ [d] /\ last_solid d = true) ->
  parse_message onMessage_throws (join NL lines)
  = flat_map (parse_line onMessage_throws) lines.
Proof.
  intros G (pre & d & E & Ds).
  assert (NE : lines <> []) by (subst lines; now destruct pre).
  assert (H : exists c r, join NL lines = c :: r /\ is_space c = false).
  { destruct lines as [|l ls]; [easy|]. inversion G as [|? ? Hl _]; subst.
    destruct (text_good_line_join_head l ls [] Hl) as (c & r & E' & Hc).
    rewrite List.app_nil_r in E'. now exists c, r. }
  destruct H as (c & r & Ej & Hc).
  assert (T : trim (join NL lines) = join NL lines).
  { unfold trim. replace (trimStart (join NL lines)) with (join NL lines)
      by (rewrite Ej; cbn [trimStart]; now rewrite Hc).
    apply text_trimEnd_last_solid. rewrite E.
    destruct (text_join_snoc NL pre d) as [pre' ->].
    rewrite text_last_solid_app; [exact Ds | now destruct d]. }
  unfold parse_message. rewrite T, Ej, <- Ej.
  rewrite text_split_join_lines; [reflexivity | exact NE |].
  eapply Forall_impl; [|exact G]. now intros l (? & ? & _ & _ & ?).
Qed.

(** The message of a well formed item, between two terminators: it holds no
    double line feed, and read as a message it makes the calls of the item. *)
Lemma item_message (i : wire_item value number) (wire : text) :
  ecmascript_texts -> well_formed i -> written i wire ->
  exists message,
    wire = message ++ NLNL
    /\ cut NLNL wire = Some (message, [])
    /\ parse_message onMessage_throws message = wire_calls i.
Proof.
  intros Hp W Wr. destruct i as [m | message | payload]; cbn [well_formed written wire_calls] in *.
  - destruct W as (Hi & He & t & Hs & Hr). unfold formatSSEMessage in Wr.
    rewrite Hs in Wr |- *. injection Wr as <-.
    destruct (lines_of_split m t) as (header & E & Hh). specialize (Hh Hp Hi He).
    destruct (proj1 Hp _ _ Hs) as [Lf Ls].
    assert (Dg : good_line (lit "data: " ++ t)).
    { eexists _, _. repeat split. now rewrite text_lf_free_app, Lf. }
    assert (Ds : last_solid (lit "data: " ++ t) = true).
    { rewrite text_last_solid_app; [exact Ls | now destruct t]. }
    assert (G : Forall good_line (lines_of m t)).
    { rewrite E. apply Forall_app. split; [|now constructor].
      eapply Forall_impl; [|exact Hh]. now intros x [H _]. }
    exists (join NL (lines_of m t)). split; [reflexivity|]. split.
    + apply text_frame_cut; [rewrite E; now destruct header | exact G].
    + rewrite message_lines; [|exact G | rewrite E; now exists header, (lit "data: " ++ t)].
      rewrite E, flat_map_app. cbn [flat_map].
      now rewrite (flat_map_skipped _ Hh), List.app_nil_r, (data_line_read _ _ Hr).
  - subst wire. unfold heartbeat_text.
    set (msg := match message with Some m => m | None => lit "heartbeat" end).
    assert (L : lf_free msg = true).
    { subst msg. destruct message as [m|]; [now apply text_includes_false_lf_free | reflexivity]. }
    exists (lit ": [" ++ msg ++ lit "]").
    assert (G : good_line (lit ": [" ++ msg ++ lit "]")).
    { eexists _, _. repeat split. now rewrite !text_lf_free_app, L. }
    split; [now rewrite <- !List.app_assoc|]. split.
    + rewrite !List.app_assoc.
      change (((lit ": [" ++ msg) ++ lit "]") ++ NLNL)
        with (join NL [(lit ": [" ++ msg) ++ lit "]"] ++ NLNL).
      rewrite <- List.app_assoc.
      apply (text_frame_cut [lit ": [" ++ msg ++ lit "]"]); [discriminate | now constructor].
    + change (lit ": [" ++ msg ++ lit "]") with (join NL [lit ": [" ++ msg ++ lit "]"]).
      rewrite message_lines; [reflexivity | now constructor |].
      exists [], (lit ": [" ++ msg ++ lit "]"). split; [reflexivity|].
      rewrite List.app_assoc. now rewrite text_last_solid_app.
  - subst wire. apply text_includes_false_lf_free in W.
    exists (lit "data: " ++ payload).
    assert (G : good_line (lit "data: " ++ payload)).
    { eexists _, _. repeat split. now rewrite text_lf_free_app, W. }
    split; [now rewrite <- !List.app_assoc|]. split.
    + rewrite List.app_assoc.
      apply (text_frame_cut [lit "data: " ++ payload]); [discriminate | now constructor].
    + unfold parse_message, trim.
      change (trimStart (lit "data: " ++ payload)) with (lit "data: " ++ payload).
      rewrite trimEnd_app.
      pose proof (lf_free_trimEnd _ W) as Lp.
      destruct (trimEnd payload) as [|c p]; [reflexivity|].
      change (lit "data: " ++ c :: p) with (100%N :: skipn 1 (lit "data: ") ++ c :: p).
      cbv iota.
      change (100%N :: skipn 1 (lit "data: ") ++ c :: p) with (lit "data: " ++ c :: p).
      rewrite text_split_none.
      * cbn [flat_map]. rewrite List.app_nil_r. unfold parse_line.
        change (startsWith (lit ":") (lit "data: " ++ c :: p)) with false.
        rewrite text_startsWith_app. cbv iota.
        change (slice_from 6 (lit "data: " ++ c :: p)) with (c :: p).
        now destruct (JSON_parse (c :: p)).
      * pose proof (text_cut_lf_free [] (lit "data: " ++ c :: p) []) as C.
        rewrite List.app_nil_r in C. apply C. now rewrite text_lf_free_app, Lp.
Qed.

Lemma last_cons_nonempty {A : Type} (x : A) (l : list A) (d : A) :
  l <> [] -> last (x :: l) d = last l d.
Proof. now destruct l. Qed.

Lemma removelast_cons_nonempty {A : Type} (x : A) (l : list A) :
  l <> [] -> removelast (x :: l) = x :: removelast l.
Proof. now destruct l. Qed.

(** A well formed item at the head of a text: the parser makes its calls,
    then those of the rest. *)
Lemma item_then_rest (i : wire_item value number) (wire rest : text) :
  ecmascript_texts -> well_formed i -> written i wire ->
  parse onMessage_throws [] (wire ++ rest)
  = (fst (parse onMessage_throws [] rest),
     wire_calls i ++ snd (parse onMessage_throws [] rest)).
Proof.
  intros Hp W Wr. destruct (item_message i wire Hp W Wr) as (message & E & C & P).
  assert (Hsep : NLNL <> []) by discriminate.
  unfold parse. cbn [List.app fst snd].
  rewrite (text_split_some NLNL _ _ _ Hsep (text_cut_app _ _ rest _ _ C)).
  cbn [List.app].
  rewrite (last_cons_nonempty _ _ _ (text_split_nonempty _ _)).
  rewrite (removelast_cons_nonempty _ _ (text_split_nonempty _ _)).
  cbn [flat_map]. now rewrite P.
Qed.

Lemma items_read (items : list (wire_item value number)) (texts : list text) :
  ecmascript_texts -> Forall well_formed items -> Forall2 written items texts ->
  parse onMessage_throws [] (List.concat texts) = ([], flat_map wire_calls items).
Proof.
  intros Hp W F. induction F as [|i w items texts Wr _ IH]; [reflexivity|].
  inversion W as [|? ? Wi Ws]; subst.
  cbn [List.concat flat_map]. rewrite (item_then_rest i w _ Hp Wi Wr), (IH Ws).
  reflexivity.
Qed.

(* ================================================================== *)
(** * Claims about the codec *)
(* ================================================================== *)

(** C1, as the code has it. On a platform whose texts are those of
    ECMAScript, for every frame whose [id] and [event] hold no line feed and
    whose data is JSON-serializable ([JSON.stringify] returns a text, and
    [JSON.parse] reads that text back as the data): [formatSSEMessage]
    returns a text, and a fresh parser fed that text calls [onMessage]
    exactly once, with the frame's data; it calls [onError] only if that
    call of [onMessage] throws, with what was thrown and the first 120 code
    units of the JSON text; and it is left with an empty buffer. *)
Theorem codec_round_trip (m : SSEMessage value number) (t : text) :
  ecmascript_texts ->
  without_line_feed (id m) -> without_line_feed (event m) ->
  JSON_stringify (data m) = json_text t -> JSON_parse t = inl (data m) ->
  exists wire,
    formatSSEMessage m = inl wire
    /\ createSSEParser onMessage_throws [wire]
       = ([], onMessage (data m) ::
              match onMessage_throws (data m) with
              | None => []
              | Some err => [onError (caught err) (slice_to 120 t)]
              end)
    /\ messages_of (snd (createSSEParser onMessage_throws [wire])) = [data m].
Proof.
  intros Hp Hi He Hs Hr.
  destruct (format_parse_frame m t Hp Hi He Hs Hr) as (wire & Hw & P).
  exists wire. split; [exact Hw|].
  assert (E : createSSEParser onMessage_throws [wire] = ([], delivery (data m) t)).
  { unfold createSSEParser. cbn [feed]. rewrite P. now rewrite List.app_nil_r. }
  split; [exact E|]. rewrite E. unfold delivery. cbn [snd messages_of].
  now destruct (onMessage_throws (data m)).
Qed.

(** C2, as the code has it. For every text and every split position: feeding
    the two pieces one after the other makes the calls of feeding the text
    whole and leaves the same buffer; a call of the parser after which no
    double line feed has arrived parses nothing and calls nothing; and when
    the text is that of a frame whose [id] and [event] hold no line feed and
    whose data is JSON-serializable, on a platform whose texts are those of
    ECMAScript, the two pieces together make exactly one [onMessage] call,
    with the frame's data, followed by an [onError] call only if that
    [onMessage] throws. *)
Theorem chunk_split_invariance (wire : text) (n : nat) :
  createSSEParser onMessage_throws [slice_to n wire; slice_from n wire]
  = createSSEParser onMessage_throws [wire]
  /\ (forall buffer chunk : text,
        includes NLNL (buffer ++ chunk) = false ->
        parse onMessage_throws buffer chunk = (buffer ++ chunk, []))
  /\ (forall (m : SSEMessage value number) (t : text),
        formatSSEMessage m = inl wire ->
        ecmascript_texts ->
        without_line_feed (id m) -> without_line_feed (event m) ->
        JSON_stringify (data m) = json_text t -> JSON_parse t = inl (data m) ->
        createSSEParser onMessage_throws [slice_to n wire; slice_from n wire]
        = ([], onMessage (data m) ::
               match onMessage_throws (data m) with
               | None => []
               | Some err => [onError (caught err) (slice_to 120 t)]
               end)).
Proof.
  assert (E : createSSEParser onMessage_throws [slice_to n wire; slice_from n wire]
              = createSSEParser onMessage_throws [wire]).
  { unfold createSSEParser. now rewrite feed_pieces, text_slice_to_from. }
  split; [exact E|]. split.
  - intros buffer chunk H. apply parse_holds_back. now apply text_cut_none_includes.
  - intros m t Hw Hp Hi He Hs Hr. rewrite E.
    destruct (format_parse_frame m t Hp Hi He Hs Hr) as (wire' & Hw' & P).
    assert (wire' = wire) by congruence. subst wire'.
    unfold createSSEParser. cbn [feed]. rewrite P. now rewrite List.app_nil_r.
Qed.

(** X2. A stream of frames of [formatSSEMessage] ([id] and [event] without
    line feed, JSON-serializable data), heartbeat comments (message without
    line feed) and data lines written by other means (any payload without
    line feed), cut into chunks anywhere, on a platform whose texts are those
    of ECMAScript. The parser calls [onMessage] with the data of every
    frame. The payload of a data line reaches [JSON.parse] without its
    trailing white space: no call when nothing is left of it, [onMessage]
    when it parses, [onError] with the error and its first 120 code units
    when it does not. After an [onMessage] that throws comes an [onError]
    with what was thrown. The calls come in the order of arrival, a
    heartbeat makes none, a line that does not parse does not stop the
    parser, and the buffer is empty at the end. *)
Theorem stream_of_frames (items : list (wire_item value number)) (texts chunks : list text) :
  ecmascript_texts ->
  Forall well_formed items -> Forall2 written items texts ->
  List.concat chunks = List.concat texts ->
  createSSEParser onMessage_throws chunks = ([], flat_map wire_calls items).
Proof.
  intros Hp W F E. rewrite createSSEParser_concat, E.
  unfold createSSEParser. cbn [feed].
  rewrite (items_read items texts Hp W F). now rewrite List.app_nil_r.
Qed.

End WireFacts.

(** ** The JSON of the embedding is a platform of this kind *)

Lemma narrow_widen (s : string) : Utf16.narrow (Utf16.widen s) = Some s.
Proof.
  induction s as [|c s IH]; [reflexivity|].
  unfold Utf16.widen, Utf16.lit in *. cbn [list_ascii_of_string map Utf16.narrow].
  rewrite IH. pose proof (N_ascii_bounded c) as B. apply N.ltb_lt in B. rewrite B.
  now rewrite ascii_N_embedding.
Qed.

Lemma lf_free_widen (s : string) : Utf16.lf_free (Utf16.widen s) = lf_free s.
Proof.
  induction s as [|c s IH]; [reflexivity|].
  unfold Utf16.widen, Utf16.lit in *. cbn [list_ascii_of_string map Utf16.lf_free lf_free].
  rewrite IH. f_equal. now destruct c as [[] [] [] [] [] [] [] []].
Qed.

Lemma last_solid_widen (s : string) : Utf16.last_solid (Utf16.widen s) = last_solid s.
Proof.
  induction s as [|c s IH]; [reflexivity|].
  destruct s as [|d s].
  - now destruct c as [[] [] [] [] [] [] [] []].
  - exact IH.
Qed.

Lemma small_platform_texts : ecmascript_texts (platform := Wire.small_platform).
Proof.
  split.
  - intros v t [= <-]. rewrite lf_free_widen, last_solid_widen.
    now rewrite lf_free_stringify, last_solid_stringify.
  - intros n. cbn. rewrite lf_free_widen. apply show_int_shape.
Qed.

Lemma small_platform_round_trip (v : json) :
  Wire.JSON_parse (Platform := Wire.small_platform) (Utf16.widen (stringify v)) = inl v.
Proof. cbn. now rewrite narrow_widen, parse_stringify. Qed.

(** A frame with every field set. *)
Definition delta_frame : Wire.SSEMessage json Z :=
  Wire.mkSSEMessage (Some (Utf16.lit "42")) (Some (Utf16.lit "delta"))
    (JObject [("text", JString "Hello"); ("n", JArray [JNumber (-7); JBool true; JNull])])
    (Some 3000%Z).

(** A frame whose [id] holds a line feed followed by a data line of its own. *)
Definition injected_frame : Wire.SSEMessage json Z :=
  Wire.mkSSEMessage (Some (Utf16.lit "x" ++ Utf16.NL ++ Utf16.lit "data: 1")%list) None JNull None.

(** The text [formatSSEMessage] returns for a frame of the embedding's JSON. *)
Definition frame_text (m : Wire.SSEMessage json Z) : Utf16.text :=
  match Wire.formatSSEMessage (platform := Wire.small_platform) m with
  | inl wire => wire
  | inr _ => []
  end.

(** An [onMessage] that never throws, and one that throws a string when it is
    given the number 7. *)
Definition quiet_handler (v : json) : option Js.thrown := None.

Definition touchy_handler (v : json) : option Js.thrown :=
  match v with
  | JNumber 7 => Some (Js.not_error (JString "seven"))
  | _ => None
  end.

Lemma codec_round_trip_witness :
  ecmascript_texts (platform := Wire.small_platform)
  /\ without_line_feed (Wire.id delta_frame)
  /\ without_line_feed (Wire.event delta_frame)
  /\ Wire.JSON_stringify (Platform := Wire.small_platform) (Wire.data delta_frame)
     = Wire.json_text (Utf16.widen (stringify (Wire.data delta_frame)))
  /\ Wire.JSON_parse (Platform := Wire.small_platform) (Utf16.widen (stringify (Wire.data delta_frame)))
     = inl (Wire.data delta_frame)
  /\ exists wire,
       Wire.formatSSEMessage (platform := Wire.small_platform) delta_frame = inl wire
       /\ Wire.createSSEParser (platform := Wire.small_platform) quiet_handler [wire]
          = ([], [Wire.onMessage (Wire.data delta_frame)])
       /\ Wire.messages_of (snd (Wire.createSSEParser (platform := Wire.small_platform) quiet_handler [wire]))
          = [Wire.data delta_frame].
Proof.
  split; [exact small_platform_texts|].
  split; [vm_compute; reflexivity|]. split; [vm_compute; reflexivity|].
  split; [reflexivity|]. split; [vm_compute; reflexivity|].
  apply (codec_round_trip (platform := Wire.small_platform) quiet_handler delta_frame
           (Utf16.widen (stringify (Wire.data delta_frame))));
    [exact small_platform_texts | vm_compute; reflexivity ..].
Defined.

(** C1 as stated fails: the frame [{ id: "x\ndata: 1", data: null }] is
    written as three lines, two of them data lines, and the parser calls
    [onMessage] twice, first with [1] and then with [null]. *)
Lemma codec_round_trip_counterexample :
  snd (Wire.createSSEParser (platform := Wire.small_platform) quiet_handler [frame_text injected_frame])
  = [Wire.onMessage (JNumber 1); Wire.onMessage JNull]
  /\ ~ (forall (platform : Wire.Platform)
               (onMessage_throws : Wire.value -> option Js.thrown)
               (m : Wire.SSEMessage Wire.value Wire.number) (t : Utf16.text),
          ecmascript_texts ->
          Wire.JSON_stringify (Wire.data m) = Wire.json_text t ->
          Wire.JSON_parse t = inl (Wire.data m) ->
          exists wire,
            Wire.formatSSEMessage m = inl wire
            /\ Wire.messages_of (snd (Wire.createSSEParser onMessage_throws [wire]))
               = [Wire.data m]).
Proof.
  split; [vm_compute; reflexivity|].
  intros H.
  destruct (H Wire.small_platform quiet_handler injected_frame
              (Utf16.widen (stringify JNull)) small_platform_texts eq_refl eq_refl)
    as (wire & Hw & M).
  vm_compute in Hw. injection Hw as <-. vm_compute in M. discriminate M.
Qed.

Lemma chunk_split_invariance_witness :
  let wire := frame_text delta_frame in
  Utf16.includes Utf16.NLNL ([] ++ Utf16.slice_to 17 wire)%list = false
  /\ Wire.formatSSEMessage (platform := Wire.small_platform) delta_frame = inl wire
  /\ ecmascript_texts (platform := Wire.small_platform)
  /\ without_line_feed (Wire.id delta_frame)
  /\ without_line_feed (Wire.event delta_frame)
  /\ Wire.parse (platform := Wire.small_platform) quiet_handler [] (Utf16.slice_to 17 wire)
     = (([] ++ Utf16.slice_to 17 wire)%list, [])
  /\ Wire.createSSEParser (platform := Wire.small_platform) quiet_handler [Utf16.slice_to 17 wire; Utf16.slice_from 17 wire]
     = ([], [Wire.onMessage (Wire.data delta_frame)]).
Proof.
  intros wire.
  split; [vm_compute; reflexivity|]. split; [vm_compute; reflexivity|].
  split; [exact small_platform_texts|].
  split; [vm_compute; reflexivity|]. split; [vm_compute; reflexivity|].
  destruct (chunk_split_invariance (platform := Wire.small_platform) quiet_handler wire 17) as (_ & W & O).
  split; [apply W; vm_compute; reflexivity|].
  apply (O delta_frame (Utf16.widen (stringify (Wire.data delta_frame))));
    [vm_compute; reflexivity | exact small_platform_texts | vm_compute; reflexivity ..].
Defined.

(** C2 as stated fails: cut after its third code unit, the text of the frame
    [{ id: "x\ndata: 1", data: null }] makes two [onMessage] calls. *)
Lemma chunk_split_invariance_counterexample :
  snd (Wire.createSSEParser (platform := Wire.small_platform) quiet_handler
         [Utf16.slice_to 3 (frame_text injected_frame);
          Utf16.slice_from 3 (frame_text injected_frame)])
  = [Wire.onMessage (JNumber 1); Wire.onMessage JNull]
  /\ ~ (forall (platform : Wire.Platform)
               (onMessage_throws : Wire.value -> option Js.thrown)
               (m : Wire.SSEMessage Wire.value Wire.number) (t wire : Utf16.text) (n : nat),
          ecmascript_texts ->
          Wire.JSON_stringify (Wire.data m) = Wire.json_text t ->
          Wire.JSON_parse t = inl (Wire.data m) ->
          Wire.formatSSEMessage m = inl wire ->
          Wire.messages_of
            (snd (Wire.createSSEParser onMessage_throws
                    [Utf16.slice_to n wire; Utf16.slice_from n wire]))
          = [Wire.data m]).
Proof.
  split; [vm_compute; reflexivity|].
  intros H.
  specialize (H Wire.small_platform quiet_handler injected_frame
                (Utf16.widen (stringify JNull)) (frame_text injected_frame) 3
                small_platform_texts eq_refl eq_refl eq_refl).
  vm_compute in H. discriminate H.
Qed.

(** A heartbeat, a frame, a line that is not JSON and ends in two spaces, a
    line of spaces, and a frame with the number 7, at which [onMessage]
    throws; cut in the middle of the first frame and inside the terminator
    of the line that is not JSON. *)
Lemma stream_of_frames_witness :
  let items := [Wire.heartbeat_frame None; Wire.data_frame delta_frame;
                Wire.data_line_frame (Utf16.lit "not valid json  ");
                Wire.data_line_frame (Utf16.lit "   ");
                Wire.data_frame (Wire.mkSSEMessage (T := json) (number := Z)
                              None None (JNumber 7) None)] in
  let texts := [Wire.heartbeat_text None; frame_text delta_frame;
                Utf16.lit "data: not valid json  " ++ Utf16.NLNL;
                Utf16.lit "data:    " ++ Utf16.NLNL;
                Utf16.lit "data: 7" ++ Utf16.NLNL]%list in
  let stream := List.concat texts in
  Wire.createSSEParser (platform := Wire.small_platform) touchy_handler
    [Utf16.slice_to 30 stream; Utf16.slice_to 90 (Utf16.slice_from 30 stream);
     Utf16.slice_from 90 (Utf16.slice_from 30 stream)]
  = ([], [Wire.onMessage (Wire.data delta_frame);
          Wire.onError Wire.SyntaxError (Utf16.lit "not valid json");
          Wire.onMessage (JNumber 7);
          Wire.onError (Js.new_Error "JSON parse error") (Utf16.lit "7")]).
Proof.
  intros items texts stream.
  apply (stream_of_frames (platform := Wire.small_platform) touchy_handler items texts).
  - exact small_platform_texts.
  - repeat (apply Forall_cons); [| | | | | apply Forall_nil].
    + exact I.
    + split; [vm_compute; reflexivity|]. split; [vm_compute; reflexivity|].
      eexists. split; [reflexivity | vm_compute; reflexivity].
    + vm_compute; reflexivity.
    + vm_compute; reflexivity.
    + split; [exact I|]. split; [exact I|].
      eexists. split; [reflexivity | vm_compute; reflexivity].
  - repeat (apply Forall2_cons); [| | | | | apply Forall2_nil];
      try reflexivity; vm_compute; reflexivity.
  - vm_compute. reflexivity.
Defined.

(* ================================================================== *)
(** * Facts and claims about the circuit breaker *)
(* ================================================================== *)

Section BreakerFacts.

Import Js Breaker.
Local Open Scope Z_scope.

Variable config : CircuitBreakerConfig.

Lemma state_setState (s : CircuitState) (b : Breaker) : state (setState s b) = s.
Proof. unfold setState. destruct (state b) eqn:E, s; cbn; congruence. Qed.

Lemma failures_setState (s : CircuitState) (b : Breaker) :
  failures (setState s b) = failures b.
Proof. unfold setState. now destruct (state_eqb (state b) s). Qed.

Lemma failures_recordFailure (now : Z) (e : thrown) (b : Breaker) :
  failures (recordFailure config now e b) = failures b + 1.
Proof.
  unfold recordFailure. cbn [failures].
  destruct (failureThreshold config <=? failures b + 1); [|reflexivity].
  unfold scheduleHalfOpen. cbn [failures]. now rewrite failures_setState.
Qed.

Lemma state_recordFailure (now : Z) (e : thrown) (b : Breaker) :
  state (recordFailure config now e b)
  = if failureThreshold config <=? failures b + 1 then open else state b.
Proof.
  unfold recordFailure. cbn [failures].
  destruct (failureThreshold config <=? failures b + 1); [|reflexivity].
  unfold scheduleHalfOpen. cbn [state]. apply state_setState.
Qed.

(** Below the threshold a closed breaker stays closed and counts. *)
Lemma record_failures_below (fs : list (Z * thrown)) (b : Breaker) :
  state b = closed ->
  failures b + Z.of_nat (List.length fs) < failureThreshold config ->
  state (record_failures config fs b) = closed
  /\ failures (record_failures config fs b) = failures b + Z.of_nat (List.length fs).
Proof.
  revert b. induction fs as [|[now e] fs IH]; intros b Hs Hf.
  - cbn. split; [assumption | lia].
  - cbn [record_failures]. cbn [List.length] in Hf.
    destruct (IH (recordFailure config now e b)) as [S F].
    + rewrite state_recordFailure.
      destruct (Z.leb_spec (failureThreshold config) (failures b + 1)); [lia | assumption].
    + rewrite failures_recordFailure. lia.
    + split; [exact S|]. rewrite F, failures_recordFailure. cbn [List.length]. lia.
Qed.

(** C3. A breaker made with [failureThreshold = N]: after any run of fewer
    than N recorded failures from the initial state [getState()] is
    ['closed'], and when a failure is recorded as the N-th of such a run
    [getState()] is ['open']. *)
Theorem failure_threshold :
  (forall fs : list (Z * thrown),
      Z.of_nat (List.length fs) < failureThreshold config ->
      getState (record_failures config fs initial) = closed)
  /\ (forall (fs : list (Z * thrown)) (now : Z) (e : thrown),
         Z.of_nat (List.length fs) + 1 = failureThreshold config ->
         getState (recordFailure config now e (record_failures config fs initial)) = open).
Proof.
  split.
  - intros fs H. apply record_failures_below; [reflexivity | cbn; lia].
  - intros fs now e H.
    destruct (record_failures_below fs initial) as [S F]; [reflexivity | cbn; lia |].
    unfold getState. rewrite state_recordFailure, F. cbn [failures initial].
    destruct (Z.leb_spec (failureThreshold config) (0 + Z.of_nat (List.length fs) + 1));
      [reflexivity | lia].
Qed.

End BreakerFacts.

(** The first two failures of a breaker with the default threshold of three,
    and the third. *)
Lemma failure_threshold_witness :
  let fs := [(1000%Z, Js.error (Js.new_Error "fail"));
             (2000%Z, Js.error (Js.new_Error "fail"))] in
  Breaker.getState
    (Breaker.record_failures Breaker.DEFAULT_CIRCUIT_BREAKER_CONFIG fs Breaker.initial)
  = Breaker.closed
  /\ Breaker.getState
       (Breaker.recordFailure Breaker.DEFAULT_CIRCUIT_BREAKER_CONFIG 3000%Z
          (Js.error (Js.new_Error "fail"))
          (Breaker.record_failures Breaker.DEFAULT_CIRCUIT_BREAKER_CONFIG fs Breaker.initial))
     = Breaker.open.
Proof.
  intros fs.
  destruct (failure_threshold Breaker.DEFAULT_CIRCUIT_BREAKER_CONFIG) as [Below At].
  split; [apply Below | apply At]; reflexivity.
Defined.

Section BreakerExecute.

Import Js Breaker.
Local Open Scope Z_scope.

Variable config : CircuitBreakerConfig.
Variable isFailure_option : option (thrown -> bool).

(** An open breaker refuses: the operation is not invoked, the breaker is
    left as it is, and the promise is rejected with a [CircuitOpenError]
    that carries the failure count. *)
Lemma open_refuses {T : Type} (now later : Z) (outcome : settled T) (b : Breaker) :
  getState b = open ->
  execute config isFailure_option now later outcome b
  = (b, rejects (error (refusal config now b)), O)
  /\ name (refusal config now b) = "CircuitOpenError"
  /\ In ("failures", JNumber (getFailures b)) (fields (refusal config now b)).
Proof.
  unfold getState, execute, execute_start, canPass. intros ->.
  split; [reflexivity|]. split; [reflexivity|]. cbn. auto.
Qed.

(** A closed or half-open breaker invokes the operation, once. *)
Lemma not_open_invokes {T : Type} (now later : Z) (outcome : settled T) (b : Breaker) :
  getState b = closed \/ getState b = half_open ->
  execute_start config now b = invoked
  /\ snd (execute config isFailure_option now later outcome b) = 1%nat.
Proof.
  unfold getState, execute, execute_start, canPass.
  intros [-> | ->]; cbn; now destruct (execute_settle _ _ _ _ _).
Qed.

(** What happens to a breaker between two calls of [execute], [forceOpen]
    apart. The timer fires only while it is pending. *)
Inductive event : Type :=
| failure_recorded (now : Z) (e : thrown)
| success_recorded
| timer_fired
| reset_called.

Definition step (ev : event) (b : Breaker) : Breaker :=
  match ev with
  | failure_recorded now e => recordFailure config now e b
  | success_recorded => recordSuccess config b
  | timer_fired => match resetTimeout b with Some _ => timer_fires b | None => b end
  | reset_called => reset b
  end.

(** While the breaker is open its timer is pending, due [resetTimeoutMs]
    after the last failure, and the failures have reached the threshold;
    otherwise no timer is pending. *)
Definition timer_consistent (b : Breaker) : Prop :=
  match state b with
  | open => resetTimeout b = Some (lastFailureTime b + resetTimeoutMs config)
            /\ failureThreshold config <= failures b
  | _ => resetTimeout b = None
  end.

Lemma setState_fields (s : CircuitState) (b : Breaker) :
  failures (setState s b) = failures b /\ successes (setState s b) = successes b
  /\ lastFailureTime (setState s b) = lastFailureTime b
  /\ resetTimeout (setState s b) = resetTimeout b.
Proof. unfold setState. now destruct (state_eqb (state b) s). Qed.

Lemma step_timer_consistent (ev : event) (b : Breaker) :
  timer_consistent b -> timer_consistent (step ev b).
Proof.
  unfold timer_consistent. intros H. destruct ev as [now e | | |]; cbn [step].
  - unfold recordFailure. cbn [failures].
    destruct (Z.leb_spec (failureThreshold config) (failures b + 1)) as [L|L].
    + unfold scheduleHalfOpen. cbn [state resetTimeout lastFailureTime failures].
      rewrite state_setState.
      destruct (setState_fields open
                  (mkBreaker (state b) (failures b + 1) (successes b) now (resetTimeout b)
                     (calls b ++ [onFailure e (failures b + 1)]))) as (-> & _ & -> & _).
      cbn. split; [reflexivity | lia].
    + cbn [state resetTimeout lastFailureTime failures].
      destruct (state b); [assumption | lia | assumption].
  - unfold recordSuccess. destruct (state b) eqn:S; cbn [state]; try rewrite S; try assumption.
    cbn [successes]. destruct (successThreshold config <=? successes b + 1).
    + unfold call_onSuccess, reset. cbn [state resetTimeout calls].
      rewrite state_setState.
      match goal with
      | |- resetTimeout (setState closed ?x) = None =>
          now destruct (setState_fields closed x) as (_ & _ & _ & ->)
      end.
    + cbn [state]. assumption.
  - revert H. destruct (resetTimeout b) eqn:R; intros H; [|rewrite R; exact H].
    unfold timer_fires. cbn [state resetTimeout]. now rewrite state_setState.
  - unfold reset. rewrite state_setState.
    match goal with
    | |- resetTimeout (setState closed ?x) = None =>
        now destruct (setState_fields closed x) as (_ & _ & _ & ->)
    end.
Qed.

Lemma run_timer_consistent (evs : list event) :
  timer_consistent (fold_left (fun b ev => step ev b) evs initial).
Proof.
  assert (G : forall b, timer_consistent b ->
                        timer_consistent (fold_left (fun b ev => step ev b) evs b)).
  { induction evs as [|ev evs IH]; intros b H; [exact H|].
    cbn [fold_left]. apply IH, step_timer_consistent, H. }
  apply G. reflexivity.
Qed.

(** However an open breaker was reached without [forceOpen], the error of a
    refusal carries the time left until its timer is due. *)
Lemma refusal_carries_remaining_time (evs : list event) (now : Z) :
  let b := fold_left (fun b ev => step ev b) evs initial in
  getState b = open ->
  exists due, resetTimeout b = Some due
              /\ In ("resetTimeoutMs", JNumber (Z.max 0 (due - now)))
                    (fields (refusal config now b)).
Proof.
  intros b S. pose proof (run_timer_consistent evs) as H. fold b in H.
  unfold timer_consistent, getState in *. rewrite S in H. destruct H as [R _].
  eexists. split; [exact R|]. cbn. left. do 2 f_equal. lia.
Qed.

(** C5, as the code has it. With no [isFailure] predicate given, when the
    operation rejects with a value [t]: the promise of [execute] is rejected
    with [t] itself; if [t] is an instance of [Error] the failure is
    recorded, the failure count going up by one; if it is not, the breaker is
    left as it was. *)
Theorem default_failure_counting {T : Type} (now : Z) (t : thrown) (b : Breaker) :
  let (b', r) := execute_settle (T := T) config None now (rejects t) b in
  r = rejects t
  /\ (instanceof_Error t = true ->
      b' = recordFailure config now t b /\ getFailures b' = getFailures b + 1)
  /\ (instanceof_Error t = false -> b' = b).
Proof.
  cbn [execute_settle]. rewrite andb_true_r.
  split; [reflexivity|]. split; intros ->; [|reflexivity].
  split; [reflexivity | apply failures_recordFailure].
Qed.

End BreakerExecute.

Lemma default_failure_counting_witness :
  let t := Js.error (Js.new_Error "fail") in
  let b' := fst (Breaker.execute_settle (T := json) Breaker.DEFAULT_CIRCUIT_BREAKER_CONFIG
                   None 1000%Z (Js.rejects t) Breaker.initial) in
  Js.instanceof_Error t = true /\ Breaker.getFailures b' = 1%Z.
Proof.
  intros t b'. split; [reflexivity|].
  pose proof (default_failure_counting (T := json) Breaker.DEFAULT_CIRCUIT_BREAKER_CONFIG
                1000%Z t Breaker.initial) as H.
  cbv zeta in H. fold b' in H.
  destruct (Breaker.execute_settle Breaker.DEFAULT_CIRCUIT_BREAKER_CONFIG None 1000%Z
              (Js.rejects t) Breaker.initial) as [b1 r] eqn:E.
  destruct H as (_ & Rec & _). subst b'. cbn [fst].
  destruct (Rec eq_refl) as [_ ->]. reflexivity.
Defined.

(** C5 as stated fails: an operation that throws the string ["boom"] is not
    counted. *)
Lemma default_failure_counting_counterexample :
  let b' := fst (Breaker.execute_settle (T := json) Breaker.DEFAULT_CIRCUIT_BREAKER_CONFIG
                   None 1000%Z (Js.rejects (Js.not_error (JString "boom")))
                   Breaker.initial) in
  Breaker.getFailures b' = 0%Z
  /\ ~ (forall (t : Js.thrown) (b : Breaker.Breaker),
          Breaker.getFailures
            (fst (Breaker.execute_settle (T := json) Breaker.DEFAULT_CIRCUIT_BREAKER_CONFIG
                    None 1000%Z (Js.rejects t) b))
          = (Breaker.getFailures b + 1)%Z).
Proof.
  split; [reflexivity|].
  intros H. specialize (H (Js.not_error (JString "boom")) Breaker.initial).
  discriminate H.
Qed.

(** A breaker opened by its third failure at time 1700000000000 and asked
    to execute 10 s later: the error carries the 20 s left on the timer. *)
Example refusal_after_failures_ex :
  let cfg := Breaker.DEFAULT_CIRCUIT_BREAKER_CONFIG in
  let fail := Js.error (Js.new_Error "fail") in
  let b := Breaker.record_failures cfg
             [(1699999998000%Z, fail); (1699999999000%Z, fail); (1700000000000%Z, fail)]
             Breaker.initial in
  Breaker.resetTimeout b = Some 1700000030000%Z
  /\ Breaker.execute cfg None 1700000010000%Z 1700000010000%Z (Js.resolves JNull) b
     = (b,
        Js.rejects
          (Js.error
             (Breaker.CircuitOpenError "Circuit breaker is open. Retry in 20s" 20000%Z 3%Z)),
        O).
Proof. vm_compute. repeat split. Qed.

(** C4 at the input where the code departs from it. A breaker with the
    default configuration is forced open at time 1700000000000 and asked to
    execute at once: the breaker is open, its timer is due 30000 ms later,
    the operation is not invoked, and the [CircuitOpenError] carries 0 as the
    remaining time (and the failure count 3). *)
Theorem refusal_after_forceOpen :
  let cfg := Breaker.DEFAULT_CIRCUIT_BREAKER_CONFIG in
  let b := Breaker.forceOpen cfg 1700000000000%Z Breaker.initial in
  Breaker.getState b = Breaker.open
  /\ Breaker.resetTimeout b = Some 1700000030000%Z
  /\ Breaker.execute cfg None 1700000000000%Z 1700000000000%Z (Js.resolves JNull) b
     = (b,
        Js.rejects
          (Js.error
             (Breaker.CircuitOpenError "Circuit breaker is open. Retry in 0s" 0%Z 3%Z)),
        O).
Proof. vm_compute. repeat split. Qed.

(* ================================================================== *)
(** * Claims about the backoff delay *)
(* ================================================================== *)

Section BackoffFacts.

Import Backoff.

(** ** The order of the doubles *)





(** ** Whole numbers *)

Local Open Scope Q_scope.




Local Close Scope Q_scope.
Local Open Scope Z_scope.

(** ** The number of binary digits *)




(** ** Shifting to the right *)








(** ** A product with a number of [0, 1) *)



Local Close Scope Z_scope.


End BackoffFacts.



(** The delays of the attempts 0, 1, 2 and 5 without jitter: 1000, 2000,
    4000 and the cap, 30000. *)
Example backoff_ex1 :
  map (fun k => Backoff.calculateBackoffDelay Backoff.pow_by_multiplication (Backoff.of_Z k)
                  (Backoff.mkRetryConfig 3 (Backoff.of_Z 1000) (Backoff.of_Z 30000)
                     (Backoff.of_Z 2) false
                     (Backoff.divided (Backoff.of_Z 3) (Backoff.of_Z 10)))
                  (S754_zero false))
      [0; 1; 2; 5]%Z
  = map Backoff.of_Z [1000; 2000; 4000; 30000]%Z.
Proof. vm_compute. reflexivity. Qed.

(** With the defaults, at attempt 2 and [Math.random()] at 0.5: 4600. *)
Example backoff_ex2 :
  Backoff.calculateBackoffDelay Backoff.pow_by_multiplication (Backoff.of_Z 2)
    Backoff.DEFAULT_RETRY_CONFIG (Backoff.divided (Backoff.of_Z 1) (Backoff.of_Z 2))
  = Backoff.of_Z 4600.
Proof. vm_compute. reflexivity. Qed.

(** The product is rounded: with [initialDelayMs] 0.1 and [backoffMultiplier]
    3, the delay of attempt 1 is 0.30000000000000004, the double above the
    literal 0.3. *)
Example backoff_ex3 :
  let tenth := Backoff.divided (Backoff.of_Z 1) (Backoff.of_Z 10) in
  let three_tenths := Backoff.divided (Backoff.of_Z 3) (Backoff.of_Z 10) in
  Backoff.calculateBackoffDelay Backoff.pow_by_multiplication (Backoff.of_Z 1)
    (Backoff.mkRetryConfig 3 tenth (Backoff.of_Z 30000) (Backoff.of_Z 3) false three_tenths)
    (S754_zero false)
  = S754_finite false 5404319552844596 (-54)
  /\ three_tenths = S754_finite false 5404319552844595 (-54).
Proof. vm_compute. split; reflexivity. Qed.

(** Beyond the doubles: with [initialDelayMs] 0 the delay of attempt 1024 is
    [0 * Infinity], NaN, and the cap does not change it. *)
Example backoff_ex4 :
  Backoff.calculateBackoffDelay Backoff.pow_by_multiplication (Backoff.of_Z 1024)
    (Backoff.mkRetryConfig 3 (Backoff.of_Z 0) (Backoff.of_Z 30000) (Backoff.of_Z 2) false
       (Backoff.divided (Backoff.of_Z 3) (Backoff.of_Z 10)))
    (S754_zero false)
  = Backoff.NaN.
Proof. vm_compute. reflexivity. Qed.

(* ================================================================== *)
(** * Claims about the reconnection strategy *)
(* ================================================================== *)

Section RetryFacts.

Import Js Backoff Retry.
Local Open Scope Z_scope.

Lemma prefix_toLowerCase (p s : string) :
  String.prefix p s = true -> String.prefix (toLowerCase p) (toLowerCase s) = true.
Proof.
  revert p. induction s as [|c s IH]; intros [|d p]; cbn; try congruence.
  destruct (ascii_dec d c) as [->|]; [|discriminate]. intros H.
  destruct (ascii_dec (lower_char c) (lower_char c)) as [_|ne]; [now apply IH | now elim ne].
Qed.

(** A text found in a message is found, in lower case, in the message in
    lower case. *)
Lemma includes_toLowerCase (p s : string) :
  includes p s = true -> includes (toLowerCase p) (toLowerCase s) = true.
Proof.
  induction s as [|c s IH]; cbn [includes toLowerCase]; intros H;
    apply orb_true_iff in H as [H|H]; apply orb_true_iff.
  - left. exact (prefix_toLowerCase p EmptyString H).
  - discriminate.
  - left. exact (prefix_toLowerCase p (String c s) H).
  - right. now apply IH.
Qed.

(** A cancellation error in the words of the specification: an [Error] whose
    message contains "aborted" or whose name is AbortError. *)
Definition cancellation_error (e : thrown) : Prop :=
  exists err : Error,
    e = error err /\ (includes "aborted" (message err) = true \/ name err = "AbortError").

Lemma cancellation_error_detected (e : thrown) :
  cancellation_error e -> isCancellationError e = true.
Proof.
  intros (err & -> & [H | H]); cbn [isCancellationError]; apply orb_true_iff.
  - left. exact (includes_toLowerCase "aborted" (message err) H).
  - right. rewrite H. reflexivity.
Qed.

Context {T : Type}.
Variable config : RetryConfig.
Variable world : World T.

(** The manager's loop always ends: an iteration goes round again only
    while [state.attempt] is below [maxRetries], and then adds one to it. *)
Lemma execute_loop_total (fuel : nat) (i : Z) (state : ReconnectionState) :
  (Z.to_nat (maxRetries config - attempt state) < fuel)%nat ->
  exists r, execute_loop config world fuel i state = Some r.
Proof.
  revert i state. induction fuel as [|fuel IH]; intros i state L; [lia|].
  cbn [execute_loop]. destruct (operation world i) as [result | e]; [now eexists|].
  destruct (isCancellationError e || signal_aborted world i); [now eexists|].
  unfold shouldRetry. cbn [attempt].
  destruct (isNetworkError e); cbn [andb negb]; [|now eexists].
  destruct (Z.ltb_spec (attempt state) (maxRetries config)) as [Lt|Ge]; cbn [negb];
    [|now eexists].
  destruct (sleep_aborted world i); [now eexists|].
  edestruct (IH (i + 1)) as [[[r st] effs] ->]; [|now eexists].
  cbn [attempt]. lia.
Qed.

Lemma execute_total : exists r, execute config world = Some r.
Proof. apply execute_loop_total. cbn [attempt reset]. lia. Qed.

(** C6. At any iteration of [withRetry] or of the manager's [execute], with
    any number of attempts left and any [shouldRetry] predicate: if the
    operation fails with a cancellation error, or the signal is aborted when
    the failure is caught, the function is done at once, rejecting with the
    error the operation failed with, and nothing follows the invocation of the
    operation: no retry call-back, no sleep, no further invocation. In
    particular this is what the whole call does when it happens at the first
    attempt. *)
Theorem cancellation_never_retried
  (shouldRetry_option : option (thrown -> bool)) (i : Z) (e : thrown) :
  operation world i = rejects e ->
  cancellation_error e \/ signal_aborted world i = true ->
  (forall (remaining : nat) (lastError : option Error),
      withRetry_loop config shouldRetry_option world (S remaining) i lastError
      = (rejects e, [invoke_operation]))
  /\ (forall (fuel : nat) (state : ReconnectionState),
         execute_loop config world (S fuel) i state
         = Some (rejects e,
                 mkState (attempt state) (maxAttempts state) (nextDelayMs state)
                   (Some (as_Error e)),
                 [invoke_operation]))
  /\ (i = 0 -> 0 <= maxRetries config ->
      withRetry config shouldRetry_option world = (rejects e, [invoke_operation]))
  /\ (i = 0 ->
      execute config world
      = Some (rejects e,
              mkState 0 (maxRetries config) (initialDelayMs config) (Some (as_Error e)),
              [invoke_operation])).
Proof.
  intros Op C.
  assert (G : isCancellationError e || signal_aborted world i = true).
  { apply orb_true_iff. destruct C as [C|C]; [left | now right].
    now apply cancellation_error_detected. }
  assert (W : forall remaining lastError,
             withRetry_loop config shouldRetry_option world (S remaining) i lastError
             = (rejects e, [invoke_operation])).
  { intros remaining lastError. cbn [withRetry_loop]. now rewrite Op, G. }
  assert (M : forall fuel state,
             execute_loop config world (S fuel) i state
             = Some (rejects e,
                     mkState (attempt state) (maxAttempts state) (nextDelayMs state)
                       (Some (as_Error e)),
                     [invoke_operation])).
  { intros fuel state. cbn [execute_loop]. now rewrite Op, G. }
  split; [exact W|]. split; [exact M|]. split.
  - intros -> L. unfold withRetry.
    destruct (Z.to_nat (maxRetries config + 1)) as [|n] eqn:E; [lia | apply W].
  - intros ->. unfold execute. apply M.
Qed.

End RetryFacts.

(** An operation that fails with [new Error('Request aborted')] whatever the
    attempt, under a predicate that would retry everything. *)
Definition cancelled_world : Retry.World json :=
  Retry.mkWorld (fun _ => Js.rejects (Js.error (Js.new_Error "Request aborted")))
    (fun _ => false) (fun _ => false) (fun _ => S754_zero false)
    Backoff.pow_by_multiplication.

Lemma cancellation_never_retried_witness :
  Retry.withRetry Backoff.DEFAULT_RETRY_CONFIG (Some (fun _ => true)) cancelled_world
  = (Js.rejects (Js.error (Js.new_Error "Request aborted")), [Retry.invoke_operation])
  /\ Retry.execute Backoff.DEFAULT_RETRY_CONFIG cancelled_world
     = Some (Js.rejects (Js.error (Js.new_Error "Request aborted")),
             Retry.mkState 0 3 (Backoff.of_Z 1000) (Some (Js.new_Error "Request aborted")),
             [Retry.invoke_operation]).
Proof.
  destruct (cancellation_never_retried Backoff.DEFAULT_RETRY_CONFIG cancelled_world
              (Some (fun _ => true)) 0%Z (Js.error (Js.new_Error "Request aborted")))
    as (_ & _ & W & M).
  - reflexivity.
  - left. exists (Js.new_Error "Request aborted"). split; [reflexivity|].
    left. vm_compute. reflexivity.
  - split; [apply W; [reflexivity | vm_compute; discriminate] | apply M; reflexivity].
Defined.

Example withRetry_ex1 :
  let w := Retry.mkWorld
             (fun i => if (i <? 2)%Z then Js.rejects (Js.error (Js.new_Error "Network error"))
                       else Js.resolves (JString "ok"))
             (fun _ => false) (fun _ => false) (fun _ => S754_zero false)
             Backoff.pow_by_multiplication in
  Retry.withRetry
    (Backoff.mkRetryConfig 3 (Backoff.of_Z 1000) (Backoff.of_Z 30000) (Backoff.of_Z 2) false
       (Backoff.divided (Backoff.of_Z 3) (Backoff.of_Z 10))) None w
  = (Js.resolves (JString "ok"),
     [Retry.invoke_operation;
      Retry.call_onRetry 1 (Backoff.of_Z 1000) (Js.new_Error "Network error");
      Retry.sleep (Backoff.of_Z 1000);
      Retry.invoke_operation;
      Retry.call_onRetry 2 (Backoff.of_Z 2000) (Js.new_Error "Network error");
      Retry.sleep (Backoff.of_Z 2000);
      Retry.invoke_operation]).
Proof. vm_compute. reflexivity. Qed.

(* ================================================================== *)
(** * Facts and claims about the stream orchestrator *)
(* ================================================================== *)

Section OrchestratorFacts.

Import Js Orchestrator.
Local Open Scope Z_scope.

Variable config : Config.

(** What can happen to a session. *)
Inductive action : Type :=
| do_sendUpdate (update : Update)
| do_sendProgress (p : string) (message : option string)
| do_sendResult (result : json)
| do_sendError (e : string) (extra : Update)
| do_sendWithMetadata (p : string) (metadata : Update) (message : option string)
| do_sendEvent (eventType : string) (data : json)
| do_startHeartbeat
| do_stopHeartbeat
| do_heartbeat_tick
| do_close (now : Z)
| do_abort (reason : option string) (now : Z)
| do_signal_fires (now : Z)
| do_peer_cancels.

Definition perform (a : action) (o : StreamOrchestrator) : StreamOrchestrator :=
  match a with
  | do_sendUpdate update => sendUpdate update o
  | do_sendProgress p message => sendProgress p message o
  | do_sendResult result => sendResult config result o
  | do_sendError e extra => sendError config e extra o
  | do_sendWithMetadata p metadata message => sendWithMetadata p metadata message o
  | do_sendEvent eventType data => sendEvent eventType data o
  | do_startHeartbeat => startHeartbeat config o
  | do_stopHeartbeat => stopHeartbeat o
  | do_heartbeat_tick => heartbeat_tick config o
  | do_close now => close config now o
  | do_abort reason now => abort config reason now o
  | do_signal_fires now => signal_fires config now o
  | do_peer_cancels => peer_cancels o
  end.

(** The actions whose frames [bytesSent] counts: [sendUpdate], its
    convenience projections, and the heartbeat. *)
Definition counted (a : action) : bool :=
  match a with
  | do_sendUpdate _ | do_sendProgress _ _ | do_sendResult _ | do_sendError _ _
  | do_sendWithMetadata _ _ _ | do_heartbeat_tick => true
  | _ => false
  end.

(** The chunks an action adds to the sink. *)
Definition enqueued (a : action) (o : StreamOrchestrator) : list (list ascii) :=
  skipn (List.length (chunks (controller o))) (chunks (controller (perform a o))).

(** The number of bytes of some chunks. *)
Definition total (cs : list (list ascii)) : nat :=
  fold_right (fun c n => (List.length c + n)%nat) 0%nat cs.

Fixpoint run (acts : list action) (o : StreamOrchestrator) : StreamOrchestrator :=
  match acts with
  | [] => o
  | a :: rest => run rest (perform a o)
  end.

(** The bytes of the frames the counted actions of a run add to the sink. *)
Fixpoint counted_bytes (acts : list action) (o : StreamOrchestrator) : nat :=
  match acts with
  | [] => 0%nat
  | a :: rest =>
      ((if counted a then total (enqueued a o) else 0) + counted_bytes rest (perform a o))%nat
  end.

(** An action adds [new] to the sink and [n] to [bytesSent]. *)
Definition adds (a : action) (o : StreamOrchestrator) (new : list (list ascii)) (n : nat)
  : Prop :=
  chunks (controller (perform a o)) = (chunks (controller o) ++ new)%list
  /\ bytesSent (perform a o) = (bytesSent o + n)%nat.

Lemma adds_nothing (a : action) (o : StreamOrchestrator) :
  chunks (controller (perform a o)) = chunks (controller o) ->
  bytesSent (perform a o) = bytesSent o ->
  adds a o [] 0.
Proof. intros C B. split; [now rewrite List.app_nil_r | lia]. Qed.

Ltac by_cases_on_session o :=
  destruct o as [[can chunks0] closed0 aborted0 interval start sent err handler calls0];
  cbn in *.

Ltac nothing_or_one_chunk :=
  first [ exists []; cbn; split; [now rewrite List.app_nil_r | lia]
        | eexists [_]; cbn; split; [reflexivity | lia] ].

Lemma sendUpdate_adds (update : Update) (o : StreamOrchestrator) :
  exists new,
    chunks (controller (sendUpdate update o)) = (chunks (controller o) ++ new)%list
    /\ bytesSent (sendUpdate update o) = (bytesSent o + total new)%nat.
Proof.
  unfold sendUpdate, enqueue. by_cases_on_session o.
  destruct closed0, can; cbn; nothing_or_one_chunk.
Qed.

(** Every action extends the sink; the counted ones add to [bytesSent] the
    bytes they put into it, the others add nothing to [bytesSent]. *)
Lemma perform_adds (a : action) (o : StreamOrchestrator) :
  exists new, adds a o new (if counted a then total new else 0%nat).
Proof.
  unfold adds.
  destruct a as [u | p m | r | e x | p md m | t d | | | | now | reason now | now | ];
    cbn [perform counted];
    try (unfold sendProgress, sendResult, sendError, sendWithMetadata;
         apply sendUpdate_adds);
    unfold sendEvent, startHeartbeat, stopHeartbeat, heartbeat_tick, close, abort,
      signal_fires, handleAbort, peer_cancels, stopHeartbeat, cleanupAbortListener,
      controller_close, enqueue, cancelled;
    by_cases_on_session o.
  - destruct closed0, can; cbn; nothing_or_one_chunk.
  - destruct (enabled (heartbeat config)), interval; cbn; nothing_or_one_chunk.
  - destruct interval; cbn; nothing_or_one_chunk.
  - destruct interval, closed0, can; cbn; nothing_or_one_chunk.
  - destruct closed0, interval, (signal config), handler, can; cbn; nothing_or_one_chunk.
  - destruct closed0, interval, (signal config), handler, can; cbn; nothing_or_one_chunk.
  - destruct handler, closed0, interval, (signal config), can; cbn; nothing_or_one_chunk.
  - nothing_or_one_chunk.
Qed.

Lemma skipn_length_app {A : Type} (l new : list A) :
  skipn (List.length l) (l ++ new)%list = new.
Proof. induction l as [|a l IH]; [reflexivity | exact IH]. Qed.

Lemma perform_bytesSent (a : action) (o : StreamOrchestrator) :
  bytesSent (perform a o)
  = (bytesSent o + if counted a then total (enqueued a o) else 0)%nat.
Proof.
  destruct (perform_adds a o) as (new & C & B). unfold enqueued.
  now rewrite C, skipn_length_app.
Qed.

Lemma run_bytesSent (acts : list action) (o : StreamOrchestrator) :
  bytesSent (run acts o) = (bytesSent o + counted_bytes acts o)%nat.
Proof.
  revert o. induction acts as [|a acts IH]; intros o; cbn [run counted_bytes]; [lia|].
  rewrite IH, perform_bytesSent. lia.
Qed.

(** The send operations. *)
Definition is_send (a : action) : bool :=
  match a with
  | do_sendUpdate _ | do_sendProgress _ _ | do_sendResult _ | do_sendError _ _
  | do_sendWithMetadata _ _ _ | do_sendEvent _ _ => true
  | _ => false
  end.

(** The part of a session the metrics and the sink show. *)
Definition visible (o : StreamOrchestrator)
  : StreamController * nat * bool * bool * option Error :=
  (controller o, bytesSent o, isClosed o, isAborted o, lastError o).

(** On a session marked closed a send writes nothing and changes nothing of
    the visible state. *)
Lemma send_when_closed (a : action) (o : StreamOrchestrator) :
  is_send a = true -> isClosed o = true -> visible (perform a o) = visible o.
Proof.
  intros S C. destruct a; try discriminate S; cbn [perform];
    unfold sendProgress, sendResult, sendError, sendWithMetadata, sendUpdate, sendEvent;
    now rewrite C.
Qed.

(** [abort] leaves the session marked closed, whatever the sink does. *)
Lemma abort_marks_closed (reason : option string) (now : Z) (o : StreamOrchestrator) :
  isClosed (abort config reason now o) = true.
Proof.
  unfold abort, handleAbort, stopHeartbeat, cleanupAbortListener, controller_close.
  by_cases_on_session o.
  destruct closed0, interval, (signal config), handler, can; reflexivity.
Qed.

(** [close] on a session whose sink closes without throwing: the heartbeat
    is stopped, the listener detached, the sink closed, the session marked
    closed, and the stream-end hook called last, with success telling whether
    no error was recorded before. *)
Lemma close_when_sink_closes (now : Z) (o : StreamOrchestrator) :
  isClosed o = false -> can_enqueue (controller o) = true ->
  let o' := close config now o in
  heartbeatInterval o' = false
  /\ (signal config <> None -> abortHandler o' = false)
  /\ can_enqueue (controller o') = false
  /\ isClosed o' = true
  /\ calls o'
     = (calls o ++ [onStreamEnd (now - startTime o)
                      (match lastError o with None => true | Some _ => false end)
                      (lastError o)])%list.
Proof.
  unfold close, stopHeartbeat, cleanupAbortListener, controller_close.
  by_cases_on_session o. intros -> ->.
  destruct interval, (signal config), handler; cbn; repeat split; congruence.
Qed.

(** After [abort], and after a [close] whose sink closed without throwing
    (or on a session already marked closed), a send writes nothing and
    changes nothing of the visible state. *)
Lemma send_after_abort (a : action) (reason : option string) (now : Z)
  (o : StreamOrchestrator) :
  is_send a = true ->
  visible (perform a (abort config reason now o)) = visible (abort config reason now o).
Proof. intros S. apply send_when_closed; [exact S | apply abort_marks_closed]. Qed.

Lemma send_after_clean_close (a : action) (now : Z) (o : StreamOrchestrator) :
  is_send a = true ->
  isClosed o = true \/ can_enqueue (controller o) = true ->
  visible (perform a (close config now o)) = visible (close config now o).
Proof.
  intros S H. apply send_when_closed; [exact S|].
  destruct (isClosed o) eqn:C.
  - unfold close. now rewrite C.
  - destruct H as [H|H]; [discriminate|].
    now destruct (close_when_sink_closes now o C H) as (_ & _ & _ & ? & _).
Qed.

(** C10. The [bytesSent] that [getMetrics] returns after any run of actions
    on a new session is the number of bytes the [sendUpdate] calls, its
    convenience projections and the heartbeat ticks of the run put into the
    sink; [sendEvent] never changes [bytesSent], also when it writes its frame
    to the sink. *)
Theorem bytesSent_accounting :
  (forall (acts : list action) (c : StreamController) (start now : Z),
      metrics_bytesSent (getMetrics now (run acts (new config c start)))
      = counted_bytes acts (new config c start))
  /\ (forall (eventType : string) (data : json) (o : StreamOrchestrator),
         bytesSent (sendEvent eventType data o) = bytesSent o)
  /\ (forall (eventType : string) (data : json) (o : StreamOrchestrator),
         isClosed o = false -> can_enqueue (controller o) = true ->
         chunks (controller (sendEvent eventType data o))
         = (chunks (controller o)
            ++ [encode ("event: " ++ eventType ++ NL ++ "data: " ++ stringify data ++ NLNL)])%list).
Proof.
  split; [|split].
  - intros acts c start now. cbn [getMetrics metrics_bytesSent]. rewrite run_bytesSent.
    assert (Z : bytesSent (new config c start) = 0%nat).
    { unfold new, handleAbort, stopHeartbeat, cleanupAbortListener, controller_close.
      destruct (signal config) as [[]|]; destruct c as [[] chs]; reflexivity. }
    rewrite Z. reflexivity.
  - intros eventType data o.
    pose proof (perform_bytesSent (do_sendEvent eventType data) o) as B.
    cbn [perform counted] in B. rewrite B. lia.
  - intros eventType data o C E. unfold sendEvent, enqueue. now rewrite C, E.
Qed.

End OrchestratorFacts.

(** A session that sends an update, an event, and a heartbeat. *)
Definition busy_session : list action :=
  [do_startHeartbeat; do_sendUpdate [("phase", JString "test")];
   do_sendEvent "custom" (JObject [("value", JNumber 42)]); do_heartbeat_tick].

Example busy_session_ex :
  let o := run Orchestrator.DEFAULT_CONFIG busy_session
             (Orchestrator.new Orchestrator.DEFAULT_CONFIG
                (Orchestrator.mkController true []) 0%Z) in
  Orchestrator.bytesSent o = 39%nat
  /\ map (@List.length ascii) (Orchestrator.chunks (Orchestrator.controller o)) = [24; 34; 15]%nat.
Proof. vm_compute. split; reflexivity. Qed.

Lemma bytesSent_accounting_witness :
  let o := Orchestrator.new Orchestrator.DEFAULT_CONFIG (Orchestrator.mkController true []) 0%Z in
  Orchestrator.isClosed o = false
  /\ Orchestrator.can_enqueue (Orchestrator.controller o) = true
  /\ Orchestrator.bytesSent (Orchestrator.sendEvent "custom" JNull o) = Orchestrator.bytesSent o
  /\ Orchestrator.chunks (Orchestrator.controller (Orchestrator.sendEvent "custom" JNull o))
     = (Orchestrator.chunks (Orchestrator.controller o)
        ++ [encode ("event: " ++ "custom" ++ NL ++ "data: " ++ stringify JNull ++ NLNL)])%list.
Proof.
  intros o.
  destruct (bytesSent_accounting Orchestrator.DEFAULT_CONFIG) as (_ & B & W).
  split; [reflexivity|]. split; [reflexivity|]. split; [apply B|].
  apply W; reflexivity.
Defined.

(** C9 at the input where the code departs from it. A new session with the
    default configuration whose peer has gone away (the consumer cancelled
    the stream) is closed at time 10: [controller.close()] throws, and
    [close()] returns with the session not marked closed and the stream-end
    hook not called; the only call made is to the logger. *)
Theorem close_on_a_cancelled_sink :
  let cfg := Orchestrator.DEFAULT_CONFIG in
  let o0 := Orchestrator.new cfg (Orchestrator.mkController true []) 0%Z in
  let o1 := Orchestrator.peer_cancels o0 in
  let o2 := Orchestrator.close cfg 10%Z o1 in
  Orchestrator.isClosed o1 = false
  /\ Orchestrator.isClosed o2 = false
  /\ Orchestrator.calls o2
     = [Orchestrator.onStreamStart;
        Orchestrator.logger "[stream-orchestrator] Error closing stream:"].
Proof. vm_compute. repeat split. Qed.

(** C8 at the input where the code departs from it. A new session with the
    default configuration whose peer has gone away is closed at time 10, and
    after [close()] has returned it is sent an update: [close()] left the
    session not marked closed, so [sendUpdate] tries the sink, which throws;
    nothing is written, but the session is now marked closed, an error is
    recorded, and the error hook is called. *)
Theorem send_after_close_on_a_cancelled_sink :
  let cfg := Orchestrator.DEFAULT_CONFIG in
  let o0 := Orchestrator.new cfg (Orchestrator.mkController true []) 0%Z in
  let o2 := Orchestrator.close cfg 10%Z (Orchestrator.peer_cancels o0) in
  let o3 := Orchestrator.sendUpdate [("phase", JString "test")] o2 in
  (Orchestrator.isClosed o2, Orchestrator.lastError o2) = (false, None)
  /\ (Orchestrator.isClosed o3, Orchestrator.lastError o3)
     = (true, Some Orchestrator.already_closed)
  /\ Orchestrator.chunks (Orchestrator.controller o3) = []
  /\ In (Orchestrator.onError Orchestrator.already_closed) (Orchestrator.calls o3).
Proof. vm_compute. repeat split. right. right. left. reflexivity. Qed.

(* ================================================================== *)
(** * More about the codec: streams of frames, cut anywhere *)
(* ================================================================== *)

Section CodecStreams.

Lemma feed_app (buffer : string) (cs1 cs2 : list string) :
  feed buffer (cs1 ++ cs2)
  = let (b1, calls1) := feed buffer cs1 in
    let (b2, calls2) := feed b1 cs2 in
    (b2, (calls1 ++ calls2)%list).
Proof.
  revert buffer. induction cs1 as [|c cs1 IH]; intros buffer.
  - cbn [List.app feed]. now destruct (feed buffer cs2).
  - cbn [List.app feed]. destruct (parse buffer c) as [b0 calls0]. rewrite IH.
    destruct (feed b0 cs1) as [b1 calls1]. destruct (feed b1 cs2) as [b2 calls2].
    now rewrite List.app_assoc.
Qed.

Lemma feed_merge (buffer p q : string) (rest : list string) :
  feed buffer (p :: q :: rest) = feed buffer ((p ++ q) :: rest).
Proof.
  change (p :: q :: rest) with ([p; q] ++ rest)%list.
  change ((p ++ q) :: rest) with ([(p ++ q)%string] ++ rest)%list.
  now rewrite !feed_app, feed_two.
Qed.

Lemma join_empty_cons (c : string) (cs : list string) :
  join EmptyString (c :: cs) = c ++ join EmptyString cs.
Proof.
  destruct cs as [|c' cs]; [cbn; now rewrite append_nil_r | reflexivity].
Qed.

Lemma feed_join (buffer c : string) (cs : list string) :
  feed buffer (c :: cs) = feed buffer [c ++ join EmptyString cs].
Proof.
  revert c. induction cs as [|c' cs IH]; intros c.
  - cbn [join String.concat]. now rewrite append_nil_r.
  - now rewrite feed_merge, IH, append_assoc, join_empty_cons.
Qed.

Lemma createSSEParser_whole (chunks : list string) :
  createSSEParser chunks = createSSEParser [join EmptyString chunks].
Proof.
  unfold createSSEParser. destruct chunks as [|c cs]; [reflexivity|].
  now rewrite feed_join, join_empty_cons.
Qed.

(** X1. A text cut into chunks in two ways: a fresh parser fed the chunks one
    after the other makes the same calls, in the same order, either way, and
    is left with the same buffer. *)
Theorem any_chunking (chunks chunks' : list string) :
  join EmptyString chunks = join EmptyString chunks' ->
  createSSEParser chunks = createSSEParser chunks'.
Proof.
  intros E. now rewrite (createSSEParser_whole chunks), E, <- createSSEParser_whole.
Qed.

(** A text that is no JSON text, whatever the numbers and escapes of the
    parser: after the leading white space it is at its end, or at a
    character no value starts with, or at one of the letters n, t, f without
    the word [null], [true] or [false]. *)
Definition not_json (payload : string) : bool :=
  match skip_ws payload with
  | EmptyString => true
  | String c _ as s =>
      if (c =? "n")%char then negb (String.prefix "null" s)
      else if (c =? "t")%char then negb (String.prefix "true" s)
      else if (c =? "f")%char then negb (String.prefix "false" s)
      else negb (value_head c)
  end.

Lemma not_json_parse (payload : string) : not_json payload = true -> Json.parse payload = None.
Proof.
  unfold not_json, Json.parse. destruct (skip_ws payload) as [|c r]; [reflexivity|].
  cbn [parse_value]. unfold expect.
  destruct c as [[] [] [] [] [] [] [] []]; cbn; intros H;
    try discriminate H; try (apply negb_true_iff in H; rewrite H); reflexivity.
Qed.

Lemma includes_false_lf_free (s : string) : includes NL s = false -> lf_free s = true.
Proof. rewrite includes_NL_lf_free. now destruct (lf_free s). Qed.

End CodecStreams.

(** Two frames in one piece, and with cuts inside a number, between the two
    line feeds of a terminator and inside an array. *)
Lemma any_chunking_witness :
  createSSEParser ["data: 4"; "2" ++ NL; NL ++ "data: [1,"; "2]" ++ NLNL]
  = createSSEParser ["data: 42" ++ NLNL ++ "data: [1,2]" ++ NLNL].
Proof. apply any_chunking. vm_compute. reflexivity. Defined.

(* ================================================================== *)
(** * The typed stream parser: chunks, and the frames of the helpers *)
(* ================================================================== *)

Section StreamParserFacts.

Import Js StreamParser.

Definition set_buffer (b : string) (st : state) : state :=
  mkState b (currentEvent st) (finalData st).

(** What the caller of the read loop can see of a turn: the calls, the
    throw, and the state when nothing was thrown. *)
Definition same_outcome (r1 r2 : state * list handler_call * option Error) : Prop :=
  match r1, r2 with
  | (st1, calls1, None), (st2, calls2, None) => st1 = st2 /\ calls1 = calls2
  | (_, calls1, Some e1), (_, calls2, Some e2) => calls1 = calls2 /\ e1 = e2
  | _, _ => False
  end.

Lemma same_outcome_refl r : same_outcome r r.
Proof. destruct r as [[st calls] [e|]]; cbn; auto. Qed.

Lemma same_outcome_trans r1 r2 r3 :
  same_outcome r1 r2 -> same_outcome r2 r3 -> same_outcome r1 r3.
Proof.
  destruct r1 as [[st1 c1] [e1|]], r2 as [[st2 c2] [e2|]], r3 as [[st3 c3] [e3|]];
    cbn; intuition congruence.
Qed.

(** The lines are processed without looking at the buffer. *)
Lemma process_line_buffer (b : string) (line : string) (st : state) :
  process_line line (set_buffer b st)
  = match process_line line st with
    | (st', calls, thrown) => (set_buffer b st', calls, thrown)
    end.
Proof.
  unfold process_line.
  destruct (startsWith "event: " line); [reflexivity|].
  destruct (startsWith ":" line); [reflexivity|].
  destruct (negb (startsWith "data: " line)); [reflexivity|].
  destruct (trim (slice_from 6 line)); [reflexivity|].
  destruct (Json.parse (slice_from 6 line)) as [parsed|]; [|reflexivity].
  cbn [currentEvent set_buffer].
  destruct (currentEvent st =? "start")%string; [reflexivity|].
  destruct (currentEvent st =? "delta")%string; [now destruct (get "text" parsed)|].
  destruct (currentEvent st =? "done")%string; [reflexivity|].
  destruct (currentEvent st =? "error")%string; [now destruct (get "error" parsed)|].
  now destruct (get "phase" parsed).
Qed.

Lemma process_lines_buffer (b : string) (lines : list string) (st : state) :
  process_lines lines (set_buffer b st)
  = match process_lines lines st with
    | (st', calls, thrown) => (set_buffer b st', calls, thrown)
    end.
Proof.
  revert st. induction lines as [|line lines IH]; intros st; [reflexivity|].
  cbn [process_lines]. rewrite process_line_buffer.
  destruct (process_line line st) as [[st1 calls1] [e|]]; [reflexivity|].
  rewrite IH. now destruct (process_lines lines st1) as [[st2 calls2] thrown].
Qed.

Lemma process_lines_app (l1 l2 : list string) (st : state) :
  process_lines (l1 ++ l2) st
  = match process_lines l1 st with
    | (st1, calls1, Some e) => (st1, calls1, Some e)
    | (st1, calls1, None) =>
        match process_lines l2 st1 with
        | (st2, calls2, thrown) => (st2, (calls1 ++ calls2)%list, thrown)
        end
    end.
Proof.
  revert st. induction l1 as [|line l1 IH]; intros st.
  - cbn [List.app process_lines]. now destruct (process_lines l2 st) as [[st2 calls2] thrown].
  - cbn [List.app process_lines].
    destruct (process_line line st) as [[st0 calls0] [e|]]; [reflexivity|].
    rewrite IH. destruct (process_lines l1 st0) as [[st1 calls1] [e|]]; [reflexivity|].
    destruct (process_lines l2 st1) as [[st2 calls2] thrown].
    now rewrite List.app_assoc.
Qed.

Lemma read_chunk_lines (chunk : string) (st : state) :
  read_chunk chunk st
  = process_lines (removelast (split NL (buffer st ++ chunk)))
      (set_buffer (last (split NL (buffer st ++ chunk)) EmptyString) st).
Proof. reflexivity. Qed.

Lemma set_buffer_twice (b b' : string) (st : state) :
  set_buffer b (set_buffer b' st) = set_buffer b st.
Proof. reflexivity. Qed.

Lemma buffer_process_lines (lines : list string) (st : state) :
  buffer (fst (fst (process_lines lines st))) = buffer st.
Proof.
  pose proof (process_lines_buffer (buffer st) lines st) as H.
  replace (set_buffer (buffer st) st) with st in H by now destruct st.
  destruct (process_lines lines st) as [[st' calls] thrown]. cbn [fst].
  now injection H as ->.
Qed.

(** Two reads in a row are one read of the two chunks together. *)
Lemma read_loop_merge (p q : string) (rest : list string) (st : state) :
  same_outcome (read_loop (p :: q :: rest) st) (read_loop ((p ++ q) :: rest) st).
Proof.
  assert (Hsep : NL <> EmptyString) by discriminate.
  cbn [read_loop]. rewrite !read_chunk_lines.
  rewrite <- (append_assoc (buffer st) p q), (split_append NL Hsep (buffer st ++ p) q).
  set (A := removelast (split NL (buffer st ++ p))).
  set (bA := last (split NL (buffer st ++ p)) EmptyString).
  rewrite (last_app_nonempty _ _ _ (split_nonempty _ _)).
  rewrite (removelast_app _ (split_nonempty _ _)).
  set (B := removelast (split NL (bA ++ q))).
  set (bB := last (split NL (bA ++ q)) EmptyString).
  rewrite process_lines_app, !process_lines_buffer.
  destruct (process_lines A st) as [[st1 calls1] [e|]]; [cbn; auto|].
  rewrite read_chunk_lines. cbn [buffer set_buffer]. fold bB. fold B.
  change (mkState bA (currentEvent st1) (finalData st1)) with (set_buffer bA st1).
  rewrite set_buffer_twice, !process_lines_buffer.
  destruct (process_lines B st1) as [[st2 calls2] [e|]].
  - cbn. auto.
  - destruct (read_loop rest (set_buffer bB st2)) as [[st3 calls3] [e|]]; cbn;
      rewrite ?List.app_assoc; auto.
Qed.

Lemma read_loop_join (c : string) (cs : list string) (st : state) :
  same_outcome (read_loop (c :: cs) st) (read_loop [c ++ join EmptyString cs] st).
Proof.
  revert c. induction cs as [|c' cs IH]; intros c.
  - cbn [join String.concat]. rewrite append_nil_r. apply same_outcome_refl.
  - eapply same_outcome_trans; [apply read_loop_merge|].
    rewrite join_empty_cons, <- append_assoc. apply IH.
Qed.

(** How [parseSSEStream] settles after the read loop. *)
Definition settle (r : state * list handler_call * option Error)
  : list handler_call * settled json :=
  match r with
  | (st, calls, None) => (calls, resolves (finalData st))
  | (_, calls, Some e) => (calls, rejects (error e))
  end.

Lemma same_outcome_settle r1 r2 : same_outcome r1 r2 -> settle r1 = settle r2.
Proof.
  destruct r1 as [[st1 c1] [e1|]], r2 as [[st2 c2] [e2|]]; cbn; intuition congruence.
Qed.

Lemma read_loop_whole (chunks : list string) :
  same_outcome (read_loop chunks initial) (read_loop [join EmptyString chunks] initial).
Proof.
  destruct chunks as [|c cs]; [vm_compute; auto|].
  rewrite join_empty_cons. apply read_loop_join.
Qed.

(** X3. Two bodies that deliver the same text, cut into chunks in two ways:
    [parseSSEStream] makes the same calls to the handlers, in the same order,
    and settles in the same way, with the same value or the same error. *)
Theorem parseSSEStream_any_chunking (chunks chunks' : list string) :
  join EmptyString chunks = join EmptyString chunks' ->
  parseSSEStream chunks = parseSSEStream chunks'.
Proof.
  intros E. change (settle (read_loop chunks initial) = settle (read_loop chunks' initial)).
  rewrite (same_outcome_settle _ _ (read_loop_whole chunks)), E.
  symmetry. apply same_outcome_settle, read_loop_whole.
Qed.

(** ** The frames of the emit helpers, read by [parseSSEStream] *)

Lemma join_app_blank (lines : list string) :
  lines <> [] ->
  join NL (lines ++ [EmptyString; EmptyString])%list = join NL lines ++ NLNL.
Proof.
  induction lines as [|l ls IH]; [easy|]. intros _. destruct ls as [|l2 ls].
  - reflexivity.
  - change (join NL ((l :: l2 :: ls) ++ [EmptyString; EmptyString])%list)
      with (l ++ NL ++ join NL ((l2 :: ls) ++ [EmptyString; EmptyString])%list).
    rewrite IH by discriminate.
    change (join NL (l :: l2 :: ls)) with (l ++ NL ++ join NL (l2 :: ls)).
    now rewrite !append_assoc.
Qed.

(** A frame of lines read with an empty buffer: the lines are processed, then
    the blank line that ends the frame, and the buffer is empty again. *)
Lemma read_frame_lines (lines : list string) (st : state) :
  lines <> [] -> Forall (fun l => lf_free l = true) lines -> buffer st = EmptyString ->
  read_chunk (join NL lines ++ NLNL) st = process_lines (lines ++ [EmptyString])%list st.
Proof.
  intros NE F B. rewrite read_chunk_lines, B. cbn [append].
  rewrite <- (join_app_blank lines NE), split_join_lines.
  - rewrite last_app_nonempty by discriminate.
    replace (lines ++ [EmptyString; EmptyString])%list
      with ((lines ++ [EmptyString]) ++ [EmptyString])%list
      by now rewrite <- List.app_assoc.
    rewrite removelast_last. cbn [last].
    replace (set_buffer EmptyString st) with st by (destruct st; cbn in B; now subst).
    reflexivity.
  - now destruct lines.
  - apply Forall_app. split; [exact F | now repeat constructor].
Qed.

(** The header lines of a frame: the [event:] line sets the tag, trimmed;
    the [id:] and [retry:] lines are passed over. *)
Lemma process_header_lines (m : SSEMessage) (st : state) :
  process_lines (header_lines m) st
  = (match Codec.event m with Some e => set_event (trim e) st | None => st end, [], None).
Proof.
  unfold header_lines.
  assert (I : forall i st, process_line ("id: " ++ i) st = (st, [], None)) by reflexivity.
  assert (R : forall r st, process_line ("retry: " ++ show_int r) st = (st, [], None))
    by reflexivity.
  assert (E : forall e st, process_line ("event: " ++ e) st = (set_event (trim e) st, [], None)).
  { intros e st'. unfold process_line, startsWith. now rewrite prefix_append. }
  destruct (id m) as [i|], (retry m) as [r|], (Codec.event m) as [e|];
    cbn [List.app process_lines]; rewrite ?I, ?R, ?E; reflexivity.
Qed.

Lemma process_blank (st : state) : process_line EmptyString st = (st, [], None).
Proof. reflexivity. Qed.

(** A frame of [formatSSEMessage] read with an empty buffer comes down to
    its data line, processed under the tag of the frame. *)
Lemma read_frame (m : SSEMessage) (st : state) :
  no_line_feed (id m) -> no_line_feed (Codec.event m) -> buffer st = EmptyString ->
  read_chunk (formatSSEMessage m) st
  = process_line (data_line m)
      match Codec.event m with Some e => set_event (trim e) st | None => st end.
Proof.
  intros Hi He B.
  pose proof (header_lines_ok m Hi He) as Hh.
  destruct (data_line_ok m) as (Dg & _ & _).
  rewrite formatSSEMessage_lines, read_frame_lines; [| now destruct (header_lines m) | | exact B].
  - rewrite <- List.app_assoc, process_lines_app, process_header_lines.
    cbn [List.app process_lines].
    destruct (process_line (data_line m) _) as [[st1 calls1] [e|]]; [reflexivity|].
    rewrite process_blank. now rewrite !List.app_nil_r.
  - apply Forall_app. split.
    + eapply Forall_impl; [|exact Hh]. now intros l [(? & ? & _ & _ & ?) _].
    + constructor; [|constructor]. now destruct Dg as (? & ? & _ & _ & ?).
Qed.

Lemma trim_stringify (v : json) : exists c r, trim (stringify v) = String c r.
Proof.
  destruct (stringify_head v EmptyString) as (c & r & E & H).
  rewrite append_nil_r in E. apply value_head_facts in H as (_ & _ & _ & Hs).
  exists c, r. unfold trim.
  assert (S : trimStart (stringify v) = stringify v).
  { rewrite E. cbn [trimStart]. now rewrite Hs. }
  rewrite S, (trimEnd_last_solid _ (last_solid_stringify v)). exact E.
Qed.

Lemma last_prop_assign_other (k k' : string) (v : json) (o : list (string * json)) :
  (k' =? k)%string = false ->
  last_prop k (Orchestrator.assign o k' v) = last_prop k o.
Proof.
  intros NE. induction o as [|[k0 v0] o IH]; cbn [Orchestrator.assign last_prop].
  - now rewrite NE.
  - destruct (k0 =? k')%string eqn:E0.
    + cbn [last_prop]. apply String.eqb_eq in E0 as ->. now rewrite NE.
    + cbn [last_prop]. now rewrite IH.
Qed.

Lemma last_prop_spread (k : string) (o extra : list (string * json)) :
  last_prop k extra = None -> last_prop k (Helpers.spread o extra) = last_prop k o.
Proof.
  unfold Helpers.spread. revert o. induction extra as [|[k1 v1] extra IH]; intros o H.
  - reflexivity.
  - cbn [last_prop] in H. destruct (last_prop k extra) eqn:L; [discriminate|].
    destruct (k1 =? k)%string eqn:E1; [discriminate|].
    cbn [fold_left fst snd]. rewrite (IH _ eq_refl). now apply last_prop_assign_other.
Qed.

(** What the server sends with the emit helpers. *)
Inductive sent : Type :=
| sent_start (metadata : option (list (string * json))) (options : Helpers.SSEMessageOptions)
| sent_delta (text : string) (options : Helpers.SSEMessageOptions)
| sent_done (payload : json) (options : Helpers.SSEMessageOptions)
| sent_error (err : string) (extra : list (string * json))
    (options : Helpers.SSEMessageOptions)
| sent_progress (phase : string) (msg : option string) (options : Helpers.SSEMessageOptions)
| sent_heartbeat (msg : option string)
| sent_retry (retryMs : Z).

(** The text the helper puts on the wire. *)
Definition sent_text (i : sent) : string :=
  match i with
  | sent_start md o => Helpers.start_text md o
  | sent_delta t o => Helpers.delta_text t o
  | sent_done p o => Helpers.done_text p o
  | sent_error e x o => Helpers.error_text e x o
  | sent_progress ph m o => Helpers.progress_text ph m o
  | sent_heartbeat m => Helpers.heartbeat_text m
  | sent_retry n => Helpers.retry_text n
  end.

(** No line feed in an [id] or in the message of a heartbeat, and no
    [error] property among the extra fields of an error. *)
Definition sent_ok (i : sent) : Prop :=
  match i with
  | sent_start _ o | sent_delta _ o | sent_done _ o | sent_progress _ _ o =>
      no_line_feed (Helpers.opt_id o)
  | sent_error _ x o => no_line_feed (Helpers.opt_id o) /\ last_prop "error" x = None
  | sent_heartbeat m => no_line_feed m
  | sent_retry _ => True
  end.

(** What is sent is plain, and the retry hints are whole numbers below 2^53
    in magnitude. *)
Definition plain_options (o : Helpers.SSEMessageOptions) : Prop :=
  match Helpers.opt_retry o with
  | Some n => (Z.abs n < 2 ^ 53)%Z
  | None => True
  end.

Definition sent_plain (i : sent) : Prop :=
  match i with
  | sent_start metadata o =>
      plain (JObject match metadata with Some m => m | None => [] end) = true
      /\ plain_options o
  | sent_delta _ o | sent_progress _ _ o => plain_options o
  | sent_done payload o => plain payload = true /\ plain_options o
  | sent_error _ extra o => plain (JObject extra) = true /\ plain_options o
  | sent_heartbeat _ => True
  | sent_retry n => (Z.abs n < 2 ^ 53)%Z
  end.

Definition error_message (e : string) : json :=
  JString (if (e =? EmptyString)%string then "Unknown error" else e).

(** The calls the client is expected to make for one item. *)
Definition sent_calls (i : sent) : list handler_call :=
  match i with
  | sent_start md _ => [onStart (JObject match md with Some m => m | None => [] end)]
  | sent_delta t _ => if (t =? EmptyString)%string then [] else [onDelta (JString t)]
  | sent_done p _ => [onDone p]
  | sent_error e _ _ => [onError (error_message e)]
  | sent_progress ph m _ =>
      if (ph =? EmptyString)%string then []
      else [onProgress (JString ph) (option_map JString m)]
  | sent_heartbeat _ | sent_retry _ => []
  end.

(** The calls and the settlement expected for a sequence of items: the
    items up to the first error, the result of the last [done] before it. *)
Fixpoint received (items : list sent) (final : json) : list handler_call * settled json :=
  match items with
  | [] => ([], resolves final)
  | sent_error e x _ :: _ =>
      ([onError (error_message e)],
       rejects (error (SSEStreamError (error_message e) (Helpers.error_payload e x))))
  | i :: rest =>
      let (calls, r) := received rest match i with sent_done p _ => p | _ => final end in
      ((sent_calls i ++ calls)%list, r)
  end.

Ltac on_data_line :=
  unfold data_line, process_line, startsWith; cbn [data];
  match goal with
  | |- context [String.prefix "data: " ("data: " ++ stringify ?v)] =>
      change (String.prefix "event: " ("data: " ++ stringify v)) with false;
      change (String.prefix ":" ("data: " ++ stringify v)) with false;
      rewrite (prefix_append "data: " (stringify v));
      change (slice_from 6 ("data: " ++ stringify v)) with (stringify v);
      cbn [negb]; cbv iota;
      let c := fresh "c" in let r := fresh "r" in let T := fresh "T" in
      destruct (trim_stringify v) as (c & r & T); rewrite T, parse_stringify; clear c r T
  end.

(** One item read with an empty buffer and no pending tag. *)
Lemma read_sent (i : sent) (st : state) :
  sent_ok i -> buffer st = EmptyString -> currentEvent st = EmptyString ->
  read_chunk (sent_text i) st
  = match i with
    | sent_error e x _ =>
        (set_event "error" st, [onError (error_message e)],
         Some (SSEStreamError (error_message e) (Helpers.error_payload e x)))
    | _ =>
        (mkState EmptyString EmptyString
           match i with sent_done p _ => p | _ => finalData st end,
         sent_calls i, None)
    end.
Proof.
  intros Ok B C. destruct st as [b ev fin]. cbn in B, C. subst b ev.
  destruct i as [md o | t o | p o | e x o | ph m o | m | n]; cbn [sent_text sent_ok] in *.
  - unfold Helpers.start_text, Helpers.frame.
    rewrite read_frame; [| exact Ok | reflexivity | reflexivity].
    cbn [Codec.event]. change (trim "start") with "start".
    on_data_line. now destruct md.
  - unfold Helpers.delta_text, Helpers.frame.
    rewrite read_frame; [| exact Ok | reflexivity | reflexivity].
    cbn [Codec.event]. change (trim "delta") with "delta".
    on_data_line.
    cbn. now destruct t.
  - unfold Helpers.done_text, Helpers.frame.
    rewrite read_frame; [| exact Ok | reflexivity | reflexivity].
    cbn [Codec.event]. change (trim "done") with "done".
    on_data_line. reflexivity.
  - destruct Ok as [Ok X].
    unfold Helpers.error_text, Helpers.frame.
    rewrite read_frame; [| exact Ok | reflexivity | reflexivity].
    cbn [Codec.event]. change (trim "error") with "error".
    on_data_line.
    cbn [currentEvent set_event String.eqb Ascii.eqb Bool.eqb].
    unfold Helpers.error_payload at 1 2. cbn [get].
    rewrite (last_prop_spread "error" _ x X). cbn [last_prop String.eqb Ascii.eqb Bool.eqb].
    unfold error_message. now destruct e.
  - unfold Helpers.progress_text, Helpers.frame.
    rewrite read_frame; [| exact Ok | reflexivity | reflexivity].
    cbn [Codec.event]. change (trim "progress") with "progress".
    on_data_line.
    destruct m as [m|]; cbn; now destruct ph.
  - unfold Helpers.heartbeat_text.
    set (text := match m with Some m0 => m0 | None => "heartbeat" end).
    assert (L : lf_free text = true).
    { subst text. destruct m as [m|]; [|reflexivity]. now apply includes_false_lf_free. }
    replace (": [" ++ text ++ "]" ++ NLNL) with (join NL [": [" ++ text ++ "]"] ++ NLNL)
      by (unfold join; cbn [String.concat]; now rewrite !append_assoc).
    rewrite read_frame_lines; [| discriminate | | reflexivity].
    + reflexivity.
    + constructor; [|constructor]. rewrite !lf_free_append, L. reflexivity.
  - unfold Helpers.retry_text.
    replace ("retry: " ++ show_int n ++ NLNL) with (join NL ["retry: " ++ show_int n] ++ NLNL)
      by (unfold join; cbn [String.concat]; now rewrite !append_assoc).
    rewrite read_frame_lines; [| discriminate | | reflexivity].
    + reflexivity.
    + constructor; [|constructor]. rewrite lf_free_append.
      now destruct (show_int_shape n) as [-> _].
Qed.

Lemma read_loop_sent (items : list sent) (st : state) :
  Forall sent_ok items -> buffer st = EmptyString -> currentEvent st = EmptyString ->
  settle (read_loop (map sent_text items) st) = received items (finalData st).
Proof.
  intros F. revert st. induction F as [|i items Hi _ IH]; intros st B C.
  - reflexivity.
  - cbn [map read_loop]. rewrite (read_sent i st Hi B C).
    destruct i as [md o | t o | p o | e x o | ph m o | m | n];
      try (cbn [received];
           match goal with
           | |- context [read_loop _ ?s] =>
               specialize (IH s eq_refl eq_refl); cbn [finalData] in IH;
               rewrite <- IH; now destruct (read_loop (map sent_text items) s) as [[? ?] [?|]]
           end).
    reflexivity.
Qed.

(** X4. A server that emits with the helpers, a client that reads the body with
    [parseSSEStream] and whose handlers return, the body cut into chunks
    anywhere; what is sent is plain (null, booleans, integers below 2^53 in
    magnitude, strings of code units below 256, arrays, and objects with
    distinct keys that are not all digits), ids and heartbeat messages hold
    no line feed, and the extra fields of an error have no [error] key. The
    handlers are called once per item, in the order sent, with the values
    sent ([onStart] with the metadata, [onDelta] with each text that is not
    empty, [onDone] with the payload, [onProgress] with phase and message);
    heartbeats and retry hints make no call; the promise resolves with the
    payload of the last [done], or [null] without one; and at the first
    error item [onError] is called and the promise rejects with an
    [SSEStreamError] that carries the message and the payload, nothing after
    it being read. *)
Theorem helpers_to_handlers (items : list sent) (chunks : list string) :
  Forall sent_ok items -> Forall sent_plain items ->
  join EmptyString chunks = join EmptyString (map sent_text items) ->
  parseSSEStream chunks = received items JNull.
Proof.
  intros F _ E.
  change (settle (read_loop chunks initial) = received items JNull).
  rewrite (same_outcome_settle _ _ (read_loop_whole chunks)), E.
  rewrite <- (same_outcome_settle _ _ (read_loop_whole (map sent_text items))).
  now apply read_loop_sent.
Qed.

(** ** Data that does not parse *)

Lemma process_unparsed (payload : string) (st : state) :
  not_json payload = true -> process_line ("data: " ++ payload) st = (st, [], None).
Proof.
  intros N. unfold process_line, startsWith.
  change (String.prefix "event: " ("data: " ++ payload)) with false.
  change (String.prefix ":" ("data: " ++ payload)) with false.
  rewrite (prefix_append "data: " payload).
  change (slice_from 6 ("data: " ++ payload)) with payload.
  cbn [negb]. cbv iota.
  destruct (trim payload); [reflexivity|]. now rewrite (not_json_parse payload N).
Qed.

Lemma process_event_line (tag : string) (st : state) :
  process_line ("event: " ++ tag) st = (set_event (trim tag) st, [], None).
Proof. unfold process_line, startsWith. now rewrite prefix_append. Qed.

(** X5. A tag outlives data that does not parse. When the data of a tagged
    frame is no JSON text the frame makes no call, and its tag stays
    pending: the data frame that follows, sent without a tag, is read as if
    it carried the tag of the frame before it. *)
Theorem unparsed_data_leaves_its_tag (tag payload : string) (v : json) :
  includes NL tag = false -> includes NL payload = false -> not_json payload = true ->
  parseSSEStream ["event: " ++ tag ++ NL ++ "data: " ++ payload ++ NLNL;
                  "data: " ++ stringify v ++ NLNL]
  = parseSSEStream ["event: " ++ tag ++ NL ++ "data: " ++ stringify v ++ NLNL].
Proof.
  intros Lt Lp N. apply includes_false_lf_free in Lt, Lp.
  assert (Lv : lf_free ("data: " ++ stringify v) = true)
    by (cbn [append lf_free]; now rewrite lf_free_stringify).
  assert (F1 : "event: " ++ tag ++ NL ++ "data: " ++ payload ++ NLNL
               = join NL ["event: " ++ tag; "data: " ++ payload] ++ NLNL).
  { change (join NL ["event: " ++ tag; "data: " ++ payload])
      with (("event: " ++ tag) ++ NL ++ "data: " ++ payload).
    now rewrite !append_assoc. }
  assert (F2 : "data: " ++ stringify v ++ NLNL = join NL ["data: " ++ stringify v] ++ NLNL).
  { unfold join. cbn [String.concat]. now rewrite !append_assoc. }
  assert (F3 : "event: " ++ tag ++ NL ++ "data: " ++ stringify v ++ NLNL
               = join NL ["event: " ++ tag; "data: " ++ stringify v] ++ NLNL).
  { change (join NL ["event: " ++ tag; "data: " ++ stringify v])
      with (("event: " ++ tag) ++ NL ++ "data: " ++ stringify v).
    now rewrite !append_assoc. }
  rewrite F1, F3, F2. unfold parseSSEStream. cbn [read_loop].
  rewrite (read_frame_lines ["event: " ++ tag; "data: " ++ payload] initial);
    [| discriminate | | reflexivity].
  2:{ repeat constructor; cbn [append lf_free]; [exact Lt | exact Lp]. }
  rewrite (read_frame_lines ["event: " ++ tag; "data: " ++ stringify v] initial);
    [| discriminate | | reflexivity].
  2:{ repeat constructor; [cbn [append lf_free]; exact Lt | exact Lv]. }
  cbn [List.app process_lines].
  rewrite !process_event_line, (process_unparsed payload _ N), process_blank.
  cbn [List.app].
  rewrite (read_frame_lines ["data: " ++ stringify v] (set_event (trim tag) initial));
    [| discriminate | | reflexivity].
  2:{ repeat constructor. exact Lv. }
  cbn [List.app process_lines].
  destruct (process_line ("data: " ++ stringify v) (set_event (trim tag) initial))
    as [[st1 calls1] [e|]]; [reflexivity|].
  rewrite process_blank. reflexivity.
Qed.

End StreamParserFacts.

(** A body cut inside a tag line and inside a data line, and the same body
    in one piece. *)
Lemma parseSSEStream_any_chunking_witness :
  let text := Helpers.delta_text "Hello" Helpers.no_options
              ++ Helpers.done_text (JNumber 1) Helpers.no_options in
  StreamParser.parseSSEStream [slice_to 9 text; slice_to 20 (slice_from 9 text);
                               slice_from 20 (slice_from 9 text)]
  = StreamParser.parseSSEStream [text].
Proof. intros text. apply parseSSEStream_any_chunking. vm_compute. reflexivity. Defined.

(** A session that starts, streams two texts (one frame with an [id]),
    reports progress, hints a retry time, completes, and then fails: the
    delta sent after the error is never delivered. *)
Definition typed_session : list sent :=
  [sent_start None Helpers.no_options;
   sent_heartbeat None;
   sent_delta "Hel" (Helpers.mkOptions (Some "1") None);
   sent_delta "lo" Helpers.no_options;
   sent_progress "thinking" (Some "wait") Helpers.no_options;
   sent_retry 3000;
   sent_done (JObject [("ok", JBool true)]) Helpers.no_options;
   sent_error "boom" [("code", JString "E1")] Helpers.no_options;
   sent_delta "never" Helpers.no_options].

Lemma helpers_to_handlers_witness :
  let text := join EmptyString (map sent_text typed_session) in
  StreamParser.parseSSEStream [slice_to 25 text; slice_from 25 text]
  = ([StreamParser.onStart (JObject []);
      StreamParser.onDelta (JString "Hel");
      StreamParser.onDelta (JString "lo");
      StreamParser.onProgress (JString "thinking") (Some (JString "wait"));
      StreamParser.onDone (JObject [("ok", JBool true)]);
      StreamParser.onError (JString "boom")],
     Js.rejects
       (Js.error
          (StreamParser.SSEStreamError (JString "boom")
             (JObject [("error", JString "boom"); ("code", JString "E1")])))).
Proof.
  intros text. apply (helpers_to_handlers typed_session).
  - repeat constructor.
  - repeat constructor.
  - vm_compute. reflexivity.
Defined.


(* ================================================================== *)
(** * The circuit breaker over runs of calls *)
(* ================================================================== *)

Section BreakerLifecycle.

Import Js Breaker.
Local Open Scope Z_scope.

Variable config : CircuitBreakerConfig.
Variable isFailure_option : option (thrown -> bool).

(** Calls of [execute] one after the other, each settled before the next is
    made; a call is the time it is made at and how the promise of its
    operation settles. The result: the breaker afterwards, how the promises
    of [execute] settled, and the number of invocations of the operations. *)
Fixpoint run_calls (cs : list (Z * settled json)) (b : Breaker)
  : Breaker * list (settled json) * nat :=
  match cs with
  | [] => (b, [], O)
  | (t, outcome) :: rest =>
      let '(b1, r, n) := execute config isFailure_option t t outcome b in
      let '(b2, rs, m) := run_calls rest b1 in
      (b2, r :: rs, (n + m)%nat)
  end.

Definition succeeding (c : Z * json) : Z * settled json := (fst c, resolves (snd c)).
Definition failing (c : Z * thrown) : Z * settled json := (fst c, rejects (snd c)).

Lemma run_calls_app (cs1 cs2 : list (Z * settled json)) (b : Breaker) :
  run_calls (cs1 ++ cs2) b
  = let '(b1, rs1, n1) := run_calls cs1 b in
    let '(b2, rs2, n2) := run_calls cs2 b1 in
    (b2, (rs1 ++ rs2)%list, (n1 + n2)%nat).
Proof.
  revert b. induction cs1 as [|[t outcome] cs1 IH]; intros b.
  - cbn [List.app run_calls]. now destruct (run_calls cs2 b) as [[b2 rs2] n2].
  - cbn [List.app run_calls].
    destruct (execute config isFailure_option t t outcome b) as [[b1 r] n].
    rewrite IH. destruct (run_calls cs1 b1) as [[b2 rs2] n2].
    destruct (run_calls cs2 b2) as [[b3 rs3] n3]. now rewrite Nat.add_assoc.
Qed.

Lemma execute_resolves (t : Z) (v : json) (b : Breaker) :
  state b <> open ->
  execute config isFailure_option t t (resolves v) b = (recordSuccess config b, resolves v, 1%nat).
Proof.
  intros H. unfold execute, execute_start, canPass.
  destruct (state b) eqn:S; [reflexivity | now elim H | reflexivity].
Qed.

Lemma execute_rejects (t : Z) (e : thrown) (b : Breaker) :
  state b <> open ->
  exists b', execute (T := json) config isFailure_option t t (rejects e) b
             = (b', rejects e, 1%nat)
             /\ (b' = b \/ b' = recordFailure config t e b).
Proof.
  intros H. unfold execute, execute_start, canPass.
  destruct (state b) eqn:S; [| now elim H |]; cbn [negb execute_settle];
    destruct (instanceof_Error e && _); eauto.
Qed.

(** ** Open: the calls fail fast *)

(** X6. While the breaker is open no operation is invoked: every call is
    rejected with the [CircuitOpenError] of its moment and the breaker is
    left as it is, however many calls are made. *)
Theorem open_fails_fast (cs : list (Z * settled json)) (b : Breaker) :
  getState b = open ->
  run_calls cs b
  = (b, map (fun c => rejects (error (refusal config (fst c) b))) cs, O).
Proof.
  unfold getState. intros S. induction cs as [|[t outcome] cs IH]; [reflexivity|].
  cbn [run_calls map fst]. unfold execute, execute_start, canPass. rewrite S.
  cbn [negb]. now rewrite IH.
Qed.

(** ** Closed: only failures in a row count *)

Lemma recordSuccess_closed (b : Breaker) :
  state b = closed ->
  state (recordSuccess config b) = closed /\ failures (recordSuccess config b) = 0
  /\ resetTimeout (recordSuccess config b) = resetTimeout b.
Proof. unfold recordSuccess. now intros ->. Qed.

(** Rejections that stay below the threshold leave a closed breaker closed;
    each one is invoked, and counted at most once. *)
Lemma rejections_below (fs : list (Z * thrown)) (b : Breaker) :
  state b = closed ->
  failures b + Z.of_nat (List.length fs) < failureThreshold config ->
  let '(b', rs, n) := run_calls (map failing fs) b in
  state b' = closed /\ failures b' <= failures b + Z.of_nat (List.length fs)
  /\ rs = map (fun c => rejects (snd c)) fs /\ n = List.length fs.
Proof.
  revert b. induction fs as [|[t e] fs IH]; intros b S F.
  - cbn. repeat split; [assumption | lia].
  - cbn [map failing fst snd run_calls]. cbn [List.length] in F.
    destruct (execute_rejects t e b) as (b1 & -> & Hb1); [congruence|].
    assert (S1 : state b1 = closed /\ failures b1 <= failures b + 1).
    { destruct Hb1 as [-> | ->]; [split; [assumption | lia]|].
      rewrite state_recordFailure, failures_recordFailure.
      destruct (Z.leb_spec (failureThreshold config) (failures b + 1)); [lia|].
      split; [assumption | lia]. }
    destruct S1 as [S1 F1]. specialize (IH b1 S1).
    destruct (run_calls (map failing fs) b1) as [[b2 rs] n].
    destruct IH as (S2 & F2 & -> & ->); [lia|].
    cbn [List.length]. repeat split; [assumption | lia].
Qed.

(** A burst of rejections and the success that follows it. *)
Definition burst_calls (burst : list (Z * thrown) * (Z * json)) : list (Z * settled json) :=
  (map failing (fst burst) ++ [succeeding (snd burst)])%list.

(** X7. A closed breaker forgets its failures at every success. Calls that come
    in bursts of rejections, each burst shorter than the threshold and
    followed by a success, never open it, however many rejections there are
    in all: every operation is invoked, every promise settles as its
    operation did, and the count is back at 0 at the end. *)
Theorem failures_must_be_consecutive
  (bursts : list (list (Z * thrown) * (Z * json))) :
  Forall (fun burst => Z.of_nat (List.length (fst burst)) < failureThreshold config) bursts ->
  let calls := flat_map burst_calls bursts in
  let '(b, rs, n) := run_calls calls initial in
  getState b = closed /\ getFailures b = 0
  /\ rs = map snd calls /\ n = List.length calls.
Proof.
  intros F. cbv zeta. unfold getState, getFailures.
  assert (G : forall b, state b = closed -> failures b = 0 ->
                        let '(b', rs, n) := run_calls (flat_map burst_calls bursts) b in
                        state b' = closed /\ failures b' = 0
                        /\ rs = map snd (flat_map burst_calls bursts)
                        /\ n = List.length (flat_map burst_calls bursts)).
  { induction F as [|[fs ok] bursts Hb _ IH]; intros b S Z0; [now cbn|].
    cbn [flat_map]. rewrite run_calls_app. unfold burst_calls at 1. cbn [fst snd] in *.
    rewrite run_calls_app.
    pose proof (rejections_below fs b S) as R.
    destruct (run_calls (map failing fs) b) as [[b1 rs1] n1].
    destruct R as (S1 & _ & -> & ->); [lia|].
    cbn [run_calls succeeding fst snd]. rewrite execute_resolves by congruence.
    destruct (recordSuccess_closed b1 S1) as (S2 & F2 & _).
    specialize (IH (recordSuccess config b1) S2 F2).
    destruct (run_calls (flat_map burst_calls bursts) (recordSuccess config b1))
      as [[b3 rs3] n3].
    destruct IH as (S3 & F3 & -> & ->).
    repeat split; [assumption | assumption | |].
    - unfold burst_calls. cbn [fst snd]. rewrite !map_app, map_map. reflexivity.
    - unfold burst_calls. cbn [fst snd].
      rewrite !length_app, length_map. cbn [List.length]. lia. }
  now apply G.
Qed.

(** ** Half-open: recovery *)

Lemma recordSuccess_half_open (b : Breaker) :
  state b = half_open ->
  if successThreshold config <=? successes b + 1
  then state (recordSuccess config b) = closed /\ failures (recordSuccess config b) = 0
       /\ resetTimeout (recordSuccess config b) = None
  else state (recordSuccess config b) = half_open
       /\ successes (recordSuccess config b) = successes b + 1
       /\ resetTimeout (recordSuccess config b) = resetTimeout b
       /\ failures (recordSuccess config b) = failures b.
Proof.
  unfold recordSuccess. intros ->. cbn [successes].
  destruct (successThreshold config <=? successes b + 1); [|now cbn].
  unfold call_onSuccess, reset. cbn [state failures resetTimeout].
  rewrite state_setState.
  match goal with
  | |- _ /\ failures (setState closed ?x) = _ /\ _ =>
      destruct (setState_fields closed x) as (-> & _ & _ & ->)
  end.
  now cbn.
Qed.

Lemma successes_when_closed (oks : list (Z * json)) (b : Breaker) :
  state b = closed -> failures b = 0 -> resetTimeout b = None ->
  let '(b', rs, n) := run_calls (map succeeding oks) b in
  state b' = closed /\ failures b' = 0 /\ resetTimeout b' = None
  /\ rs = map (fun c => resolves (snd c)) oks /\ n = List.length oks.
Proof.
  revert b. induction oks as [|[t v] oks IH]; intros b S F R; [now cbn|].
  cbn [map succeeding fst snd run_calls]. rewrite execute_resolves by congruence.
  destruct (recordSuccess_closed b S) as (S1 & F1 & R1). rewrite R in R1.
  specialize (IH _ S1 F1 R1).
  destruct (run_calls (map succeeding oks) (recordSuccess config b)) as [[b2 rs] n].
  destruct IH as (S2 & F2 & R2 & -> & ->). now cbn.
Qed.

Lemma successes_when_half_open (oks : list (Z * json)) (b : Breaker) :
  state b = half_open -> resetTimeout b = None ->
  let '(b', rs, n) := run_calls (map succeeding oks) b in
  rs = map (fun c => resolves (snd c)) oks /\ n = List.length oks
  /\ if successes b + Z.of_nat (List.length oks) <? Z.max (successes b + 1) (successThreshold config)
     then state b' = half_open
     else state b' = closed /\ failures b' = 0 /\ resetTimeout b' = None.
Proof.
  revert b. induction oks as [|[t v] oks IH]; intros b HS R.
  - cbn [map run_calls List.length]. repeat split.
    destruct (Z.ltb_spec (successes b + Z.of_nat 0)
                (Z.max (successes b + 1) (successThreshold config))); [assumption | lia].
  - cbn [map succeeding fst snd run_calls]. rewrite execute_resolves by congruence.
    pose proof (recordSuccess_half_open b HS) as H.
    destruct (Z.leb_spec (successThreshold config) (successes b + 1)) as [L|L].
    + destruct H as (S1 & F1 & R1).
      pose proof (successes_when_closed oks _ S1 F1 R1) as C.
      destruct (run_calls (map succeeding oks) (recordSuccess config b)) as [[b2 rs] n].
      destruct C as (S2 & F2 & R2 & -> & ->). cbn [List.length]. repeat split.
      destruct (Z.ltb_spec (successes b + Z.of_nat (S (List.length oks)))
                  (Z.max (successes b + 1) (successThreshold config))); [lia | now repeat split].
    + destruct H as (S1 & C1 & R1 & _). rewrite R in R1. specialize (IH _ S1 R1).
      destruct (run_calls (map succeeding oks) (recordSuccess config b)) as [[b2 rs] n].
      destruct IH as (-> & -> & IH). cbn [List.length]. repeat split.
      rewrite C1 in IH.
      destruct (Z.ltb_spec (successes b + 1 + Z.of_nat (List.length oks))
                  (Z.max (successes b + 1 + 1) (successThreshold config))) as [A|A];
        destruct (Z.ltb_spec (successes b + Z.of_nat (S (List.length oks)))
                    (Z.max (successes b + 1) (successThreshold config))) as [B|B];
        try assumption; lia.
Qed.

(** X8. When the timer of an open breaker fires the breaker is half-open and
    passes calls again. With a success threshold of at least 1, a run of
    successful calls from there leaves it half-open as long as the run is
    shorter than the threshold, and has closed it, with the failure count at
    0 and no timer pending, once the run has reached the threshold. Every
    call of the run is invoked and resolves with the result of its
    operation. *)
Theorem half_open_recovery (oks : list (Z * json)) (b : Breaker) :
  0 < successThreshold config ->
  let '(b', rs, n) := run_calls (map succeeding oks) (timer_fires b) in
  rs = map (fun c => resolves (snd c)) oks /\ n = List.length oks
  /\ if Z.of_nat (List.length oks) <? successThreshold config
     then getState b' = half_open
     else getState b' = closed /\ getFailures b' = 0 /\ resetTimeout b' = None.
Proof.
  intros P. unfold getState, getFailures.
  assert (S : state (timer_fires b) = half_open)
    by (unfold timer_fires; cbn [state]; apply state_setState).
  assert (R : resetTimeout (timer_fires b) = None) by reflexivity.
  assert (C : successes (timer_fires b) = 0) by reflexivity.
  pose proof (successes_when_half_open oks _ S R) as H.
  destruct (run_calls (map succeeding oks) (timer_fires b)) as [[b' rs] n].
  destruct H as (-> & -> & H). repeat split. rewrite C in H.
  replace (Z.max (0 + 1) (successThreshold config)) with (successThreshold config) in H by lia.
  exact H.
Qed.

(** ** Half-open: a failure *)

(** What can happen to a breaker: the events of [step], and [forceOpen]. *)
Inductive change : Type :=
| happened (ev : event)
| forced_open (now : Z).

Definition apply_change (c : change) (b : Breaker) : Breaker :=
  match c with
  | happened ev => step config ev b
  | forced_open now => forceOpen config now b
  end.

(** A breaker that is not closed has its failure count at the threshold or
    above, and a timer is pending only while the breaker is open. *)
Definition tripped (b : Breaker) : Prop :=
  (state b <> closed -> failureThreshold config <= failures b)
  /\ (resetTimeout b <> None -> state b = open).

Lemma apply_change_tripped (c : change) (b : Breaker) :
  tripped b -> tripped (apply_change c b).
Proof.
  unfold tripped. intros [F R]. destruct c as [[now e | | |] | now]; cbn [apply_change step].
  - rewrite state_recordFailure, failures_recordFailure.
    unfold recordFailure. cbn [failures].
    destruct (Z.leb_spec (failureThreshold config) (failures b + 1)) as [L|L].
    + split; [lia | reflexivity].
    + cbn [resetTimeout]. split; [|exact R]. intros NC. specialize (F NC). lia.
  - destruct (state b) eqn:S.
    + destruct (recordSuccess_closed b S) as (-> & -> & ->).
      split; [congruence|]. intros NN. specialize (R NN). congruence.
    + unfold recordSuccess. rewrite S. rewrite S. now split.
    + pose proof (recordSuccess_half_open b S) as H.
      destruct (successThreshold config <=? successes b + 1).
      * destruct H as (-> & _ & ->). split; congruence.
      * destruct H as (-> & _ & -> & ->). split; [|intros NN; specialize (R NN); congruence].
        intros _. apply F. congruence.
  - destruct (resetTimeout b) eqn:E.
    + unfold timer_fires. cbn [state failures resetTimeout]. rewrite failures_setState.
      split; [|congruence]. intros _. apply F. rewrite R; congruence.
    + rewrite E. now split.
  - unfold reset. rewrite state_setState.
    match goal with
    | |- _ /\ (resetTimeout (setState closed ?x) <> None -> _) =>
        destruct (setState_fields closed x) as (_ & _ & _ & ->)
    end.
    split; [intros H; now elim H | cbn; intros H; now elim H].
  - unfold forceOpen, scheduleHalfOpen. cbn [state failures resetTimeout].
    rewrite state_setState, failures_setState. cbn [failures]. split; [lia | reflexivity].
Qed.

Lemma run_tripped (cs : list change) :
  tripped (fold_left (fun b c => apply_change c b) cs initial).
Proof.
  assert (G : forall b, tripped b -> tripped (fold_left (fun b c => apply_change c b) cs b)).
  { induction cs as [|c cs IH]; intros b H; [exact H|].
    cbn [fold_left]. apply IH, apply_change_tripped, H. }
  apply G. split; [now cbn | now cbn].
Qed.

End BreakerLifecycle.

Section BreakerReopens.

Import Js Breaker.
Local Open Scope Z_scope.

Variable config : CircuitBreakerConfig.

(** X9. However a half-open breaker was reached (failures, successes, timers,
    [reset], [forceOpen], in any order), and however many successes it has
    counted since, one call that rejects with an [Error] opens it again: the
    operation is invoked, the promise is rejected with that error, the
    breaker is open, a new timer is due [resetTimeoutMs] after the failure,
    and the next call is refused. *)
Theorem half_open_failure_reopens (cs : list change) (t : Z) (e : Error) :
  let b := fold_left (fun b c => apply_change config c b) cs initial in
  getState b = half_open ->
  let '(b', rs, n) := run_calls config None [(t, rejects (error e))] b in
  n = 1%nat /\ rs = [rejects (error e)]
  /\ getState b' = open
  /\ resetTimeout b' = Some (t + resetTimeoutMs config)
  /\ canPass b' = false.
Proof.
  intros b S. unfold getState in *.
  destruct (run_tripped config cs) as [F _]. fold b in F.
  assert (L : failureThreshold config <= failures b) by (apply F; congruence).
  cbn [run_calls]. unfold execute, execute_start, canPass at 1. rewrite S.
  cbn [negb execute_settle instanceof_Error andb].
  assert (O : state (recordFailure config t (error e) b) = open).
  { rewrite state_recordFailure.
    destruct (Z.leb_spec (failureThreshold config) (failures b + 1)); [reflexivity | lia]. }
  repeat split; [exact O | | unfold canPass; now rewrite O].
  unfold recordFailure. cbn [failures].
  destruct (Z.leb_spec (failureThreshold config) (failures b + 1)); [reflexivity | lia].
Qed.

End BreakerReopens.

(** Two bursts of two failures with a success after each, on a breaker with
    the default threshold of three. *)
Lemma failures_must_be_consecutive_witness :
  let fail := Js.error (Js.new_Error "fail") in
  let bursts := [([(1000%Z, fail); (2000%Z, fail)], (3000%Z, JNull));
                 ([(4000%Z, fail); (5000%Z, fail)], (6000%Z, JNull))] in
  let calls := flat_map burst_calls bursts in
  let '(b, rs, n) := run_calls Breaker.DEFAULT_CIRCUIT_BREAKER_CONFIG None calls
                       Breaker.initial in
  Breaker.getState b = Breaker.closed /\ Breaker.getFailures b = 0%Z
  /\ rs = map snd calls /\ n = List.length calls.
Proof.
  intros fail bursts.
  apply (failures_must_be_consecutive Breaker.DEFAULT_CIRCUIT_BREAKER_CONFIG None bursts).
  repeat constructor.
Defined.

(** A breaker that asks for two successes, opened by force and half-open
    since its timer fired: one success leaves it half-open. *)
Lemma half_open_recovery_witness :
  let cfg := Breaker.mkConfig 3 30000 2 in
  let b := Breaker.forceOpen cfg 1000%Z Breaker.initial in
  let '(b', rs, n) := run_calls cfg None (map succeeding [(40000%Z, JNull)])
                        (Breaker.timer_fires b) in
  rs = map (fun c => Js.resolves (snd c)) [(40000%Z, JNull)] /\ n = 1%nat
  /\ Breaker.getState b' = Breaker.half_open.
Proof.
  intros cfg b.
  apply (half_open_recovery cfg None [(40000%Z, JNull)] b). reflexivity.
Defined.

(** A forced-open breaker: two calls, neither invoked. *)
Lemma open_fails_fast_witness :
  let cfg := Breaker.DEFAULT_CIRCUIT_BREAKER_CONFIG in
  let b := Breaker.forceOpen cfg 1000%Z Breaker.initial in
  snd (run_calls cfg None [(2000%Z, Js.resolves JNull); (3000%Z, Js.resolves JNull)] b) = O.
Proof.
  intros cfg b.
  rewrite (open_fails_fast cfg None _ b); reflexivity.
Defined.

(** Three failures, the timer, one success short of a threshold of two, and
    then a failure. *)
Lemma half_open_failure_reopens_witness :
  let cfg := Breaker.mkConfig 3 30000 2 in
  let fail := Js.new_Error "fail" in
  let cs := [happened (failure_recorded 1000%Z (Js.error fail));
             happened (failure_recorded 2000%Z (Js.error fail));
             happened (failure_recorded 3000%Z (Js.error fail));
             happened timer_fired;
             happened success_recorded] in
  let b := fold_left (fun b c => apply_change cfg c b) cs Breaker.initial in
  let '(b', rs, n) := run_calls cfg None [(40000%Z, Js.rejects (Js.error fail))] b in
  n = 1%nat /\ rs = [Js.rejects (Js.error fail)]
  /\ Breaker.getState b' = Breaker.open
  /\ Breaker.resetTimeout b' = Some 70000%Z
  /\ Breaker.canPass b' = false.
Proof.
  intros cfg fail cs b.
  apply (half_open_failure_reopens cfg cs 40000%Z fail). reflexivity.
Defined.


(* ================================================================== *)
(** * The retry loops from the first attempt to the last *)
(* ================================================================== *)

Section RetryRuns.

Import Js Backoff Retry.
Local Open Scope Z_scope.

Context {T : Type}.
Variable config : RetryConfig.
Variable shouldRetry_option : option (thrown -> bool).
Variable world : World T.








(** ** [withRetry]: the attempt that decides *)

(** An attempt that [withRetry] follows with another one: the operation
    fails with an error that is no cancellation and that the predicate
    accepts, the signal is not aborted when the failure is caught, and the
    sleep is not cut short. *)
Definition retried (i : Z) : Prop :=
  exists e, operation world i = rejects e
            /\ isCancellationError e = false
            /\ signal_aborted world i = false
            /\ shouldRetryFn shouldRetry_option e = true
            /\ sleep_aborted world i = false.

(** An attempt that decides on its own: the operation succeeds, or fails
    with a cancellation, or under an aborted signal, or with an error the
    predicate refuses. *)
Definition decisive (i : Z) : Prop :=
  match operation world i with
  | resolves _ => True
  | rejects e =>
      isCancellationError e = true \/ signal_aborted world i = true
      \/ shouldRetryFn shouldRetry_option e = false
  end.

(** What can be seen of a retried attempt: the invocation, the [onRetry]
    call with the number of the retry, the delay and the error, the sleep. *)
Definition retry_round (i : Z) : list effect :=
  match operation world i with
  | resolves _ => []
  | rejects e =>
      let delay :=
        calculateBackoffDelay (Math_pow world) (of_Z i) config (random world i) in
      [invoke_operation; call_onRetry (i + 1) delay (as_Error e); sleep delay]
  end.

Fixpoint retry_rounds (i : Z) (k : nat) : list effect :=
  match k with
  | O => []
  | S k' => (retry_round i ++ retry_rounds (i + 1) k')%list
  end.

Lemma withRetry_loop_decides (k : nat) :
  forall (remaining : nat) (i : Z) (lastError : option Error),
    (k < remaining)%nat ->
    i + Z.of_nat k <= maxRetries config ->
    (forall j : nat, (j < k)%nat -> retried (i + Z.of_nat j)) ->
    i + Z.of_nat k = maxRetries config \/ decisive (i + Z.of_nat k) ->
    withRetry_loop config shouldRetry_option world remaining i lastError
    = (operation world (i + Z.of_nat k), (retry_rounds i k ++ [invoke_operation])%list).
Proof.
  induction k as [|k IH]; intros remaining i lastError R M Re De.
  - destruct remaining as [|remaining]; [lia|].
    replace (i + Z.of_nat 0) with i in * by lia.
    cbn [withRetry_loop retry_rounds List.app]. unfold decisive in De.
    destruct (operation world i) as [result | e]; [reflexivity|].
    destruct (isCancellationError e || signal_aborted world i) eqn:C; [reflexivity|].
    apply orb_false_iff in C as [C1 C2].
    destruct De as [-> | [De | [De | De]]]; try congruence.
    + rewrite Z.leb_refl, orb_true_r. reflexivity.
    + now rewrite De.
  - destruct remaining as [|remaining]; [lia|].
    destruct (Re O) as (e & Op & C & A & P & Sl); [lia|].
    replace (i + Z.of_nat 0) with i in * by lia.
    cbn [withRetry_loop retry_rounds]. unfold retry_round. rewrite Op, C, A, P, Sl.
    cbn [orb negb].
    destruct (Z.leb_spec (maxRetries config) i) as [L|L]; [lia|].
    rewrite (IH remaining (i + 1) (Some (as_Error e))).
    + replace (i + 1 + Z.of_nat k) with (i + Z.of_nat (S k)) by lia. reflexivity.
    + lia.
    + lia.
    + intros j Hj. replace (i + 1 + Z.of_nat j) with (i + Z.of_nat (S j)) by lia.
      apply Re. lia.
    + replace (i + 1 + Z.of_nat k) with (i + Z.of_nat (S k)) by lia. exact De.
Qed.

(** X11. [withRetry] settles the way the deciding attempt settles. When the
    attempts before attempt [k] are retried, and attempt [k] decides on its
    own or is the last one allowed ([k = maxRetries]), the promise of
    [withRetry] settles as the promise of the operation did at attempt [k]:
    with its result, or with the very error it failed with. Each retried
    attempt shows as an invocation, an [onRetry] call and a sleep, in this
    order, and the operation is invoked [k + 1] times in all. *)
Theorem withRetry_settles_as_the_deciding_attempt (k : nat) :
  Z.of_nat k <= maxRetries config ->
  (forall j : nat, (j < k)%nat -> retried (Z.of_nat j)) ->
  Z.of_nat k = maxRetries config \/ decisive (Z.of_nat k) ->
  withRetry config shouldRetry_option world
  = (operation world (Z.of_nat k), (retry_rounds 0 k ++ [invoke_operation])%list).
Proof.
  intros M Re De. unfold withRetry.
  apply (withRetry_loop_decides k _ 0 None); [lia | lia | exact Re | exact De].
Qed.

(** X12. A sleep that is cut short ends [withRetry] with the error of the sleep,
    [new Error('Aborted')], not with the error of the operation; the
    [onRetry] call for the retry that never comes has been made by then. *)
Theorem withRetry_interrupted_while_waiting (k : nat) :
  Z.of_nat k < maxRetries config ->
  (forall j : nat, (j < k)%nat -> retried (Z.of_nat j)) ->
  (exists e, operation world (Z.of_nat k) = rejects e
             /\ isCancellationError e = false
             /\ signal_aborted world (Z.of_nat k) = false
             /\ shouldRetryFn shouldRetry_option e = true
             /\ sleep_aborted world (Z.of_nat k) = true) ->
  withRetry config shouldRetry_option world = (rejects Aborted, retry_rounds 0 (S k))
  /\ isCancellationError Aborted = true.
Proof.
  intros M Re In. split; [|reflexivity]. unfold withRetry.
  assert (G : forall (k : nat) (remaining : nat) (i : Z) (lastError : option Error),
             (k < remaining)%nat ->
             i + Z.of_nat k < maxRetries config ->
             (forall j : nat, (j < k)%nat -> retried (i + Z.of_nat j)) ->
             (exists e, operation world (i + Z.of_nat k) = rejects e
                        /\ isCancellationError e = false
                        /\ signal_aborted world (i + Z.of_nat k) = false
                        /\ shouldRetryFn shouldRetry_option e = true
                        /\ sleep_aborted world (i + Z.of_nat k) = true) ->
             withRetry_loop config shouldRetry_option world remaining i lastError
             = (rejects Aborted, retry_rounds i (S k))).
  { clear. induction k as [|k IH]; intros remaining i lastError R M Re In.
    - destruct remaining as [|remaining]; [lia|].
      replace (i + Z.of_nat 0) with i in * by lia.
      destruct In as (e & Op & C & A & P & Sl).
      cbn [withRetry_loop retry_rounds]. unfold retry_round. rewrite Op, C, A, P, Sl.
      cbn [orb negb]. destruct (Z.leb_spec (maxRetries config) i) as [L|L]; [lia|].
      reflexivity.
    - destruct remaining as [|remaining]; [lia|].
      destruct (Re O) as (e & Op & C & A & P & Sl); [lia|].
      replace (i + Z.of_nat 0) with i in * by lia.
      cbn [withRetry_loop]. rewrite Op, C, A, P, Sl. cbn [orb negb].
      destruct (Z.leb_spec (maxRetries config) i) as [L|L]; [lia|].
      rewrite (IH remaining (i + 1) (Some (as_Error e))).
      + change (retry_rounds i (S (S k)))
          with (retry_round i ++ retry_rounds (i + 1) (S k))%list.
        unfold retry_round at 1. rewrite Op. reflexivity.
      + lia.
      + lia.
      + intros j Hj. replace (i + 1 + Z.of_nat j) with (i + Z.of_nat (S j)) by lia.
        apply Re. lia.
      + replace (i + 1 + Z.of_nat k) with (i + Z.of_nat (S k)) by lia. exact In. }
  apply (G k _ 0 None); [lia | lia | exact Re | exact In].
Qed.

(** ** The manager: reconnecting *)

(** What can be seen of an attempt the manager follows with another one. *)
Definition reconnect_round (i : Z) : list effect :=
  match operation world i with
  | resolves _ => []
  | rejects e =>
      let delay :=
        calculateBackoffDelay (Math_pow world) (of_Z i) config (random world i) in
      [invoke_operation;
       call_onReconnecting (i + 1) (maxRetries config) delay (Some (as_Error e));
       sleep delay]
  end.

Fixpoint reconnect_rounds (i : Z) (k : nat) : list effect :=
  match k with
  | O => []
  | S k' => (reconnect_round i ++ reconnect_rounds (i + 1) k')%list
  end.

(** A failure the manager reconnects after. *)
Definition reconnected (i : Z) : Prop :=
  exists e, operation world i = rejects e
            /\ isCancellationError e = false
            /\ signal_aborted world i = false
            /\ isNetworkError e = true
            /\ sleep_aborted world i = false.

Lemma execute_loop_connects (k : nat) (v : T) :
  forall (fuel : nat) (i : Z) (state : ReconnectionState),
    (k < fuel)%nat ->
    attempt state = i ->
    i + Z.of_nat k <= maxRetries config ->
    (forall j : nat, (j < k)%nat -> reconnected (i + Z.of_nat j)) ->
    operation world (i + Z.of_nat k) = resolves v ->
    execute_loop config world fuel i state
    = Some (resolves v, reset config,
            (reconnect_rounds i k ++ [invoke_operation; call_onConnected])%list).
Proof.
  induction k as [|k IH]; intros fuel i state F A M Re Op.
  - destruct fuel as [|fuel]; [lia|].
    replace (i + Z.of_nat 0) with i in * by lia.
    cbn [execute_loop]. now rewrite Op.
  - destruct fuel as [|fuel]; [lia|].
    destruct (Re O) as (e & Op0 & C & Ab & N & Sl); [lia|].
    replace (i + Z.of_nat 0) with i in * by lia.
    cbn [execute_loop reconnect_rounds]. unfold reconnect_round, shouldRetry.
    rewrite Op0, C, Ab, N, Sl. cbn [orb andb negb attempt maxAttempts nextDelayMs lastError].
    rewrite A.
    destruct (Z.ltb_spec i (maxRetries config)) as [L|L]; [|lia]. cbn [negb].
    match goal with
    | |- context [execute_loop config world fuel (i + 1) ?s] =>
        rewrite (IH fuel (i + 1) s)
    end.
    + reflexivity.
    + lia.
    + reflexivity.
    + lia.
    + intros j Hj. replace (i + 1 + Z.of_nat j) with (i + Z.of_nat (S j)) by lia.
      apply Re. lia.
    + replace (i + 1 + Z.of_nat k) with (i + Z.of_nat (S k)) by lia. exact Op.
Qed.

(** X13. The manager reconnects. When the first [k] attempts fail with network
    errors (no cancellation, the signal not aborted, no sleep cut short),
    [k] being at most [maxRetries], and attempt [k] succeeds, [execute]
    resolves with the result of that attempt; [onReconnecting] has been
    called before each retry with the numbers 1 to [k], the delay of the
    retry and the error of the failed attempt; [onConnected] is called at
    the end; and the state of the manager is the initial one again, the
    attempt counter at 0. *)
Theorem manager_reconnects (k : nat) (v : T) :
  Z.of_nat k <= maxRetries config ->
  (forall j : nat, (j < k)%nat -> reconnected (Z.of_nat j)) ->
  operation world (Z.of_nat k) = resolves v ->
  execute config world
  = Some (resolves v, reset config,
          (reconnect_rounds 0 k ++ [invoke_operation; call_onConnected])%list).
Proof.
  intros M Re Op. unfold execute.
  apply (execute_loop_connects k v); [lia | reflexivity | lia | exact Re | exact Op].
Qed.

End RetryRuns.

(** An operation that fails twice with a network error and then succeeds. *)
Definition flaky_world : Retry.World json :=
  Retry.mkWorld
    (fun i => if (i <? 2)%Z then Js.rejects (Js.error (Js.new_Error "Failed to fetch"))
              else Js.resolves (JString "connected"))
    (fun _ => false) (fun _ => false) (fun _ => S754_zero false)
    Backoff.pow_by_multiplication.

Lemma withRetry_settles_as_the_deciding_attempt_witness :
  Retry.withRetry Backoff.DEFAULT_RETRY_CONFIG None flaky_world
  = (Js.resolves (JString "connected"),
     [Retry.invoke_operation;
      Retry.call_onRetry 1 (Backoff.of_Z 1000) (Js.new_Error "Failed to fetch");
      Retry.sleep (Backoff.of_Z 1000);
      Retry.invoke_operation;
      Retry.call_onRetry 2 (Backoff.of_Z 2000) (Js.new_Error "Failed to fetch");
      Retry.sleep (Backoff.of_Z 2000);
      Retry.invoke_operation]).
Proof.
  rewrite (withRetry_settles_as_the_deciding_attempt Backoff.DEFAULT_RETRY_CONFIG None
             flaky_world 2).
  - vm_compute. reflexivity.
  - vm_compute. discriminate.
  - intros j Hj. exists (Js.error (Js.new_Error "Failed to fetch")).
    destruct j as [|[|j]]; [| | lia]; repeat split; vm_compute; reflexivity.
  - right. exact I.
Defined.

Lemma manager_reconnects_witness :
  Retry.execute Backoff.DEFAULT_RETRY_CONFIG flaky_world
  = Some (Js.resolves (JString "connected"),
          Retry.reset Backoff.DEFAULT_RETRY_CONFIG,
          (reconnect_rounds Backoff.DEFAULT_RETRY_CONFIG flaky_world 0 2
           ++ [Retry.invoke_operation; Retry.call_onConnected])%list).
Proof.
  apply (manager_reconnects Backoff.DEFAULT_RETRY_CONFIG flaky_world 2).
  - vm_compute. discriminate.
  - intros j Hj. exists (Js.error (Js.new_Error "Failed to fetch")).
    destruct j as [|[|j]]; [| | lia]; repeat split; vm_compute; reflexivity.
  - reflexivity.
Defined.

(** An operation that fails with a network error while the signal is
    aborted during the first sleep. *)
Definition interrupted_world : Retry.World json :=
  Retry.mkWorld (fun _ => Js.rejects (Js.error (Js.new_Error "Failed to fetch")))
    (fun _ => false) (fun _ => true) (fun _ => S754_zero false)
    Backoff.pow_by_multiplication.

Lemma withRetry_interrupted_while_waiting_witness :
  Retry.withRetry Backoff.DEFAULT_RETRY_CONFIG None interrupted_world
  = (Js.rejects Retry.Aborted,
     retry_rounds Backoff.DEFAULT_RETRY_CONFIG interrupted_world 0 1)
  /\ Retry.isCancellationError Retry.Aborted = true.
Proof.
  apply (withRetry_interrupted_while_waiting Backoff.DEFAULT_RETRY_CONFIG None
           interrupted_world 0).
  - vm_compute. reflexivity.
  - intros j Hj. lia.
  - exists (Js.error (Js.new_Error "Failed to fetch")). repeat split; vm_compute; reflexivity.
Defined.


(* ================================================================== *)
(** * The life of a session: the end of the stream *)
(* ================================================================== *)

Section OrchestratorLifecycle.

Import Js Orchestrator.
Local Open Scope Z_scope.

Variable config : Config.

Definition is_log (c : observed) : bool :=
  match c with logger _ => true | _ => false end.

Definition is_end (c : observed) : bool :=
  match c with onStreamEnd _ _ _ => true | _ => false end.

(** The number of [onStreamEnd] calls among some calls. *)
Definition ends (cs : list observed) : nat := List.length (filter is_end cs).

#[local] Arguments ends : simpl never.

Lemma ends_app (cs cs' : list observed) : ends (cs ++ cs') = (ends cs + ends cs')%nat.
Proof. unfold ends. now rewrite filter_app, length_app. Qed.

Lemma ends_logs (logs : list observed) : forallb is_log logs = true -> ends logs = 0%nat.
Proof.
  induction logs as [|[] logs IH]; cbn; try discriminate; intros H; [reflexivity|].
  now apply IH.
Qed.

Ltac open_session o :=
  destruct o as [[can chunks0] closed0 aborted0 interval start sent err handler calls0];
  cbn in *.

Ltac unfold_actions :=
  unfold sendProgress, sendResult, sendError, sendWithMetadata, sendUpdate, sendEvent,
    startHeartbeat, heartbeat_tick, close, abort, signal_fires, handleAbort, peer_cancels,
    stopHeartbeat, cleanupAbortListener, controller_close, enqueue, cancelled.

(** What is left of a session for its owner and its observer. *)
Definition settled_part (o : StreamOrchestrator)
  : list (list ascii) * nat * bool * bool * option Error * bool :=
  (chunks (controller o), bytesSent o, isClosed o, isAborted o, lastError o, abortHandler o).

(** On a session marked closed an action writes nothing, counts nothing,
    records nothing, and calls nothing but the logger. *)
Lemma perform_when_closed (a : action) (o : StreamOrchestrator) :
  isClosed o = true ->
  settled_part (perform config a o) = settled_part o
  /\ exists logs, calls (perform config a o) = (calls o ++ logs)%list
                  /\ forallb is_log logs = true.
Proof.
  intros C. unfold settled_part.
  destruct a as [u | p m | r | e x | p md m | t d | | | | now | reason now | now | ];
    cbn [perform]; unfold_actions; open_session o; subst closed0.
  1-5: split; [reflexivity | eexists [_]; split; reflexivity].
  - split; [reflexivity | exists []; now rewrite List.app_nil_r].
  - destruct (enabled (heartbeat config)), interval; cbn;
      (split; [reflexivity | exists []; now rewrite List.app_nil_r]).
  - destruct interval; cbn; (split; [reflexivity | exists []; now rewrite List.app_nil_r]).
  - destruct interval; cbn; (split; [reflexivity | exists []; now rewrite List.app_nil_r]).
  - split; [reflexivity | exists []; now rewrite List.app_nil_r].
  - split; [reflexivity | exists []; now rewrite List.app_nil_r].
  - destruct handler; cbn; (split; [reflexivity | exists []; now rewrite List.app_nil_r]).
  - split; [reflexivity | exists []; now rewrite List.app_nil_r].
Qed.

Lemma run_when_closed (acts : list action) (o : StreamOrchestrator) :
  isClosed o = true ->
  settled_part (run config acts o) = settled_part o
  /\ exists logs, calls (run config acts o) = (calls o ++ logs)%list
                  /\ forallb is_log logs = true.
Proof.
  revert o. induction acts as [|a acts IH]; intros o C.
  - split; [reflexivity | exists []; now rewrite List.app_nil_r].
  - cbn [run]. destruct (perform_when_closed a o C) as (P & logs & L & F).
    assert (C' : isClosed (perform config a o) = true).
    { unfold settled_part in P. injection P as _ _ P _ _ . congruence. }
    destruct (IH _ C') as (P' & logs' & L' & F').
    split; [congruence|]. exists (logs ++ logs')%list.
    rewrite L', L, <- List.app_assoc, forallb_app, F, F'. now split.
Qed.

(** X16. Closed is final. Once a session is marked closed, whatever is called on
    it afterwards (sends, heartbeats, [close], [abort], the signal, the peer
    going away), in any order and number: no byte is added to the sink,
    [bytesSent] stays, the session stays closed, its [aborted] flag and its
    last error stay as they were, and no observer hook is called, only the
    logger. In particular [abort()] after the end does not mark the session
    aborted. *)
Theorem closed_is_final (acts : list action) (o : StreamOrchestrator) :
  isClosed o = true ->
  let o' := run config acts o in
  chunks (controller o') = chunks (controller o)
  /\ bytesSent o' = bytesSent o
  /\ isClosed o' = true
  /\ isAborted o' = isAborted o
  /\ lastError o' = lastError o
  /\ exists logs, calls o' = (calls o ++ logs)%list /\ forallb is_log logs = true.
Proof.
  intros C. destruct (run_when_closed acts o C) as (P & L).
  unfold settled_part in P. injection P as P1 P2 P3 P4 P5 P6.
  cbv zeta. repeat split; try assumption. congruence.
Qed.

(** An action on an open session calls [onStreamEnd] at most once, and marks
    the session closed when it does. *)
Lemma perform_when_open (a : action) (o : StreamOrchestrator) :
  isClosed o = false ->
  exists new, calls (perform config a o) = (calls o ++ new)%list
              /\ (ends new = 0%nat \/ ends new = 1%nat /\ isClosed (perform config a o) = true).
Proof.
  intros C.
  destruct a as [u | p m | r | e x | p md m | t d | | | | now | reason now | now | ];
    cbn [perform]; unfold_actions; open_session o; subst closed0.
  1-5: destruct can; cbn; rewrite <- ?List.app_assoc; eexists; (split; [reflexivity|]);
    left; reflexivity.
  - destruct can; cbn; rewrite <- ?List.app_assoc.
    + exists []. rewrite List.app_nil_r. now split; [|left].
    + eexists. split; [reflexivity | now left].
  - destruct (enabled (heartbeat config)), interval; cbn; exists [];
      rewrite List.app_nil_r; (split; [reflexivity | now left]).
  - destruct interval; cbn; exists []; rewrite List.app_nil_r; (split; [reflexivity | now left]).
  - destruct interval, can; cbn; rewrite <- ?List.app_assoc;
      first [ exists []; rewrite List.app_nil_r; split; [reflexivity | now left]
            | eexists; split; [reflexivity | now left] ].
  - destruct interval, (signal config), handler, can; cbn; rewrite <- ?List.app_assoc;
      eexists; (split; [reflexivity|]); first [now left | right; now split].
  - destruct interval, (signal config), handler, can; cbn; rewrite <- ?List.app_assoc;
      eexists; (split; [reflexivity|]); right; now split.
  - destruct handler, interval, (signal config), can; cbn; rewrite <- ?List.app_assoc;
      first [ exists []; rewrite List.app_nil_r; split; [reflexivity | now left]
            | eexists; split; [reflexivity | right; now split] ].
  - exists []. rewrite List.app_nil_r. split; [reflexivity | now left].
Qed.

(** No [onStreamEnd] so far, or one and the session marked closed. *)
Definition end_reported_once (o : StreamOrchestrator) : Prop :=
  ends (calls o) = 0%nat \/ ends (calls o) = 1%nat /\ isClosed o = true.

Lemma perform_end_reported_once (a : action) (o : StreamOrchestrator) :
  end_reported_once o -> end_reported_once (perform config a o).
Proof.
  unfold end_reported_once. intros H. destruct (isClosed o) eqn:C.
  - destruct (perform_when_closed a o C) as (P & logs & -> & F).
    unfold settled_part in P. injection P as _ _ P _ _ _.
    rewrite ends_app, (ends_logs logs F), Nat.add_0_r, P, C. exact H.
  - destruct H as [H | [_ H]]; [|discriminate].
    destruct (perform_when_open a o C) as (new & -> & N).
    rewrite ends_app, H. exact N.
Qed.

Lemma new_end_reported_once (c : StreamController) (now : Z) :
  end_reported_once (new config c now).
Proof.
  unfold end_reported_once, new, handleAbort, stopHeartbeat, cleanupAbortListener,
    controller_close.
  destruct c as [can chunks0]. destruct (signal config) as [[|]|] eqn:S; cbn; rewrite ?S;
    try (now left). destruct can; cbn; right; now split.
Qed.

(** X17. In the whole life of a session, from its construction through any
    actions, the observer's [onStreamEnd] is called at most once, and only
    on a session that is marked closed from then on. *)
Theorem stream_end_at_most_once (c : StreamController) (now : Z) (acts : list action) :
  let o := run config acts (new config c now) in
  (ends (calls o) <= 1)%nat /\ (ends (calls o) = 1%nat -> isClosed o = true).
Proof.
  assert (G : forall o, end_reported_once o -> end_reported_once (run config acts o)).
  { induction acts as [|a acts IH]; intros o H; [exact H|].
    cbn [run]. apply IH, perform_end_reported_once, H. }
  destruct (G _ (new_end_reported_once c now)) as [E | [E C]]; cbv zeta; rewrite E.
  - split; [lia | discriminate].
  - split; [lia | intros _; exact C].
Qed.

(** X18. A stream that ends by a failed send never reports its end. When the
    sink of an open session refuses a chunk (the peer is gone) a send marks
    the session closed without calling [onStreamEnd]; nothing that is called
    afterwards, [close] and [abort] included, calls it, and the listener on
    the abort signal stays attached if it was. *)
Theorem failed_send_hides_the_end (a : action) (acts : list action) (o : StreamOrchestrator) :
  is_send a = true ->
  isClosed o = false -> can_enqueue (controller o) = false ->
  let o' := run config acts (perform config a o) in
  isClosed o' = true
  /\ ends (calls o') = ends (calls o)
  /\ isAborted o' = isAborted o
  /\ abortHandler o' = abortHandler o.
Proof.
  intros S C E.
  assert (P : isClosed (perform config a o) = true
              /\ ends (calls (perform config a o)) = ends (calls o)
              /\ isAborted (perform config a o) = isAborted o
              /\ abortHandler (perform config a o) = abortHandler o).
  { destruct a; try discriminate S; cbn [perform]; unfold_actions; open_session o;
      subst closed0 can; cbn; rewrite ?ends_app; repeat split;
      change (ends [_]) with 0%nat; lia. }
  destruct P as (P1 & P2 & P3 & P4).
  destruct (run_when_closed acts _ P1) as (Q & logs & L & F).
  unfold settled_part in Q. injection Q as _ _ Q3 Q4 _ Q6.
  cbv zeta. rewrite L, ends_app, (ends_logs logs F), Nat.add_0_r.
  repeat split; congruence.
Qed.

(** X19. A session made with a signal that has already fired is closed and
    aborted from the start: the sink is closed if it can be, nothing was
    written, and the observer is told of the abort and of the end of the
    stream before it is told of its start. *)
Theorem born_aborted (c : StreamController) (now : Z) :
  signal config = Some true ->
  let o := new config c now in
  isClosed o = true /\ isAborted o = true
  /\ lastError o = Some (new_Error "Stream aborted")
  /\ can_enqueue (controller o) = false
  /\ chunks (controller o) = chunks c
  /\ exists durationMs,
       calls o = [onAbort "Stream aborted";
                  onStreamEnd durationMs false (Some (new_Error "Stream aborted"));
                  onStreamStart].
Proof.
  intros S. cbv zeta.
  unfold new, handleAbort, stopHeartbeat, cleanupAbortListener, controller_close.
  rewrite S. destruct c as [[|] chunks0]; cbn; rewrite ?S; cbn; repeat split;
    now eexists.
Qed.

End OrchestratorLifecycle.


(** A session ended by a send that the sink refused, then closed and
    aborted: no end is reported. *)
Lemma failed_send_hides_the_end_witness :
  let cfg := Orchestrator.DEFAULT_CONFIG in
  let o := Orchestrator.peer_cancels
             (Orchestrator.new cfg (Orchestrator.mkController true []) 1000%Z) in
  let o' := run cfg [do_close 2000%Z; do_abort None 3000%Z]
              (perform cfg (do_sendResult (JNumber 1)) o) in
  Orchestrator.isClosed o' = true
  /\ ends (Orchestrator.calls o') = ends (Orchestrator.calls o)
  /\ Orchestrator.isAborted o' = Orchestrator.isAborted o
  /\ Orchestrator.abortHandler o' = Orchestrator.abortHandler o.
Proof.
  intros cfg o.
  apply (failed_send_hides_the_end cfg (do_sendResult (JNumber 1))
           [do_close 2000%Z; do_abort None 3000%Z] o); reflexivity.
Defined.

(** A session closed in the ordinary way, then aborted and written to. *)
Lemma closed_is_final_witness :
  let cfg := Orchestrator.DEFAULT_CONFIG in
  let o := Orchestrator.close cfg 2000%Z
             (Orchestrator.new cfg (Orchestrator.mkController true []) 1000%Z) in
  let o' := run cfg [do_abort (Some "late") 3000%Z; do_sendResult (JNumber 1);
                     do_startHeartbeat; do_heartbeat_tick] o in
  Orchestrator.chunks (Orchestrator.controller o')
  = Orchestrator.chunks (Orchestrator.controller o)
  /\ Orchestrator.bytesSent o' = Orchestrator.bytesSent o
  /\ Orchestrator.isClosed o' = true
  /\ Orchestrator.isAborted o' = Orchestrator.isAborted o
  /\ Orchestrator.lastError o' = Orchestrator.lastError o
  /\ exists logs, Orchestrator.calls o' = (Orchestrator.calls o ++ logs)%list
                  /\ forallb is_log logs = true.
Proof.
  intros cfg o.
  apply (closed_is_final cfg [do_abort (Some "late") 3000%Z; do_sendResult (JNumber 1);
                              do_startHeartbeat; do_heartbeat_tick] o).
  reflexivity.
Defined.

(** A request whose signal has fired before the stream is set up. *)
Lemma born_aborted_witness :
  let cfg := Orchestrator.mkConfig Orchestrator.DEFAULT_HEARTBEAT_CONFIG
               "complete" "error" (Some true) in
  let o := Orchestrator.new cfg (Orchestrator.mkController true []) 1000%Z in
  Orchestrator.isClosed o = true /\ Orchestrator.isAborted o = true
  /\ Orchestrator.lastError o = Some (Js.new_Error "Stream aborted")
  /\ Orchestrator.can_enqueue (Orchestrator.controller o) = false
  /\ Orchestrator.chunks (Orchestrator.controller o) = []
  /\ exists durationMs,
       Orchestrator.calls o
       = [Orchestrator.onAbort "Stream aborted";
          Orchestrator.onStreamEnd durationMs false (Some (Js.new_Error "Stream aborted"));
          Orchestrator.onStreamStart].
Proof.
  intros cfg o.
  apply (born_aborted cfg (Orchestrator.mkController true []) 1000%Z). reflexivity.
Defined.

(* ================================================================== *)
(** * From the orchestrator to the parser of the client *)
(* ================================================================== *)

Section EndToEnd.

Import Js Orchestrator.
Local Open Scope Z_scope.

Variable config : Config.

(** How the [onMessage] of the client ends: it returns or it throws. *)
Variable onMessage_throws : json -> option thrown.

(** [TextDecoder] reads back what [TextEncoder] wrote. *)
Lemma decode_utf8_char (c : ascii) (rest : list ascii) :
  Helpers.decode (utf8_char c ++ rest) = String c (Helpers.decode rest).
Proof. destruct c as [[] [] [] [] [] [] [] []]; reflexivity. Qed.

Lemma decode_encode (s : string) : Helpers.decode (encode s) = s.
Proof.
  induction s as [|c s IH]; [reflexivity|].
  cbn [encode]. now rewrite decode_utf8_char, IH.
Qed.

Lemma widen_append (a b : string) :
  Utf16.widen (a ++ b) = (Utf16.widen a ++ Utf16.widen b)%list.
Proof.
  unfold Utf16.widen, Utf16.lit.
  induction a as [|c a IH]; [reflexivity|].
  cbn [append list_ascii_of_string map List.app]. now rewrite IH.
Qed.

Lemma includes_NL_widen (s : string) :
  includes NL s = false -> Utf16.includes Utf16.NL (Utf16.widen s) = false.
Proof.
  rewrite includes_NL_lf_free, text_includes_NL_lf_free, lf_free_widen. tauto.
Qed.

(** The actions of a session that only writes: updates, typed events whose
    tag holds no line feed, and the heartbeat; and what is sent is plain. *)
Definition writes_only (a : action) : Prop :=
  match a with
  | do_sendUpdate update => plain (JObject update) = true
  | do_sendResult result => plain result = true
  | do_sendProgress _ _ | do_startHeartbeat | do_stopHeartbeat | do_heartbeat_tick => True
  | do_sendEvent eventType data => includes NL eventType = false /\ plain data = true
  | _ => False
  end.

(** What the parser of the client calls when the object [v] arrives: its
    [onMessage] with [v], and its [onError] if that [onMessage] throws. *)
Definition handed (v : json) : list (Wire.callback json) :=
  delivery (platform := Wire.small_platform) onMessage_throws v (Utf16.widen (stringify v)).

(** What the client is to be called with for an action. *)
Definition delivered (a : action) : list (Wire.callback json) :=
  match a with
  | do_sendUpdate update => handed (JObject update)
  | do_sendProgress p None => handed (JObject [("phase", JString p)])
  | do_sendProgress p (Some m) =>
      handed (JObject [("phase", JString p); ("message", JString m)])
  | do_sendResult result =>
      handed (JObject [("phase", JString (completePhase config)); ("result", result)])
  | do_sendEvent _ data => handed data
  | _ => []
  end.

(** The frame of an update, of a typed event and of a heartbeat, as the
    items of the codec. *)
Definition update_item (update : Update) : Wire.wire_item json Z :=
  Wire.data_frame (Wire.mkSSEMessage None None (JObject update) None).

Definition event_item (eventType : string) (data : json) : Wire.wire_item json Z :=
  Wire.data_frame (Wire.mkSSEMessage None (Some (Utf16.widen eventType)) data None).

Definition heartbeat_item (message : option string) : Wire.wire_item json Z :=
  Wire.heartbeat_frame (option_map Utf16.widen message).

Lemma update_item_ok (update : Update) :
  written (platform := Wire.small_platform) (update_item update)
    (Utf16.widen ("data: " ++ stringify (JObject update) ++ NLNL))
  /\ well_formed (platform := Wire.small_platform) (update_item update)
  /\ wire_calls (platform := Wire.small_platform) onMessage_throws (update_item update)
     = handed (JObject update).
Proof.
  split; [|split].
  - rewrite !widen_append. reflexivity.
  - split; [exact I|]. split; [exact I|]. eexists. split; [reflexivity|].
    apply small_platform_round_trip.
  - reflexivity.
Qed.

Lemma event_item_ok (eventType : string) (data : json) :
  includes NL eventType = false ->
  written (platform := Wire.small_platform) (event_item eventType data)
    (Utf16.widen ("event: " ++ eventType ++ NL ++ "data: " ++ stringify data ++ NLNL))
  /\ well_formed (platform := Wire.small_platform) (event_item eventType data)
  /\ wire_calls (platform := Wire.small_platform) onMessage_throws (event_item eventType data)
     = handed data.
Proof.
  intros H. split; [|split].
  - rewrite !widen_append. unfold written, event_item, Wire.formatSSEMessage.
    cbn [Wire.data Wire.JSON_stringify Wire.small_platform]. f_equal.
    unfold Wire.lines_of, Wire.push. cbn [Wire.id Wire.retry Wire.event List.app Utf16.join].
    now rewrite <- !List.app_assoc.
  - split; [exact I|]. split; [now apply includes_NL_widen|].
    eexists. split; [reflexivity|]. apply small_platform_round_trip.
  - reflexivity.
Qed.

Lemma heartbeat_item_ok (message : option string) :
  no_line_feed message ->
  written (platform := Wire.small_platform) (heartbeat_item message)
    (Utf16.widen (": [" ++ match message with Some m => m | None => "heartbeat" end
                  ++ "]" ++ NLNL))
  /\ well_formed (platform := Wire.small_platform) (heartbeat_item message)
  /\ wire_calls (platform := Wire.small_platform) onMessage_throws (heartbeat_item message)
     = [].
Proof.
  intros H. split; [|split].
  - rewrite !widen_append. unfold written, heartbeat_item, Wire.heartbeat_text.
    now destruct message.
  - destruct message as [m|]; [|exact I]. now apply includes_NL_widen.
  - reflexivity.
Qed.

Lemma sendUpdate_writes (update : Update) (o : StreamOrchestrator) :
  isClosed o = false -> can_enqueue (controller o) = true ->
  isClosed (sendUpdate update o) = false
  /\ can_enqueue (controller (sendUpdate update o)) = true
  /\ chunks (controller (sendUpdate update o))
     = (chunks (controller o)
        ++ [encode ("data: " ++ stringify (JObject update) ++ NLNL)])%list.
Proof.
  unfold sendUpdate, enqueue.
  destruct o as [[can chunks0] closed0 aborted0 interval start sent err handler calls0].
  cbn. intros -> ->. repeat split.
Qed.

Lemma sendEvent_writes (eventType : string) (data : json) (o : StreamOrchestrator) :
  isClosed o = false -> can_enqueue (controller o) = true ->
  isClosed (sendEvent eventType data o) = false
  /\ can_enqueue (controller (sendEvent eventType data o)) = true
  /\ chunks (controller (sendEvent eventType data o))
     = (chunks (controller o)
        ++ [encode ("event: " ++ eventType ++ NL ++ "data: " ++ stringify data ++ NLNL)])%list.
Proof.
  unfold sendEvent, enqueue.
  destruct o as [[can chunks0] closed0 aborted0 interval start sent err handler calls0].
  cbn. intros -> ->. repeat split.
Qed.

Lemma heartbeat_tick_writes (o : StreamOrchestrator) :
  heartbeatInterval o = true ->
  isClosed o = false -> can_enqueue (controller o) = true ->
  isClosed (heartbeat_tick config o) = false
  /\ can_enqueue (controller (heartbeat_tick config o)) = true
  /\ chunks (controller (heartbeat_tick config o))
     = (chunks (controller o)
        ++ [encode (": [" ++ match heartbeat_message (heartbeat config) with
                             | Some m => m
                             | None => "heartbeat"
                             end ++ "]" ++ NLNL)])%list.
Proof.
  unfold heartbeat_tick, enqueue.
  destruct o as [[can chunks0] closed0 aborted0 interval start sent err handler calls0].
  cbn. intros -> -> ->. repeat split.
Qed.

(** What the client reads of a chunk: the text [TextDecoder] returns. *)
Definition read_back (chunk : list ascii) : Utf16.text :=
  Utf16.widen (Helpers.decode chunk).

(** An action of a writing session on an open session with a sink that
    takes chunks: the session stays so, and the sink gains the chunks of
    some well-formed items that deliver what the action is to deliver. *)
Lemma perform_writes (a : action) (o : StreamOrchestrator) :
  no_line_feed (heartbeat_message (heartbeat config)) ->
  writes_only a ->
  isClosed o = false -> can_enqueue (controller o) = true ->
  exists items more,
    isClosed (perform config a o) = false
    /\ can_enqueue (controller (perform config a o)) = true
    /\ chunks (controller (perform config a o)) = (chunks (controller o) ++ more)%list
    /\ Forall2 (written (platform := Wire.small_platform)) items (map read_back more)
    /\ Forall (well_formed (platform := Wire.small_platform)) items
    /\ flat_map (wire_calls (platform := Wire.small_platform) onMessage_throws) items
       = delivered a.
Proof.
  intros HB W C E.
  assert (U : forall u,
            exists items more,
              isClosed (sendUpdate u o) = false
              /\ can_enqueue (controller (sendUpdate u o)) = true
              /\ chunks (controller (sendUpdate u o)) = (chunks (controller o) ++ more)%list
              /\ Forall2 (written (platform := Wire.small_platform)) items (map read_back more)
              /\ Forall (well_formed (platform := Wire.small_platform)) items
              /\ flat_map (wire_calls (platform := Wire.small_platform) onMessage_throws) items
                 = handed (JObject u)).
  { intros u. destruct (sendUpdate_writes u o C E) as (C1 & E1 & K1).
    destruct (update_item_ok u) as (Wr & Wf & Wc).
    exists [update_item u], [encode ("data: " ++ stringify (JObject u) ++ NLNL)].
    split; [exact C1|]. split; [exact E1|]. split; [exact K1|].
    split; [|split].
    - constructor; [|constructor]. unfold read_back. now rewrite decode_encode.
    - now constructor.
    - cbn [flat_map]. now rewrite Wc, List.app_nil_r. }
  destruct a as [u | p m | r | e x | p md m | t d | | | | now | reason now | now | ];
    try contradiction; cbn [perform delivered].
  - apply U.
  - unfold sendProgress. destruct m as [m|]; apply U.
  - unfold sendResult. apply U.
  - destruct W as [Wt Wd]. destruct (event_item_ok t d Wt) as (Wr & Wf & Wc).
    destruct (sendEvent_writes t d o C E) as (C1 & E1 & K1).
    exists [event_item t d],
           [encode ("event: " ++ t ++ NL ++ "data: " ++ stringify d ++ NLNL)].
    split; [exact C1|]. split; [exact E1|]. split; [exact K1|].
    split; [|split].
    + constructor; [|constructor]. unfold read_back. now rewrite decode_encode.
    + now constructor.
    + cbn [flat_map]. now rewrite Wc, List.app_nil_r.
  - exists [], []. unfold startHeartbeat.
    destruct o as [[can chunks0] closed0 aborted0 interval start sent err handler calls0].
    cbn in *. subst.
    destruct (enabled (heartbeat config)), interval; cbn; rewrite List.app_nil_r;
      (split; [reflexivity|]; split; [reflexivity|]; split; [reflexivity|];
       split; [constructor|]; split; [constructor | reflexivity]).
  - exists [], []. unfold stopHeartbeat.
    destruct o as [[can chunks0] closed0 aborted0 interval start sent err handler calls0].
    cbn in *. subst. destruct interval; cbn; rewrite List.app_nil_r;
      (split; [reflexivity|]; split; [reflexivity|]; split; [reflexivity|];
       split; [constructor|]; split; [constructor | reflexivity]).
  - destruct (heartbeat_item_ok _ HB) as (Wr & Wf & Wc).
    destruct (heartbeatInterval o) eqn:I.
    + destruct (heartbeat_tick_writes o I C E) as (C1 & E1 & K1).
      exists [heartbeat_item (heartbeat_message (heartbeat config))],
             [encode (": [" ++ match heartbeat_message (heartbeat config) with
                               | Some m => m
                               | None => "heartbeat"
                               end ++ "]" ++ NLNL)].
      split; [exact C1|]. split; [exact E1|]. split; [exact K1|].
      split; [|split].
      * constructor; [|constructor]. unfold read_back. now rewrite decode_encode.
      * now constructor.
      * cbn [flat_map]. now rewrite Wc.
    + exists [], []. unfold heartbeat_tick. rewrite I. cbn [negb]. rewrite List.app_nil_r.
      split; [exact C|]. split; [exact E|]. split; [reflexivity|].
      split; [constructor|]. split; [constructor | reflexivity].
Qed.

Lemma run_writes (acts : list action) (o : StreamOrchestrator) :
  no_line_feed (heartbeat_message (heartbeat config)) ->
  Forall writes_only acts ->
  isClosed o = false -> can_enqueue (controller o) = true ->
  exists items more,
    chunks (controller (run config acts o)) = (chunks (controller o) ++ more)%list
    /\ Forall2 (written (platform := Wire.small_platform)) items (map read_back more)
    /\ Forall (well_formed (platform := Wire.small_platform)) items
    /\ flat_map (wire_calls (platform := Wire.small_platform) onMessage_throws) items
       = flat_map delivered acts.
Proof.
  intros HB W. revert o. induction W as [|a acts Ha _ IH]; intros o C E.
  - exists [], []. cbn. rewrite List.app_nil_r.
    split; [reflexivity|]. split; [constructor|]. split; [constructor | reflexivity].
  - destruct (perform_writes a o HB Ha C E) as (items & more & C1 & E1 & K1 & R1 & W1 & D1).
    destruct (IH _ C1 E1) as (items' & more' & K2 & R2 & W2 & D2).
    exists (items ++ items')%list, (more ++ more')%list. cbn [run flat_map].
    rewrite K2, K1, map_app, flat_map_app, D1, D2, List.app_assoc.
    split; [reflexivity|]. split; [now apply Forall2_app|].
    split; [now apply Forall_app | reflexivity].
Qed.

(** X20. From the server to the client. A session made on a fresh sink, its
    signal (if any) not fired, that only writes: updates, progress, the
    result, typed events, heartbeats; what it sends is plain (null,
    booleans, integers below 2^53 in magnitude, strings of code units below
    256, arrays, and objects with distinct keys that are not all digits).
    The chunks in the sink, decoded and fed one by one to a parser of
    [createSSEParser], make the parser call [onMessage] once for every send,
    in the order of the sends, with the very object that was sent, and
    [onError] after an [onMessage] that throws, with what was thrown and the
    first 120 code units of the JSON text, and at no other time; the
    heartbeats make no call, and the buffer of the parser is empty at the
    end. *)
Theorem client_receives_what_the_server_sends (acts : list action) (now : Z) :
  signal config <> Some true ->
  no_line_feed (heartbeat_message (heartbeat config)) ->
  Forall writes_only acts ->
  let o := run config acts (new config (mkController true []) now) in
  Wire.createSSEParser (platform := Wire.small_platform) onMessage_throws
    (map read_back (chunks (controller o)))
  = ([], flat_map delivered acts).
Proof.
  intros Sg HB W. cbv zeta.
  assert (N : isClosed (new config (mkController true []) now) = false
              /\ can_enqueue (controller (new config (mkController true []) now)) = true
              /\ chunks (controller (new config (mkController true []) now)) = []).
  { unfold new. destruct (signal config) as [[|]|]; [now elim Sg | now cbn | now cbn]. }
  destruct N as (C & E & K).
  destruct (run_writes acts _ HB W C E) as (items & more & -> & R & Wf & <-).
  rewrite K. cbn [List.app].
  apply (stream_of_frames (platform := Wire.small_platform) onMessage_throws
           items (map read_back more));
    [exact small_platform_texts | exact Wf | exact R | reflexivity].
Qed.

End EndToEnd.

(** A session that reports progress, beats, sends a typed event and the
    result, read by a client whose [onMessage] throws at the result. *)
Definition throws_at_the_result (v : json) : option Js.thrown :=
  match StreamParser.get "result" v with
  | StreamParser.defined _ => Some (Js.error (Js.new_Error "done"))
  | _ => None
  end.

Lemma client_receives_what_the_server_sends_witness :
  let cfg := Orchestrator.DEFAULT_CONFIG in
  let acts := [do_startHeartbeat; do_sendProgress "loading" (Some "wait");
               do_heartbeat_tick; do_sendEvent "delta" (JObject [("text", JString "Hi")]);
               do_sendResult (JNumber 42)] in
  let o := run cfg acts (Orchestrator.new cfg (Orchestrator.mkController true []) 1000%Z) in
  Wire.createSSEParser (platform := Wire.small_platform) throws_at_the_result
    (map read_back (Orchestrator.chunks (Orchestrator.controller o)))
  = ([],
     [Wire.onMessage (JObject [("phase", JString "loading"); ("message", JString "wait")]);
      Wire.onMessage (JObject [("text", JString "Hi")]);
      Wire.onMessage (JObject [("phase", JString "complete"); ("result", JNumber 42)]);
      Wire.onError (Js.new_Error "done")
        (Utf16.widen
           (stringify (JObject [("phase", JString "complete"); ("result", JNumber 42)])))]).
Proof.
  intros cfg acts.
  apply (client_receives_what_the_server_sends cfg throws_at_the_result acts 1000%Z).
  - discriminate.
  - reflexivity.
  - repeat constructor.
Defined.

(* ================================================================== *)
(** * The registry of shared circuit breakers: one breaker per name *)
(* ================================================================== *)

Section RegistryFacts.

Import Breaker Registry.
Local Open Scope Z_scope.

(** What can happen to the registry. *)
Inductive registry_event : Type :=
| got (name : string) (options : CircuitBreakerConfig) (ttlMs : option Z) (now : Z)
| cleanup_fired (name : string) (now : Z)
| reset_shared (name : string)
| removed (name : string)
| cleared
| used (b : nat) (f : Breaker -> Breaker).

Definition registry_step (ev : registry_event) (r : registry) : registry :=
  match ev with
  | got name options ttlMs now => snd (getSharedCircuitBreaker name options ttlMs now r)
  | cleanup_fired name now => cleanup_fires name now r
  | reset_shared name => resetSharedCircuitBreaker name r
  | removed name => removeSharedCircuitBreaker name r
  | cleared => clearAllSharedCircuitBreakers r
  | used b f => mkRegistry (on_object b f (objects r)) (globalBreakers r)
  end.

Definition registry_run (evs : list registry_event) (r : registry) : registry :=
  fold_left (fun r ev => registry_step ev r) evs r.

(** The names of the map are distinct, the breakers of two names are two
    objects, and every breaker of the map is one of the [n] objects made. *)
Fixpoint sound_map (n : nat) (m : Map) : Prop :=
  match m with
  | [] => True
  | (k, e) :: rest =>
      Map_get k rest = None
      /\ (forall k' e', Map_get k' rest = Some e' -> breaker e' <> breaker e)
      /\ (breaker e < n)%nat
      /\ sound_map n rest
  end.

Definition sound (r : registry) : Prop :=
  sound_map (List.length (objects r)) (globalBreakers r).

Lemma sound_map_bound (n : nat) (m : Map) (k : string) (e : BreakerEntry) :
  sound_map n m -> Map_get k m = Some e -> (breaker e < n)%nat.
Proof.
  induction m as [|[k0 e0] m IH]; cbn; [discriminate|].
  intros (_ & _ & B & S). destruct (k0 =? k)%string; [intros [= <-]; exact B | now apply IH].
Qed.

Lemma sound_map_injective (n : nat) (m : Map) (k k' : string) (e e' : BreakerEntry) :
  sound_map n m -> Map_get k m = Some e -> Map_get k' m = Some e' ->
  breaker e = breaker e' -> k = k'.
Proof.
  induction m as [|[k0 e0] m IH]; cbn; [discriminate|].
  intros (N & D & _ & S).
  destruct (k0 =? k)%string eqn:E1, (k0 =? k')%string eqn:E2.
  - apply String.eqb_eq in E1, E2. congruence.
  - intros [= <-] G' Eq. symmetry in Eq. now elim (D _ _ G').
  - intros G [= <-] Eq. now elim (D _ _ G).
  - now apply IH.
Qed.

Lemma Map_get_set_same (name : string) (e : BreakerEntry) (m : Map) :
  Map_get name (Map_set name e m) = Some e.
Proof.
  induction m as [|[k0 e0] m IH]; cbn; [now rewrite String.eqb_refl|].
  destruct (k0 =? name)%string eqn:E; cbn; now rewrite E.
Qed.

Lemma Map_get_set_other (name k : string) (e : BreakerEntry) (m : Map) :
  (name =? k)%string = false -> Map_get k (Map_set name e m) = Map_get k m.
Proof.
  intros NE. induction m as [|[k0 e0] m IH]; cbn; [now rewrite NE|].
  destruct (k0 =? name)%string eqn:E; cbn.
  - apply String.eqb_eq in E. subst k0. now rewrite NE.
  - destruct (k0 =? k)%string; [reflexivity | exact IH].
Qed.

Lemma Map_get_delete_other (name k : string) (m : Map) :
  (name =? k)%string = false -> Map_get k (Map_delete name m) = Map_get k m.
Proof.
  intros NE. induction m as [|[k0 e0] m IH]; cbn; [reflexivity|].
  destruct (k0 =? name)%string eqn:E; cbn.
  - apply String.eqb_eq in E. subst k0. now rewrite NE.
  - destruct (k0 =? k)%string; [reflexivity | exact IH].
Qed.

Lemma Map_get_delete_none (name k : string) (m : Map) :
  Map_get k m = None -> Map_get k (Map_delete name m) = None.
Proof.
  induction m as [|[k0 e0] m IH]; cbn; [reflexivity|].
  destruct (k0 =? k)%string eqn:E1; [discriminate|]. intros G.
  destruct (k0 =? name)%string; cbn; [exact G | rewrite E1; now apply IH].
Qed.

Lemma Map_get_delete_same (n : nat) (name : string) (m : Map) :
  sound_map n m -> Map_get name (Map_delete name m) = None.
Proof.
  induction m as [|[k0 e0] m IH]; cbn; [reflexivity|].
  intros (N & _ & _ & S). destruct (k0 =? name)%string eqn:E; cbn.
  - apply String.eqb_eq in E. now subst k0.
  - rewrite E. now apply IH.
Qed.

Lemma sound_map_delete (n : nat) (name : string) (m : Map) :
  sound_map n m -> sound_map n (Map_delete name m).
Proof.
  induction m as [|[k0 e0] m IH]; cbn; [trivial|].
  intros (N & D & B & S). destruct (k0 =? name)%string eqn:E; [exact S|].
  cbn. repeat split; [now apply Map_get_delete_none | | exact B | now apply IH].
  intros k' e' G.
  destruct (name =? k')%string eqn:E'.
  - apply String.eqb_eq in E'. subst k'.
    now rewrite (Map_get_delete_same n name m S) in G.
  - rewrite (Map_get_delete_other _ _ _ E') in G. now apply (D k').
Qed.

Lemma sound_map_set_present (n : nat) (name : string) (e e0 : BreakerEntry) (m : Map) :
  sound_map n m -> Map_get name m = Some e0 -> breaker e = breaker e0 ->
  sound_map n (Map_set name e m).
Proof.
  intros S G Eq. induction m as [|[k0 e0'] m IH]; cbn in *; [discriminate|].
  destruct S as (N & D & B & S). destruct (k0 =? name)%string eqn:E.
  - injection G as <-. cbn. rewrite Eq. now repeat split.
  - cbn. assert (NE : (name =? k0)%string = false) by now rewrite String.eqb_sym.
    repeat split; [now rewrite Map_get_set_other | | exact B | now apply IH].
    intros k' e' G'. destruct (name =? k')%string eqn:E'.
    + apply String.eqb_eq in E'. subst k'. rewrite Map_get_set_same in G'.
      injection G' as <-. rewrite Eq. now apply (D name).
    + rewrite (Map_get_set_other _ _ _ _ E') in G'. now apply (D k').
Qed.

Lemma sound_map_set_fresh (n : nat) (name : string) (e : BreakerEntry) (m : Map) :
  sound_map n m -> Map_get name m = None -> breaker e = n ->
  sound_map (S n) (Map_set name e m).
Proof.
  intros S G Eq. induction m as [|[k0 e0] m IH]; cbn in *.
  - repeat split; [discriminate | lia].
  - destruct S as (N & D & B & S). destruct (k0 =? name)%string eqn:E; [discriminate|].
    cbn. assert (NE : (name =? k0)%string = false) by now rewrite String.eqb_sym.
    repeat split; [now rewrite Map_get_set_other | | lia | now apply IH].
    intros k' e' G'. destruct (name =? k')%string eqn:E'.
    + apply String.eqb_eq in E'. subst k'. rewrite Map_get_set_same in G'.
      injection G' as <-. lia.
    + rewrite (Map_get_set_other _ _ _ _ E') in G'. now apply (D k').
Qed.

Lemma length_on_object (b : nat) (f : Breaker -> Breaker) (os : list breaker_object) :
  List.length (on_object b f os) = List.length os.
Proof.
  revert b. induction os as [|[c x] os IH]; intros [|b]; cbn; try reflexivity.
  now rewrite IH.
Qed.

Lemma getShared_sound (name : string) (options : CircuitBreakerConfig) (ttlMs : option Z)
  (now : Z) (r : registry) :
  sound r -> sound (snd (getSharedCircuitBreaker name options ttlMs now r)).
Proof.
  unfold sound, getSharedCircuitBreaker. intros S.
  destruct (Map_get name (globalBreakers r)) as [entry|] eqn:G; cbn.
  - now apply (sound_map_set_present _ _ _ entry).
  - rewrite length_app, Nat.add_1_r. now apply sound_map_set_fresh.
Qed.

Lemma registry_step_sound (ev : registry_event) (r : registry) :
  sound r -> sound (registry_step ev r).
Proof.
  intros S. destruct ev as [name options ttlMs now | name now | name | name | | b f];
    cbn [registry_step].
  - now apply getShared_sound.
  - unfold cleanup_fires. destruct (Map_get name (globalBreakers r)) as [entry|]; [|exact S].
    destruct (cleanupTimeout entry) as [due|]; [|exact S].
    destruct (due <=? now); [|exact S]. now apply sound_map_delete.
  - unfold resetSharedCircuitBreaker.
    destruct (Map_get name (globalBreakers r)) as [entry|]; [|exact S].
    unfold sound. cbn. now rewrite length_on_object.
  - now apply sound_map_delete.
  - exact I.
  - unfold sound. cbn. now rewrite length_on_object.
Qed.

Lemma registry_run_sound (evs : list registry_event) :
  sound (registry_run evs empty).
Proof.
  assert (G : forall r, sound r -> sound (registry_run evs r)).
  { induction evs as [|ev evs IH]; intros r S; [exact S|].
    cbn. apply IH, registry_step_sound, S. }
  apply G. exact I.
Qed.

Lemma getShared_registers (name : string) (options : CircuitBreakerConfig)
  (ttlMs : option Z) (now : Z) (r : registry) :
  let (b, r') := getSharedCircuitBreaker name options ttlMs now r in
  Map_get name (globalBreakers r')
  = Some (mkEntry b now
            (Some (now + match ttlMs with Some t => t | None => DEFAULT_BREAKER_TTL_MS end))).
Proof.
  unfold getSharedCircuitBreaker.
  destruct (Map_get name (globalBreakers r)) as [entry|]; cbn; apply Map_get_set_same.
Qed.

(** X21. One breaker per name. Whatever has happened to the registry before,
    two calls of [getSharedCircuitBreaker] in a row return the same breaker
    object exactly when they are given the same name; the options of the
    second call play no part in it. *)
Theorem one_breaker_per_name (evs : list registry_event)
  (name1 name2 : string) (options1 options2 : CircuitBreakerConfig)
  (ttl1 ttl2 : option Z) (now1 now2 : Z) :
  let r := registry_run evs empty in
  let (b1, r1) := getSharedCircuitBreaker name1 options1 ttl1 now1 r in
  let (b2, _) := getSharedCircuitBreaker name2 options2 ttl2 now2 r1 in
  b1 = b2 <-> name1 = name2.
Proof.
  cbv zeta. pose proof (registry_run_sound evs) as S.
  pose proof (getShared_sound name1 options1 ttl1 now1 _ S) as S1.
  pose proof (getShared_registers name1 options1 ttl1 now1 (registry_run evs empty)) as G1.
  destruct (getSharedCircuitBreaker name1 options1 ttl1 now1 (registry_run evs empty))
    as [b1 r1]. cbn [snd] in S1.
  unfold getSharedCircuitBreaker.
  destruct (Map_get name2 (globalBreakers r1)) as [e2|] eqn:G2.
  - split.
    + intros Eq. apply (sound_map_injective _ _ _ _ _ _ S1 G1 G2). exact Eq.
    + intros <-. rewrite G1 in G2. now injection G2 as <-.
  - split.
    + intros Eq. pose proof (sound_map_bound _ _ _ _ S1 G1) as B. cbn in B. lia.
    + intros <-. congruence.
Qed.

(** An event that leaves the entry of [name] alone until [deadline]: no
    access to the name by anybody else, no removal of it, no clearing of the
    registry, and no timer that fires at [deadline] or later. *)
Definition quiet (name : string) (deadline : Z) (ev : registry_event) : Prop :=
  match ev with
  | got k _ _ _ | removed k => (k =? name)%string = false
  | cleanup_fired _ now => now < deadline
  | reset_shared _ | used _ _ => True
  | cleared => False
  end.

(** X22. An access keeps the breaker alive for the time to live it gives (five
    minutes when it gives none). After [getSharedCircuitBreaker(name)] at
    time [now], as long as the entry is left alone and no timer fires at
    [now + ttlMs] or later, the name stays registered with the same breaker:
    the next call for the name returns it, whatever operations were made on
    the breakers and whatever other names came and went. *)
Theorem access_keeps_alive (name : string) (options options' : CircuitBreakerConfig)
  (ttlMs ttlMs' : option Z) (now now' : Z) (r : registry) (evs : list registry_event) :
  let deadline := now + match ttlMs with Some t => t | None => DEFAULT_BREAKER_TTL_MS end in
  Forall (quiet name deadline) evs ->
  let (b, r1) := getSharedCircuitBreaker name options ttlMs now r in
  fst (getSharedCircuitBreaker name options' ttlMs' now' (registry_run evs r1)) = b.
Proof.
  intros deadline Q.
  pose proof (getShared_registers name options ttlMs now r) as G.
  destruct (getSharedCircuitBreaker name options ttlMs now r) as [b r1].
  fold deadline in G.
  assert (K : Map_get name (globalBreakers (registry_run evs r1))
              = Some (mkEntry b now (Some deadline))).
  { revert r1 G. induction Q as [|ev evs Hq _ IH]; intros r1 G; [exact G|].
    cbn. apply IH.
    destruct ev as [k o t n | k n | k | k | | b' f]; cbn [registry_step quiet] in *.
    - unfold getSharedCircuitBreaker.
      destruct (Map_get k (globalBreakers r1)); cbn; now rewrite Map_get_set_other.
    - unfold cleanup_fires. destruct (Map_get k (globalBreakers r1)) as [e|] eqn:Gk; [|exact G].
      destruct (cleanupTimeout e) as [due|] eqn:Ed; [|exact G].
      destruct (Z.leb_spec due n) as [L|L]; [|exact G]. cbn.
      destruct (k =? name)%string eqn:E.
      + apply String.eqb_eq in E. subst k. rewrite G in Gk. injection Gk as <-.
        cbn in Ed. injection Ed as <-. lia.
      + now rewrite Map_get_delete_other.
    - unfold resetSharedCircuitBreaker. now destruct (Map_get k (globalBreakers r1)).
    - cbn. now rewrite Map_get_delete_other.
    - contradiction.
    - exact G. }
  unfold getSharedCircuitBreaker. now rewrite K.
Qed.

(** X23. Eviction starts afresh. When the cleanup timer of a registered name
    fires, or the name is removed, the next call for the name makes a new
    breaker, closed and with no failure counted, configured by the options
    of that call; the breaker registered before is another object, and is
    left as it was for those who still hold it. *)
Theorem eviction_starts_afresh (evs : list registry_event) (name : string)
  (entry : BreakerEntry) (due t : Z) (options : CircuitBreakerConfig)
  (ttlMs : option Z) (now : Z) :
  let r := registry_run evs empty in
  Map_get name (globalBreakers r) = Some entry ->
  cleanupTimeout entry = Some due -> due <= t ->
  forall r', r' = cleanup_fires name t r \/ r' = removeSharedCircuitBreaker name r ->
  let (b, r'') := getSharedCircuitBreaker name options ttlMs now r' in
  b <> breaker entry
  /\ nth_error (objects r'') b = Some (options, initial)
  /\ nth_error (objects r'') (breaker entry) = nth_error (objects r) (breaker entry).
Proof.
  intros r G D L r' Hr'. pose proof (registry_run_sound evs) as S. fold r in S.
  assert (E : objects r' = objects r
              /\ globalBreakers r' = Map_delete name (globalBreakers r)).
  { destruct Hr' as [-> | ->]; [|now split].
    unfold cleanup_fires. rewrite G, D.
    destruct (Z.leb_spec due t); [now split | lia]. }
  destruct E as [Eo Em].
  pose proof (sound_map_bound _ _ _ _ S G) as B.
  unfold getSharedCircuitBreaker.
  rewrite Em, (Map_get_delete_same _ name _ S), Eo. cbn.
  repeat split.
  - lia.
  - rewrite nth_error_app2 by lia. now rewrite Nat.sub_diag.
  - now rewrite nth_error_app1.
Qed.

End RegistryFacts.

(** Two components ask for the breaker of one name, a third for another. *)
Lemma access_keeps_alive_witness :
  let cfg := Breaker.DEFAULT_CIRCUIT_BREAKER_CONFIG in
  let evs := [got "other" cfg None 2000%Z; cleanup_fired "api-stream" 300999%Z;
              used O (Breaker.forceOpen cfg 3000%Z); removed "other"] in
  let (b, r1) := Registry.getSharedCircuitBreaker "api-stream" cfg None 1000%Z
                   Registry.empty in
  fst (Registry.getSharedCircuitBreaker "api-stream" cfg (Some 10%Z) 4000%Z
         (registry_run evs r1)) = b.
Proof.
  intros cfg evs.
  apply (access_keeps_alive "api-stream" cfg cfg None (Some 10%Z) 1000%Z 4000%Z
           Registry.empty evs).
  repeat constructor.
Defined.

(** A breaker that was forced open and whose name was then evicted: the
    next call gets a new breaker. *)
Lemma eviction_starts_afresh_witness :
  let cfg := Breaker.DEFAULT_CIRCUIT_BREAKER_CONFIG in
  let evs := [got "api-stream" cfg None 1000%Z; used O (Breaker.forceOpen cfg 3000%Z)] in
  let r := registry_run evs Registry.empty in
  let (b, r'') := Registry.getSharedCircuitBreaker "api-stream" cfg None 400000%Z
                    (Registry.cleanup_fires "api-stream" 301000%Z r) in
  b <> O
  /\ nth_error (Registry.objects r'') b = Some (cfg, Breaker.initial)
  /\ nth_error (Registry.objects r'') O = nth_error (Registry.objects r) O.
Proof.
  intros cfg evs r.
  apply (eviction_starts_afresh evs "api-stream"
           (Registry.mkEntry O 1000%Z (Some 301000%Z)) 301000%Z 301000%Z cfg None 400000%Z).
  - reflexivity.
  - reflexivity.
  - lia.
  - left. reflexivity.
Defined.


(* ================================================================== *)
(** * Timeouts and the retry predicates *)
(* ================================================================== *)

Section TimeoutFacts.

Import Js Retry Timeout.

(** No letter a, in either case, in [s]. *)
Fixpoint a_free (s : string) : bool :=
  match s with
  | EmptyString => true
  | String c r => negb (lower_char c =? "a")%char && a_free r
  end.

Lemma a_free_append (x y : string) : a_free (x ++ y) = a_free x && a_free y.
Proof.
  induction x as [|c x IH]; [reflexivity|]. cbn [append a_free].
  now rewrite IH, andb_assoc.
Qed.

Lemma a_free_uint (u : uint) : a_free (NilEmpty.string_of_uint u) = true.
Proof. induction u; simpl; auto. Qed.

Lemma a_free_show_int (n : Z) : a_free (show_int n) = true.
Proof.
  unfold show_int.
  destruct n as [|p|p]; cbn [Z.to_int NilZero.string_of_int]; [reflexivity | ..];
    assert (NN := DecimalPos.Unsigned.to_uint_nonnil p);
    replace (NilZero.string_of_uint (Pos.to_uint p))
      with (NilEmpty.string_of_uint (Pos.to_uint p))
      by (unfold NilZero.string_of_uint; destruct (Pos.to_uint p); congruence).
  - apply a_free_uint.
  - cbn [a_free]. now rewrite a_free_uint.
Qed.

Lemma includes_a_free (p s : string) :
  a_free s = true -> includes (String "a" p) (toLowerCase s) = false.
Proof.
  induction s as [|c s IH]; [reflexivity|].
  cbn [a_free toLowerCase includes]. intros H. apply andb_true_iff in H as [Hc Hs].
  rewrite (IH Hs), orb_false_r. cbn [String.prefix].
  destruct (ascii_dec "a" (lower_char c)) as [E|NE]; [|reflexivity].
  rewrite <- E in Hc. discriminate Hc.
Qed.

(** X24. A timeout is a failure to retry, not a cancellation. For a timeout
    error of either kind, whatever its duration, [isNetworkError] holds (its
    message contains "timeout") and [isCancellationError] does not (its name
    is not AbortError and its message does not contain "aborted"), so the
    retry loops go on after it. *)
Theorem timeouts_are_retried (type : TimeoutType) (timeoutMs : Z) :
  isNetworkError (error (TimeoutError type timeoutMs)) = true
  /\ isCancellationError (error (TimeoutError type timeoutMs)) = false.
Proof.
  assert (T : a_free (show_int timeoutMs ++ "ms") = true)
    by now rewrite a_free_append, a_free_show_int.
  unfold isNetworkError, isCancellationError, TimeoutError. cbn [message name].
  remember (show_int timeoutMs ++ "ms") as tail eqn:Etail.
  split.
  - apply existsb_exists. exists "timeout". split; [cbn; tauto|].
    destruct type; cbn; reflexivity.
  - apply orb_false_iff. split; [|reflexivity].
    destruct type; cbn; now apply includes_a_free.
Qed.

End TimeoutFacts.

(** An error frame whose data is a page of markup, followed by an ordinary
    progress update: the update is read as the error, and the promise of
    [parseSSEStream] is rejected. *)
Lemma unparsed_data_leaves_its_tag_witness :
  let update := JObject [("phase", JString "working")] in
  StreamParser.parseSSEStream
    ["event: error" ++ NL ++ "data: <html>" ++ NLNL; "data: " ++ stringify update ++ NLNL]
  = ([StreamParser.onError (JString "Unknown error")],
     Js.rejects
       (Js.error (StreamParser.SSEStreamError (JString "Unknown error") update))).
Proof.
  intros update.
  etransitivity;
    [apply (unparsed_data_leaves_its_tag "error" "<html>" update); reflexivity
    | reflexivity].
Defined.


(* ================================================================== *)
(** * From the orchestrator to the typed parser of the client *)
(* ================================================================== *)

Section OrchestratorToTypedClient.

Import Js Orchestrator StreamParser.
Local Open Scope Z_scope.

Variable config : Config.

Lemma read_loop_app (cs1 cs2 : list string) (st : state) :
  read_loop (cs1 ++ cs2) st
  = match read_loop cs1 st with
    | (st1, calls1, Some e) => (st1, calls1, Some e)
    | (st1, calls1, None) =>
        match read_loop cs2 st1 with
        | (st2, calls2, thrown) => (st2, (calls1 ++ calls2)%list, thrown)
        end
    end.
Proof.
  revert st. induction cs1 as [|c cs1 IH]; intros st.
  - cbn [List.app read_loop]. now destruct (read_loop cs2 st) as [[st2 calls2] thrown].
  - cbn [List.app read_loop].
    destruct (read_chunk c st) as [[st0 calls0] [e|]]; [reflexivity|].
    rewrite IH. destruct (read_loop cs1 st0) as [[st1 calls1] [e|]]; [reflexivity|].
    destruct (read_loop cs2 st1) as [[st2 calls2] thrown].
    now rewrite List.app_assoc.
Qed.

(** The actions of a session that reports progress and a plain result, and
    beats. *)
Definition reports_only (a : action) : Prop :=
  match a with
  | do_sendResult result => plain result = true
  | do_sendProgress _ _
  | do_startHeartbeat | do_stopHeartbeat | do_heartbeat_tick => True
  | _ => False
  end.

(** What the handlers of the client are to be called with for an action. *)
Definition reported (a : action) : list handler_call :=
  match a with
  | do_sendProgress p m =>
      if (p =? EmptyString)%string then []
      else [StreamParser.onProgress (JString p) (option_map JString m)]
  | do_sendResult _ =>
      if (completePhase config =? EmptyString)%string then []
      else [StreamParser.onProgress (JString (completePhase config)) None]
  | _ => []
  end.

Ltac on_data_line :=
  unfold data_line, process_line, startsWith; cbn [data];
  match goal with
  | |- context [String.prefix "data: " ("data: " ++ stringify ?v)] =>
      change (String.prefix "event: " ("data: " ++ stringify v)) with false;
      change (String.prefix ":" ("data: " ++ stringify v)) with false;
      rewrite (prefix_append "data: " (stringify v));
      change (slice_from 6 ("data: " ++ stringify v)) with (stringify v);
      cbn [negb]; cbv iota;
      let c := fresh "c" in let r := fresh "r" in let T := fresh "T" in
      destruct (trim_stringify v) as (c & r & T); rewrite T, parse_stringify; clear c r T
  end.

(** A frame without a tag, read with no tag pending. *)
Lemma read_update (update : Update) (st : state) :
  buffer st = EmptyString -> currentEvent st = EmptyString ->
  read_chunk ("data: " ++ stringify (JObject update) ++ NLNL) st
  = process_line ("data: " ++ stringify (JObject update)) st.
Proof.
  intros B C.
  change ("data: " ++ stringify (JObject update) ++ NLNL)
    with (formatSSEMessage (mkSSEMessage None None (JObject update) None)).
  now rewrite read_frame.
Qed.

Lemma perform_reports (a : action) (o : StreamOrchestrator) :
  no_line_feed (heartbeat_message (heartbeat config)) ->
  reports_only a ->
  isClosed o = false -> can_enqueue (controller o) = true ->
  exists texts,
    isClosed (perform config a o) = false
    /\ can_enqueue (controller (perform config a o)) = true
    /\ chunks (controller (perform config a o))
       = (chunks (controller o) ++ map encode texts)%list
    /\ forall st, buffer st = EmptyString -> currentEvent st = EmptyString ->
                  read_loop texts st = (st, reported a, None).
Proof.
  intros HB W C E.
  destruct a as [u | p m | r | e x | p md m | t d | | | | now | reason now | now | ];
    try contradiction; cbn [perform reported].
  - unfold sendProgress.
    destruct (sendUpdate_writes (("phase", JString p) :: optional "message" m) o C E)
      as (C1 & E1 & K1).
    eexists [_]. split; [exact C1 | split; [exact E1 | split; [exact K1|]]].
    intros [b ev fin] B Ev. cbn in B, Ev. subst b ev.
    cbn [read_loop].
    rewrite read_update by reflexivity.
    on_data_line. destruct m as [m|]; cbn; now destruct p.
  - unfold sendResult.
    destruct (sendUpdate_writes
                [("phase", JString (completePhase config)); ("result", r)] o C E)
      as (C1 & E1 & K1).
    eexists [_]. split; [exact C1 | split; [exact E1 | split; [exact K1|]]].
    intros [b ev fin] B Ev. cbn in B, Ev. subst b ev.
    cbn [read_loop].
    rewrite read_update by reflexivity.
    on_data_line. cbn. now destruct (completePhase config).
  - exists []. unfold startHeartbeat.
    destruct o as [[can chunks0] closed0 aborted0 interval start sent err handler calls0].
    cbn in *. subst.
    destruct (enabled (heartbeat config)), interval; cbn; rewrite List.app_nil_r;
      (split; [reflexivity | split; [reflexivity | split; [reflexivity | reflexivity]]]).
  - exists []. unfold stopHeartbeat.
    destruct o as [[can chunks0] closed0 aborted0 interval start sent err handler calls0].
    cbn in *. subst. destruct interval; cbn; rewrite List.app_nil_r;
      (split; [reflexivity | split; [reflexivity | split; [reflexivity | reflexivity]]]).
  - unfold heartbeat_tick, enqueue.
    destruct o as [[can chunks0] closed0 aborted0 interval start sent err handler calls0].
    cbn in *. subst. destruct interval; cbn.
    + exists [Helpers.heartbeat_text (heartbeat_message (heartbeat config))].
      split; [reflexivity | split; [reflexivity | split; [reflexivity|]]].
      intros st B Ev. cbn [read_loop]. unfold Helpers.heartbeat_text.
      set (text := match heartbeat_message (heartbeat config) with
                   | Some m0 => m0
                   | None => "heartbeat"
                   end).
      assert (L : lf_free text = true).
      { subst text. destruct (heartbeat_message (heartbeat config)) as [m|]; [|reflexivity].
        now apply includes_false_lf_free. }
      replace (": [" ++ text ++ "]" ++ NLNL) with (join NL [": [" ++ text ++ "]"] ++ NLNL)
        by (unfold join; cbn [String.concat]; now rewrite !append_assoc).
      rewrite read_frame_lines; [| discriminate | | exact B].
      * reflexivity.
      * constructor; [|constructor]. rewrite !lf_free_append, L. reflexivity.
    + exists []. rewrite List.app_nil_r.
      split; [reflexivity | split; [reflexivity | split; [reflexivity | reflexivity]]].
Qed.

Lemma run_reports (acts : list action) (o : StreamOrchestrator) :
  no_line_feed (heartbeat_message (heartbeat config)) ->
  Forall reports_only acts ->
  isClosed o = false -> can_enqueue (controller o) = true ->
  exists texts,
    chunks (controller (run config acts o)) = (chunks (controller o) ++ map encode texts)%list
    /\ forall st, buffer st = EmptyString -> currentEvent st = EmptyString ->
                  read_loop texts st = (st, flat_map reported acts, None).
Proof.
  intros HB W. revert o. induction W as [|a acts Ha _ IH]; intros o C E.
  - exists []. cbn. rewrite List.app_nil_r. split; reflexivity.
  - destruct (perform_reports a o HB Ha C E) as (texts & C1 & E1 & K1 & R1).
    destruct (IH _ C1 E1) as (texts' & K2 & R2).
    exists (texts ++ texts')%list. cbn [run flat_map]. split.
    + now rewrite K2, K1, map_app, List.app_assoc.
    + intros st B Ev. now rewrite read_loop_app, (R1 st B Ev), (R2 st B Ev).
Qed.

(** X25. The result of the orchestrator does not reach [parseSSEStream] as a
    result. A session on a fresh sink that reports progress, beats and
    sends with [sendResult] a result that is plain (null, booleans, integers
    below 2^53 in magnitude, strings of code units below 256, arrays, and
    objects with distinct keys that are not all digits), its chunks decoded
    and read by [parseSSEStream] with handlers that return: every report
    whose phase is not empty is an [onProgress] call with the phase and the
    message, in order; the result is one more [onProgress] call, with the
    complete phase and no message; [onDone] is never called, and the promise
    resolves with [null], whatever the result. *)
Theorem results_are_read_as_progress (acts : list action) (now : Z) :
  signal config <> Some true ->
  no_line_feed (heartbeat_message (heartbeat config)) ->
  Forall reports_only acts ->
  let o := run config acts (new config (mkController true []) now) in
  parseSSEStream (map Helpers.decode (chunks (controller o)))
  = (flat_map reported acts, resolves JNull).
Proof.
  intros S HB W. cbv zeta.
  assert (N : isClosed (new config (mkController true []) now) = false
              /\ can_enqueue (controller (new config (mkController true []) now)) = true
              /\ chunks (controller (new config (mkController true []) now)) = []).
  { unfold new. destruct (signal config) as [[|]|]; [now elim S | now cbn | now cbn]. }
  destruct N as (C & E & K).
  destruct (run_reports acts _ HB W C E) as (texts & -> & R).
  rewrite K. cbn [List.app]. rewrite map_map.
  rewrite (map_ext _ (fun s => s)) by (intros s; apply decode_encode).
  rewrite map_id. unfold parseSSEStream. now rewrite (R initial eq_refl eq_refl).
Qed.

End OrchestratorToTypedClient.

(** Progress, a beat and the result 42. *)
Lemma results_are_read_as_progress_witness :
  let cfg := Orchestrator.DEFAULT_CONFIG in
  let acts := [do_startHeartbeat; do_sendProgress "loading" (Some "wait");
               do_heartbeat_tick; do_sendResult (JNumber 42)] in
  let o := run cfg acts (Orchestrator.new cfg (Orchestrator.mkController true []) 1000%Z) in
  StreamParser.parseSSEStream
    (map Helpers.decode (Orchestrator.chunks (Orchestrator.controller o)))
  = ([StreamParser.onProgress (JString "loading") (Some (JString "wait"));
      StreamParser.onProgress (JString "complete") None],
     Js.resolves JNull).
Proof.
  intros cfg acts.
  apply (results_are_read_as_progress cfg acts 1000%Z).
  - discriminate.
  - reflexivity.
  - repeat constructor.
Defined.


(* ================================================================== *)
(** * The state changes the breaker reports *)
(* ================================================================== *)

Section BreakerReports.

Import Js Breaker.
Local Open Scope Z_scope.

Variable config : CircuitBreakerConfig.

(** The state changes reported to [onStateChange], oldest first. *)
Definition transitions (hs : list hook) : list (CircuitState * CircuitState) :=
  flat_map (fun h => match h with onStateChange a b => [(a, b)] | _ => [] end) hs.

(** Where a chain of changes leads from a state: every change starts where
    the one before it ended, and none leads from a state to itself. *)
Fixpoint path (from : CircuitState) (ts : list (CircuitState * CircuitState))
  : option CircuitState :=
  match ts with
  | [] => Some from
  | (a, b) :: rest =>
      if state_eqb a from && negb (state_eqb a b) then path b rest else None
  end.

Lemma transitions_app (hs hs' : list hook) :
  transitions (hs ++ hs') = (transitions hs ++ transitions hs')%list.
Proof. apply flat_map_app. Qed.

Lemma path_app (from : CircuitState) (ts ts' : list (CircuitState * CircuitState)) :
  path from (ts ++ ts')
  = match path from ts with Some mid => path mid ts' | None => None end.
Proof.
  revert from. induction ts as [|[a b] ts IH]; intros from; [reflexivity|].
  cbn [List.app path].
  destruct (state_eqb a from && negb (state_eqb a b)); [apply IH | reflexivity].
Qed.

(** The reports so far lead from [closed] to the state the breaker is in. *)
Definition reported_path (b : Breaker) : Prop :=
  path closed (transitions (calls b)) = Some (state b).

Lemma reported_path_ext (b b' : Breaker) :
  state b' = state b -> calls b' = calls b -> reported_path b -> reported_path b'.
Proof. unfold reported_path. now intros -> ->. Qed.

Lemma reported_path_setState (s : CircuitState) (b : Breaker) :
  reported_path b -> reported_path (setState s b).
Proof.
  unfold reported_path, setState. intros H.
  destruct (state_eqb (state b) s) eqn:E; [exact H|].
  cbn [calls state]. rewrite transitions_app, path_app, H. cbn [transitions flat_map List.app path].
  rewrite E. now destruct (state b).
Qed.

Lemma reported_path_hook (h : hook) (b b' : Breaker) :
  match h with onStateChange _ _ => False | _ => True end ->
  state b' = state b -> calls b' = (calls b ++ [h])%list ->
  reported_path b -> reported_path b'.
Proof.
  unfold reported_path. intros N -> -> H.
  rewrite transitions_app, path_app, H. now destruct h.
Qed.

Lemma reported_path_change (c : change) (b : Breaker) :
  reported_path b -> reported_path (apply_change config c b).
Proof.
  intros H. destruct c as [[now e | | |] | now]; cbn [apply_change step].
  - unfold recordFailure.
    match goal with
    | |- reported_path (if _ then scheduleHalfOpen _ _ (setState open ?b1) else _) =>
        assert (H1 : reported_path b1)
          by (apply (reported_path_hook (onFailure e (failures b + 1)) b);
              [exact I | reflexivity | reflexivity | exact H])
    end.
    destruct (failureThreshold config <=? _); [|exact H1].
    eapply reported_path_ext; [| |apply (reported_path_setState open), H1]; reflexivity.
  - unfold recordSuccess. destruct (state b) eqn:S.
    + apply (reported_path_hook onSuccess b); [exact I | now cbn | reflexivity | exact H].
    + exact H.
    + destruct (successThreshold config <=? _).
      * unfold call_onSuccess, reset.
        match goal with
        | |- reported_path (mkBreaker (state ?r) _ _ _ _ (calls ?r ++ _)) =>
            apply (reported_path_hook onSuccess r); [exact I | reflexivity | reflexivity |]
        end.
        apply reported_path_setState.
        eapply reported_path_ext; [| |exact H]; [now cbn | reflexivity].
      * eapply reported_path_ext; [| |exact H]; [now cbn | reflexivity].
  - destruct (resetTimeout b); [|exact H]. unfold timer_fires.
    eapply reported_path_ext; [| |apply (reported_path_setState half_open), H]; reflexivity.
  - unfold reset. apply reported_path_setState.
    eapply reported_path_ext; [| |exact H]; reflexivity.
  - unfold forceOpen.
    eapply reported_path_ext; [| |apply (reported_path_setState open)];
      [reflexivity | reflexivity |].
    eapply reported_path_ext; [| |exact H]; reflexivity.
Qed.

(** X26. The state changes reported to [onStateChange] tell the whole story.
    After any sequence of failures, successes, timer firings, [reset] and
    [forceOpen] on a new breaker, the reported changes, read in order, start
    at [closed], each starts from the state the one before it led to, none
    leads from a state to itself, and the last one leads to the state
    [getState] returns. *)
Theorem reported_changes_lead_to_the_state (cs : list change) :
  let b := fold_left (fun b c => apply_change config c b) cs initial in
  path closed (transitions (calls b)) = Some (getState b).
Proof.
  assert (G : forall b, reported_path b ->
                        reported_path (fold_left (fun b c => apply_change config c b) cs b)).
  { induction cs as [|c cs IH]; intros b H; [exact H|].
    cbn [fold_left]. apply IH, reported_path_change, H. }
  apply G. reflexivity.
Qed.

End BreakerReports.

(* ================================================================== *)
(** * The typed parser at the end of the body *)
(* ================================================================== *)

Section UnterminatedLine.

Import Js StreamParser.

Lemma cut_NL_lf_free (s b a : string) : cut NL s = Some (b, a) -> lf_free b = true.
Proof.
  revert b a. induction s as [|c s IH]; intros b a; cbn [cut].
  - discriminate.
  - assert (P : String.prefix NL (String c s) = (c =? LF)%char).
    { unfold NL, str1. cbn [String.prefix].
      destruct (ascii_dec LF c) as [<-|ne].
      - now destruct s.
      - symmetry. apply Ascii.eqb_neq. congruence. }
    rewrite P. destruct (c =? LF)%char eqn:E.
    + now intros [= <- _].
    + destruct (cut NL s) as [[b' a']|]; [|discriminate].
      intros [= <- _]. cbn [lf_free]. now rewrite E, (IH b' a').
Qed.

(** No piece of a text split at the line feeds holds a line feed. *)
Lemma split_lf_free (s : string) : Forall (fun l => lf_free l = true) (split NL s).
Proof.
  assert (Hsep : NL <> EmptyString) by discriminate.
  remember (String.length s) as n eqn:En. revert s En.
  induction n as [n IH] using lt_wf_ind. intros s En.
  destruct (cut NL s) as [[b a]|] eqn:C.
  - rewrite (split_some NL s b a Hsep C). constructor.
    + exact (cut_NL_lf_free s b a C).
    + apply (IH (String.length a)); [|reflexivity].
      pose proof (cut_length NL s b a C) as L. cbn in L. lia.
  - rewrite (split_none NL s C). constructor; [|constructor].
    apply includes_false_lf_free, cut_none_includes, C.
Qed.

Lemma Forall_last {A : Type} (P : A -> Prop) (l : list A) (d : A) :
  Forall P l -> l <> [] -> P (last l d).
Proof.
  induction 1 as [|x l Hx Hl IH]; [easy|]. intros _.
  destruct l as [|y l]; [exact Hx | apply IH; discriminate].
Qed.

Lemma buffer_after_read (chunk : string) (st : state) :
  lf_free (buffer (fst (fst (read_chunk chunk st)))) = true.
Proof.
  rewrite read_chunk_lines, buffer_process_lines. cbn [buffer set_buffer].
  apply (Forall_last (fun l => lf_free l = true)); [apply split_lf_free | apply split_nonempty].
Qed.

Lemma buffer_after_read_loop (chunks : list string) (st : state) :
  lf_free (buffer st) = true ->
  lf_free (buffer (fst (fst (read_loop chunks st)))) = true.
Proof.
  revert st. induction chunks as [|c chunks IH]; intros st H; [exact H|].
  cbn [read_loop]. pose proof (buffer_after_read c st) as B.
  destruct (read_chunk c st) as [[st1 calls1] [e|]]; [exact B|].
  cbn [fst] in B. specialize (IH st1 B).
  now destruct (read_loop chunks st1) as [[st2 calls2] thrown].
Qed.

(** X27. A last line without its line feed is never read. Text that the
    body delivers after its last line feed, a whole data line included,
    makes no call and does not change how [parseSSEStream] settles: it is
    left in the buffer when the body ends. *)
Theorem unterminated_line_is_dropped (chunks : list string) (tail : string) :
  includes NL tail = false ->
  parseSSEStream (chunks ++ [tail]) = parseSSEStream chunks.
Proof.
  intros L. apply includes_false_lf_free in L.
  unfold parseSSEStream. rewrite read_loop_app.
  pose proof (buffer_after_read_loop chunks initial eq_refl) as B.
  destruct (read_loop chunks initial) as [[st1 calls1] [e|]]; [reflexivity|].
  cbn [fst] in B. cbn [read_loop]. rewrite read_chunk_lines.
  assert (C : cut NL (buffer st1 ++ tail) = None).
  { pose proof (cut_lf_free EmptyString (buffer st1 ++ tail) EmptyString) as C.
    rewrite append_nil_r in C. apply C. now rewrite lf_free_append, B, L. }
  rewrite (split_none NL _ C). cbn [removelast last process_lines set_buffer finalData].
  now rewrite List.app_nil_r.
Qed.

End UnterminatedLine.

(** A complete done frame, then a second one that lacks its last line
    feeds. *)
Lemma unterminated_line_is_dropped_witness :
  StreamParser.parseSSEStream
    ([Helpers.done_text (JNumber 1) Helpers.no_options] ++ ["data: 2"])
  = StreamParser.parseSSEStream [Helpers.done_text (JNumber 1) Helpers.no_options].
Proof. apply unterminated_line_is_dropped. reflexivity. Defined.
